(** * cognix-editor: undoable flow commands and port items

    A shallow embedding of [cognix/qtcore/flows/commands.py] (the undo
    commands of the flow view) and of the [port] lookups of
    [cognix/qtcore/ports/item.py], with the properties the editor's
    specification states about them.

    Python objects are records; methods are functions in a state monad over
    the object and the editor ([self] and the world it mutates), in which an
    exception aborts the rest of the computation and keeps the mutations made
    so far.  The graph model ([cognixcore.Flow]) and the view
    ([FlowView], the Qt scene) are collaborators outside these files: they are
    modelled from their interface, each definition saying so. *)

From stdpp Require Import base option list gmap sets strings.
From Stdlib Require Import ZArith Lia.

Set Default Proof Using "Type".

(** ** Python's control flow: state and exceptions *)

Inductive Exn :=
| TypeError (msg : string)
| AttributeError (msg : string)
| KeyError (key : string)
| NodeInitError (msg : string).

Inductive Res (A : Type) :=
| Ok (a : A)
| Raise (e : Exn).
Arguments Ok {A} a.
Arguments Raise {A} e.

(** A computation over a mutable state [S]: it returns or raises, and in both
    cases leaves a state behind. *)
Definition M (S A : Type) : Type := S → Res A * S.

#[global] Instance M_ret S : MRet (M S) := λ A a s, (Ok a, s).

#[global] Instance M_bind S : MBind (M S) := λ A B f m s,
  match m s with
  | (Ok a, s') => f a s'
  | (Raise e, s') => (Raise e, s')
  end.

Definition raise {S A} (e : Exn) : M S A := λ s, (Raise e, s).

(** [try: body except Exception as e: handler e] *)
Definition try_except {S A} (body : M S A) (handler : Exn → M S A) : M S A := λ s,
  match body s with
  | (Raise e, s') => handler e s'
  | r => r
  end.

Definition gets {S A} (f : S → A) : M S A := λ s, (Ok (f s), s).

Definition modify {S} (f : S → S) : M S unit := λ s, (Ok tt, f s).

(** [for x in l: body x] *)
Fixpoint for_ {S A} (l : list A) (body : A → M S unit) : M S unit :=
  match l with
  | [] => mret tt
  | x :: l' => body x;; for_ l' body
  end.

(** A method runs on the pair of its object and the world; [on_self] and
    [on_world] run a computation on one side of the pair. *)
Definition on_self {Self W A} (m : M Self A) : M (Self * W) A := λ sw,
  let (r, s') := m sw.1 in (r, (s', sw.2)).

Definition on_world {Self W A} (m : M W A) : M (Self * W) A := λ sw,
  let (r, w') := m sw.2 in (r, (sw.1, w')).

Definition returns {S A} (r : Res A * S) : bool :=
  match r.1 with Ok _ => true | Raise _ => false end.

(** ** The graph model: nodes, ports, connections *)

(** A node is known by its identity. *)
Definition Node := nat.

Record NodeInput := { inp_node : Node; inp_id : nat }.
Record NodeOutput := { out_node : Node; out_id : nat }.

Inductive NodePort :=
| PInput (i : NodeInput)
| POutput (o : NodeOutput).

(** [ConnectionInfo]: a connection described by its two end ports. *)
Record ConnectionInfo := { out_port : NodeOutput; inp_port : NodeInput }.

#[global] Instance NodeInput_eq_dec : EqDecision NodeInput.
Proof. solve_decision. Defined.
#[global] Instance NodeOutput_eq_dec : EqDecision NodeOutput.
Proof. solve_decision. Defined.
#[global] Instance NodePort_eq_dec : EqDecision NodePort.
Proof. solve_decision. Defined.
#[global] Instance ConnectionInfo_eq_dec : EqDecision ConnectionInfo.
Proof. solve_decision. Defined.

#[global] Instance NodeInput_countable : Countable NodeInput.
Proof.
  refine (inj_countable' (λ i, (inp_node i, inp_id i))
                         (λ p, {| inp_node := p.1; inp_id := p.2 |}) _).
  by intros [].
Defined.
#[global] Instance NodeOutput_countable : Countable NodeOutput.
Proof.
  refine (inj_countable' (λ o, (out_node o, out_id o))
                         (λ p, {| out_node := p.1; out_id := p.2 |}) _).
  by intros [].
Defined.
#[global] Instance ConnectionInfo_countable : Countable ConnectionInfo.
Proof.
  refine (inj_countable' (λ c, (out_port c, inp_port c))
                         (λ p, {| out_port := p.1; inp_port := p.2 |}) _).
  by intros [].
Defined.

(** ** The view's items and their positions *)

Definition Drawing := nat.

(** The three kinds of items of a flow view ([isinstance] is a match). *)
Inductive Item :=
| NodeItem (node : Node)
| DrawingObject (d : Drawing)
| ConnectionItem (connection : ConnectionInfo).

#[global] Instance Item_eq_dec : EqDecision Item.
Proof. solve_decision. Defined.

#[global] Instance Item_countable : Countable Item.
Proof.
  refine (inj_countable'
    (λ it, match it with
           | NodeItem n => inl (inl n)
           | DrawingObject d => inl (inr d)
           | ConnectionItem c => inr c
           end)
    (λ s, match s with
          | inl (inl n) => NodeItem n
          | inl (inr d) => DrawingObject d
          | inr c => ConnectionItem c
          end) _).
  by intros [].
Defined.

(** [QPointF].  Its coordinates are floating-point numbers; here they are
    integers, whose sums are exact.  The properties below therefore rest on
    no law of the sums beyond [p - 0 = p]: where the code adds or subtracts,
    the statements carry the sum as the code computes it. *)
Definition Pos : Type := Z * Z.

Definition origin : Pos := (0, 0)%Z.
Definition padd (p q : Pos) : Pos := (p.1 + q.1, p.2 + q.2)%Z.
Definition psub (p q : Pos) : Pos := (p.1 - q.1, p.2 - q.2)%Z.

(** ** Clipboard data *)

Inductive Value :=
| VNum (z : Z)
| VStr (s : string).

(** The clipboard dictionary [data]: ['nodes'], ['connections'] and
    ['drawings'].  A node or drawing descriptor is a dictionary; of a node's
    descriptor the port counts are kept beside it. *)
Record NodeData := {
  nd_dict : gmap string Value;
  nd_inputs : nat;
  nd_outputs : nat
}.

Record ConnData := {
  parent_node_index : nat;
  output_port_index : nat;
  connected_node : nat;
  connected_input_port_index : nat
}.

Record PasteData := {
  data_nodes : list NodeData;
  data_connections : list ConnData;
  data_drawings : list (gmap string Value)
}.

(** A reference to a dictionary on the Python heap. *)
Definition Ref := nat.

(** ** The editor's state *)

(** Modelled from the spec: [cognixcore.Flow], the graph model (section 6 of
    the specification: add/remove node, connect/disconnect, connection
    lookup) is not part of these files.  It owns a set of nodes and a set of
    directed edges from an output port to an input port; [_inputs] and
    [_outputs] are the port lists of its nodes. *)
Record Flow := {
  nodes : gset Node;
  connections : gset (NodeOutput * NodeInput);
  _inputs : gmap Node (list NodeInput);
  _outputs : gmap Node (list NodeOutput);
  next_node : Node
}.

(** Modelled from the spec: [FlowView] and its Qt scene (the view-side
    collaborators of section 6: selection get/set, drawing add/remove).  Every
    item has a position, the origin until one is set; a node's item is on the
    scene exactly while the node is in the flow. *)
Record FlowView := {
  item_pos : gmap Item Pos;
  scene_drawings : gset Drawing;
  _current_selected : list Item;
  next_drawing : Drawing
}.

(** What is written to the diagnostic channels. *)
Inductive Diagnostic :=
| write_err (msg : string)
| print_exc (e : Exn).

(** [PinState], the states of a port's pin. *)
Inductive PinState :=
| DISCONNECTED
| CONNECTED
| VALID
| INVALID.

(** Signals, notification hooks and calls into the theme, in the order they
    happen. *)
Inductive Event :=
| setup_PI_label (p : NodePort) (pin_state : PinState)
| paint_PI (p : NodePort) (pin_state : PinState)
| QGraphicsWidget_update
| on_move (it : Item)
| _on_restored (n : Node)
| _on_deleted (n : Node)
| node_placed (n : Node)
| add_new_signal
| add_existing_signal
| setSelected (it : Item)
| connection_added (c : ConnectionInfo)
| connection_removed (c : ConnectionInfo).

Record World := {
  _any_cmd_active : bool;
  stderr : list Diagnostic;
  flow : Flow;
  flow_view : FlowView;
  events : list Event;
  heap : gmap Ref PasteData
}.

Definition with_flow (f : Flow → Flow) (w : World) : World :=
  {| _any_cmd_active := _any_cmd_active w; stderr := stderr w; flow := f (flow w);
     flow_view := flow_view w; events := events w; heap := heap w |}.

Definition with_view (f : FlowView → FlowView) (w : World) : World :=
  {| _any_cmd_active := _any_cmd_active w; stderr := stderr w; flow := flow w;
     flow_view := f (flow_view w); events := events w; heap := heap w |}.

Definition with_guard (b : bool) (w : World) : World :=
  {| _any_cmd_active := b; stderr := stderr w; flow := flow w;
     flow_view := flow_view w; events := events w; heap := heap w |}.

Definition with_stderr (d : Diagnostic) (w : World) : World :=
  {| _any_cmd_active := _any_cmd_active w; stderr := stderr w ++ [d]; flow := flow w;
     flow_view := flow_view w; events := events w; heap := heap w |}.

Definition with_event (e : Event) (w : World) : World :=
  {| _any_cmd_active := _any_cmd_active w; stderr := stderr w; flow := flow w;
     flow_view := flow_view w; events := events w ++ [e]; heap := heap w |}.

Definition with_heap (f : gmap Ref PasteData → gmap Ref PasteData) (w : World) : World :=
  {| _any_cmd_active := _any_cmd_active w; stderr := stderr w; flow := flow w;
     flow_view := flow_view w; events := events w; heap := f (heap w) |}.

Definition emit (e : Event) : M World unit := modify (with_event e).

Module InfoMsgs.
Definition write_err (msg : string) : M World unit := modify (with_stderr (write_err msg)).
End InfoMsgs.

Module traceback.
Definition print_exc (e : Exn) : M World unit := modify (with_stderr (print_exc e)).
End traceback.

(** ** The graph model's interface *)

Definition flow_nodes (g : gset Node → gset Node) (f : Flow) : Flow :=
  {| nodes := g (nodes f); connections := connections f; _inputs := _inputs f;
     _outputs := _outputs f; next_node := next_node f |}.

Definition flow_connections
    (g : gset (NodeOutput * NodeInput) → gset (NodeOutput * NodeInput)) (f : Flow) : Flow :=
  {| nodes := nodes f; connections := g (connections f); _inputs := _inputs f;
     _outputs := _outputs f; next_node := next_node f |}.

Definition view_pos (g : gmap Item Pos → gmap Item Pos) (v : FlowView) : FlowView :=
  {| item_pos := g (item_pos v); scene_drawings := scene_drawings v;
     _current_selected := _current_selected v; next_drawing := next_drawing v |}.

Definition view_drawings (g : gset Drawing → gset Drawing) (v : FlowView) : FlowView :=
  {| item_pos := item_pos v; scene_drawings := g (scene_drawings v);
     _current_selected := _current_selected v; next_drawing := next_drawing v |}.

Definition view_selected (l : list Item) (v : FlowView) : FlowView :=
  {| item_pos := item_pos v; scene_drawings := scene_drawings v;
     _current_selected := l; next_drawing := next_drawing v |}.

(** The ports a freshly built node [n] gets. *)
Definition new_inputs (n : Node) (k : nat) : list NodeInput :=
  (λ j, {| inp_node := n; inp_id := j |}) <$> seq 0 k.
Definition new_outputs (n : Node) (k : nat) : list NodeOutput :=
  (λ j, {| out_node := n; out_id := j |}) <$> seq 0 k.

(** A node class: what its constructor builds, or the exception it raises. *)
Record NodeClass := {
  init_inputs : nat;
  init_outputs : nat;
  init_raises : option Exn
}.

Definition num_or_0 (v : option Value) : Z :=
  match v with Some (VNum z) => z | _ => 0%Z end.

(** Modelled from the spec: the operations of [cognixcore.Flow] the commands
    call (specification, section 6).  Nodes and edges are sets: adding what is
    there and removing what is not change nothing.  [silent] suppresses the
    notification of a connect or disconnect. *)
Module Flow.

Definition connection_info (c : NodeOutput * NodeInput) : ConnectionInfo :=
  {| out_port := c.1; inp_port := c.2 |}.

Definition edge (c : ConnectionInfo) : NodeOutput * NodeInput :=
  (out_port c, inp_port c).

Definition connected_inputs (f : Flow) (out : NodeOutput) : list NodeInput :=
  snd <$> filter (λ c, c.1 = out) (elements (connections f)).

Definition connected_output (f : Flow) (inp : NodeInput) : option NodeOutput :=
  head (fst <$> filter (λ c, c.2 = inp) (elements (connections f))).

Definition add_node (n : Node) : M World unit :=
  modify (with_flow (flow_nodes (λ s, s ∪ {[n]}))).

Definition remove_node (n : Node) : M World unit :=
  modify (with_flow (flow_nodes (λ s, s ∖ {[n]}))).

(** A new node gets the next free identity and the ports of its class. *)
Definition build_node (n_in n_out : nat) (f : Flow) : Flow :=
  let n := next_node f in
  {| nodes := nodes f ∪ {[n]}; connections := connections f;
     _inputs := <[n := new_inputs n n_in]> (_inputs f);
     _outputs := <[n := new_outputs n n_out]> (_outputs f);
     next_node := S n |}.

Definition create_node (cls : NodeClass) : M World Node :=
  match init_raises cls with
  | Some e => raise e
  | None =>
      n ← gets (λ w, next_node (flow w));
      modify (with_flow (build_node (init_inputs cls) (init_outputs cls)));;
      mret n
  end.

Definition add_connection (c : NodeOutput * NodeInput) (silent : bool) : M World unit :=
  modify (with_flow (flow_connections (λ s, s ∪ {[c]})));;
  if silent then mret tt else emit (connection_added (connection_info c)).

Definition remove_connection (c : NodeOutput * NodeInput) (silent : bool) : M World unit :=
  modify (with_flow (flow_connections (λ s, s ∖ {[c]})));;
  if silent then mret tt else emit (connection_removed (connection_info c)).

Definition connect_ports (out : NodeOutput) (inp : NodeInput) (silent : bool)
    : M World (option (NodeOutput * NodeInput)) :=
  add_connection (out, inp) silent;; mret (Some (out, inp)).

Definition connect_from_info (c : ConnectionInfo) (silent : bool) : M World unit :=
  add_connection (edge c) silent.

Definition disconnect_from_info (c : ConnectionInfo) (silent : bool) : M World unit :=
  remove_connection (edge c) silent.

(** [load_components]: one new node per node descriptor, its item placed at
    the descriptor's position; then one edge per connection descriptor whose
    node and port indices exist among the new nodes. *)
Definition load_node (nd : NodeData) : M World Node :=
  n ← gets (λ w, next_node (flow w));
  modify (with_flow (build_node (nd_inputs nd) (nd_outputs nd)));;
  modify (with_view (view_pos
    <[NodeItem n := (num_or_0 (nd_dict nd !! "pos x"), num_or_0 (nd_dict nd !! "pos y"))]>));;
  mret n.

Fixpoint load_nodes (nds : list NodeData) : M World (list Node) :=
  match nds with
  | [] => mret []
  | nd :: rest => n ← load_node nd; ns ← load_nodes rest; mret (n :: ns)
  end.

Definition resolve (f : Flow) (ns : list Node) (cd : ConnData)
    : option (NodeOutput * NodeInput) :=
  a ← ns !! parent_node_index cd;
  b ← ns !! connected_node cd;
  o ← default [] (_outputs f !! a) !! output_port_index cd;
  i ← default [] (_inputs f !! b) !! connected_input_port_index cd;
  Some (o, i).

Fixpoint load_connections (ns : list Node) (cds : list ConnData)
    : M World (list (NodeOutput * NodeInput)) :=
  match cds with
  | [] => mret []
  | cd :: rest =>
      c ← gets (λ w, resolve (flow w) ns cd);
      match c with
      | Some c => add_connection c true;; cs ← load_connections ns rest; mret (c :: cs)
      | None => load_connections ns rest
      end
  end.

Definition load_components (nodes_data : list NodeData) (conns_data : list ConnData)
    : M World (list Node * list (NodeOutput * NodeInput)) :=
  ns ← load_nodes nodes_data;
  cs ← load_connections ns conns_data;
  mret (ns, cs).

End Flow.

(** ** The view's interface *)

Definition pos_of (v : FlowView) (it : Item) : Pos := default origin (item_pos v !! it).

(** Modelled from the spec: Qt's [QGraphicsItemGroup].  A new group stands at
    the origin and holds its items; moving the group moves every item it holds
    by the same amount; destroying it leaves the items where they are. *)
Record QGraphicsItemGroup := { group_items : list Item; group_pos : Pos }.

Definition shift_items (items : list Item) (d : Pos) (v : FlowView) : FlowView :=
  view_pos (λ m, foldr (λ it m', <[it := padd (pos_of v it) d]> m') m items) v.

Module QGraphicsScene.

Definition createItemGroup (items : list Item) : M World QGraphicsItemGroup :=
  mret {| group_items := items; group_pos := origin |}.

Definition setPos (g : QGraphicsItemGroup) (p : Pos) : M World QGraphicsItemGroup :=
  modify (with_view (shift_items (group_items g) (psub p (group_pos g))));;
  mret {| group_items := group_items g; group_pos := p |}.

Definition destroyItemGroup (g : QGraphicsItemGroup) : M World unit := mret tt.

End QGraphicsScene.

(** Modelled from the spec: the operations of [FlowView] the commands call. *)
Module FlowView.

Definition select_items (items : list Item) : M World unit :=
  modify (with_view (view_selected items)).

Definition clear_selection : M World unit :=
  modify (with_view (view_selected [])).

(** [add_drawing(drawing, posF=None)]: a given position is set. *)
Definition add_drawing (d : Drawing) (posF : option Pos) : M World unit :=
  modify (with_view (view_drawings (λ s, s ∪ {[d]})));;
  match posF with
  | Some p => modify (with_view (view_pos <[DrawingObject d := p]>))
  | None => mret tt
  end.

Definition remove_drawing (d : Drawing) : M World unit :=
  modify (with_view (view_drawings (λ s, s ∖ {[d]}))).

Definition remove_component (it : Item) : M World unit :=
  match it with
  | NodeItem n => Flow.remove_node n
  | DrawingObject d => remove_drawing d
  | ConnectionItem c => Flow.disconnect_from_info c false
  end.

Definition create_drawing (d : gmap string Value) : M World Drawing :=
  n ← gets (λ w, next_drawing (flow_view w));
  modify (with_view (λ v,
    {| item_pos := item_pos v; scene_drawings := scene_drawings v;
       _current_selected := _current_selected v; next_drawing := S n |}));;
  mret n.

End FlowView.

(** ** [FlowUndoCommand]: the base class of the undoable commands *)

(** A command object: the base class's fields ([_activated]; [text] is
    [QUndoCommand]'s label) and the fields [F] of its subclass. *)
Record FlowUndoCommand (F : Type) := {
  _activated : bool;
  text : string;
  fields : F
}.
Arguments _activated {F} _.
Arguments text {F} _.
Arguments fields {F} _.

(** The methods a subclass overrides. *)
Class Methods (F : Type) := {
  redo_ : M (FlowUndoCommand F * World) unit;
  undo_ : M (FlowUndoCommand F * World) unit
}.

Definition redo_msg : string :=
  "FlowUndoCommand.redo() called while another FlowUndoCommand is active, most likely due to a recursive redo. This is not allowed. The editor is now in an undefined state. Save your work and restart the editor. ".

Definition undo_msg : string :=
  "FlowUndoCommand.undo() called while another FlowUndoCommand is active, most likely due to a recursive undo. This is not allowed. The editor is now in an undefined state. Save your work and restart the editor. ".

Section FlowUndoCommand.
Context {F : Type}.

Definition self_fields : M (FlowUndoCommand F * World) F := gets (λ sw, fields sw.1).

Definition set_fields (g : F → F) : M (FlowUndoCommand F * World) unit :=
  modify (λ sw, ({| _activated := _activated sw.1; text := text sw.1;
                    fields := g (fields sw.1) |}, sw.2)).

Definition setText (s : string) : M (FlowUndoCommand F * World) unit :=
  modify (λ sw, ({| _activated := _activated sw.1; text := s; fields := fields sw.1 |}, sw.2)).

Definition set_activated (b : bool) : M (FlowUndoCommand F * World) unit :=
  modify (λ sw, ({| _activated := b; text := text sw.1; fields := fields sw.1 |}, sw.2)).

Definition set_any_cmd_active (b : bool) : M (FlowUndoCommand F * World) unit :=
  on_world (modify (with_guard b)).

Definition __init__ (f : F) : FlowUndoCommand F :=
  {| _activated := false; text := EmptyString; fields := f |}.

Context `{!Methods F}.

Definition redo : M (FlowUndoCommand F * World) unit :=
  activated ← gets (λ sw, _activated sw.1);
  if negb activated then mret tt
  else
    active ← gets (λ sw, _any_cmd_active sw.2);
    if active : bool then on_world (InfoMsgs.write_err redo_msg)
    else
      set_any_cmd_active true;;
      redo_;;
      set_any_cmd_active false.

Definition undo : M (FlowUndoCommand F * World) unit :=
  active ← gets (λ sw, _any_cmd_active sw.2);
  if active : bool then on_world (InfoMsgs.write_err undo_msg)
  else
    set_any_cmd_active true;;
    undo_;;
    set_any_cmd_active false.

Definition activate (silent : bool) : M (FlowUndoCommand F * World) unit :=
  set_activated true;;
  if negb silent then redo else mret tt.

End FlowUndoCommand.

(** The base class's own [redo_] and [undo_] do nothing. *)
Definition base_methods : Methods unit :=
  {| redo_ := mret tt; undo_ := mret tt |}.

(** [undo_text_multi]; [to_str] stands for [str] on an item. *)
Definition undo_text_multi {A} (items : list A) (command : string) (to_str : A → string)
    : string :=
  match items with
  | [x] => command +:+ " " +:+ to_str x
  | [] => "Clear-" +:+ command
  | _ => "Multi-" +:+ command
  end.

Definition str (it : Item) : string :=
  match it with
  | NodeItem _ => "NodeItem"
  | DrawingObject _ => "DrawingObject"
  | ConnectionItem _ => "ConnectionItem"
  end.

(** ** [DelegateCommand] *)

(** The two callables of a delegate are closures: code over the objects they
    captured ([closure_env]) and the world. *)
Module DelegateCommand.

Record t (Env : Type) := {
  closure_env : Env;
  _on_undo : M (Env * World) unit;
  _on_redo : M (Env * World) unit
}.
Arguments closure_env {Env} _.
Arguments _on_undo {Env} _.
Arguments _on_redo {Env} _.

Section Delegate.
Context {Env : Type}.

Definition __init__ (text : string) (env : Env) (on_undo on_redo : M (Env * World) unit)
    : FlowUndoCommand (t Env) :=
  {| _activated := false; text := text;
     fields := {| closure_env := env; _on_undo := on_undo; _on_redo := on_redo |} |}.

(** Calling a closure: it runs on its captured objects and the world. *)
Definition call (code : M (Env * World) unit) : M (FlowUndoCommand (t Env) * World) unit :=
  λ sw,
    let (r, ew) := code (closure_env (fields sw.1), sw.2) in
    (r, ({| _activated := _activated sw.1; text := text sw.1;
            fields := {| closure_env := ew.1; _on_undo := _on_undo (fields sw.1);
                         _on_redo := _on_redo (fields sw.1) |} |}, ew.2)).

#[global] Instance methods : Methods (t Env) := {|
  undo_ := f ← self_fields; call (_on_undo f);
  redo_ := f ← self_fields; call (_on_redo f)
|}.
End Delegate.

End DelegateCommand.

(** ** [MoveComponentsCommand] *)

Module MoveComponentsCommand.

Record t := {
  items_list : list Item;
  p_from : Pos;
  p_to : Pos;
  last_item_group_pos : Pos
}.

Definition set_last_item_group_pos (p : Pos) (f : t) : t :=
  {| items_list := items_list f; p_from := p_from f; p_to := p_to f;
     last_item_group_pos := p |}.

Definition __init__ (items_list : list Item) (p_from p_to : Pos) : FlowUndoCommand t :=
  {| _activated := false;
     text := undo_text_multi items_list "Move" str;
     fields := {| items_list := items_list; p_from := p_from; p_to := p_to;
                  last_item_group_pos := p_to |} |}.

Definition items_group : M (FlowUndoCommand t * World) QGraphicsItemGroup :=
  f ← self_fields;
  on_world (QGraphicsScene.createItemGroup (items_list f)).

Definition destroy_items_group (g : QGraphicsItemGroup) : M (FlowUndoCommand t * World) unit :=
  on_world (QGraphicsScene.destroyItemGroup g).

#[global] Instance methods : Methods t := {|
  undo_ :=
    g ← items_group;
    f ← self_fields;
    g ← on_world (QGraphicsScene.setPos g (p_from f));
    set_fields (set_last_item_group_pos (group_pos g));;
    destroy_items_group g;;
    on_world (for_ (items_list f) (λ item, emit (on_move item)));
  redo_ :=
    g ← items_group;
    f ← self_fields;
    g ← on_world (QGraphicsScene.setPos g (psub (p_to f) (last_item_group_pos f)));
    destroy_items_group g;;
    on_world (for_ (items_list f) (λ item, emit (on_move item)))
|}.

End MoveComponentsCommand.

(** ** [PlaceNodeCommand] *)

Module PlaceNodeCommand.

Record t := {
  node_class : NodeClass;
  node : option Node;
  item_pos : Pos;
  _prev_selected : list Item
}.

Definition set_node (n : option Node) (f : t) : t :=
  {| node_class := node_class f; node := n; item_pos := item_pos f;
     _prev_selected := _prev_selected f |}.

Definition __init__ (flow_view : FlowView) (node_class : NodeClass) (pos : Pos)
    : FlowUndoCommand t :=
  __init__ {| node_class := node_class; node := None; item_pos := pos;
              _prev_selected := _current_selected flow_view |}.

(** The slot connected to the [node_placed] signal. *)
Definition on_node_placed (n : Node) : M (FlowUndoCommand t * World) unit :=
  setText ("Create " +:+ str (NodeItem n)).

Definition node_placed_emit (n : Node) : M (FlowUndoCommand t * World) unit :=
  on_world (emit (node_placed n));; on_node_placed n.

(** [remove_node(None)] fails on the node it is to take out. *)
Definition remove_node (n : option Node) : M World unit :=
  match n with
  | Some n => Flow.remove_node n
  | None => raise (AttributeError "NoneType")
  end.

(** [redo_], over the two operations of the flow it calls. *)
Definition redo_with (add_node : Node → M World unit)
    (create_node : NodeClass → M World Node) : M (FlowUndoCommand t * World) unit :=
  try_except
    (f ← self_fields;
     match node f with
     | Some n => on_world (add_node n);; node_placed_emit n
     | None =>
         n ← on_world (create_node (node_class f));
         set_fields (set_node (Some n));;
         node_placed_emit n
     end)
    (λ e, on_world (traceback.print_exc e);; raise e).

(** The operation of the flow that [redo_] calls: re-adding the node it
    holds, or creating one of its class. *)
Definition flow_operation (add_node : Node → M World unit)
    (create_node : NodeClass → M World Node) (self : FlowUndoCommand t) : M World Node :=
  match node (fields self) with
  | Some n => add_node n;; mret n
  | None => create_node (node_class (fields self))
  end.

(** What [redo_] leaves of the command when the operation returned node [n]. *)
Definition placed (n : Node) (self : FlowUndoCommand t) : FlowUndoCommand t :=
  {| _activated := _activated self;
     text := "Create " +:+ str (NodeItem n);
     fields := set_node (Some n) (fields self) |}.

#[global] Instance methods : Methods t := {|
  undo_ :=
    f ← self_fields;
    on_world (remove_node (node f));;
    on_world (FlowView.select_items (_prev_selected f));
  redo_ := redo_with Flow.add_node Flow.create_node
|}.

End PlaceNodeCommand.

(** ** [PlaceDrawingCommand] *)

Module PlaceDrawingCommand.

(** [drawing_call] is what calling the drawing object ([self.drawing(True)])
    gives: a label, or the exception of an object that cannot be called. *)
Record t := {
  drawing : Drawing;
  drawing_call : bool → Res string;
  drawing_obj_place_pos : Pos;
  drawing_obj_pos : Pos;
  _prev_selected : list Item
}.

Definition set_drawing_obj_pos (p : Pos) (f : t) : t :=
  {| drawing := drawing f; drawing_call := drawing_call f;
     drawing_obj_place_pos := drawing_obj_place_pos f; drawing_obj_pos := p;
     _prev_selected := _prev_selected f |}.

Definition __init__ (flow_view : FlowView) (posF : Pos) (drawing : Drawing)
    (drawing_call : bool → Res string) : FlowUndoCommand t :=
  __init__ {| drawing := drawing; drawing_call := drawing_call;
              drawing_obj_place_pos := posF; drawing_obj_pos := posF;
              _prev_selected := _current_selected flow_view |}.

#[global] Instance methods : Methods t := {|
  undo_ :=
    f ← self_fields;
    p ← on_world (gets (λ w, pos_of (flow_view w) (DrawingObject (drawing f))));
    set_fields (set_drawing_obj_pos p);;
    on_world (FlowView.remove_component (DrawingObject (drawing f)));;
    on_world (FlowView.select_items (_prev_selected f));
  redo_ :=
    f ← self_fields;
    on_world (FlowView.add_drawing (drawing f) (Some (drawing_obj_pos f)));;
    label ← (λ sw, (drawing_call f true, sw));
    setText label
|}.

End PlaceDrawingCommand.

(** ** [SelectComponentsCommand] *)

Module SelectComponentsCommand.

Record t := {
  items : list Item;
  prev_items : list Item
}.

Definition __init__ (new_items prev_items : list Item) : FlowUndoCommand t :=
  {| _activated := false;
     text := undo_text_multi new_items "Select" str;
     fields := {| items := new_items; prev_items := prev_items |} |}.

#[global] Instance methods : Methods t := {|
  redo_ := f ← self_fields; on_world (FlowView.select_items (items f));
  undo_ := f ← self_fields; on_world (FlowView.select_items (prev_items f))
|}.

End SelectComponentsCommand.

(** ** [RemoveComponentsCommand] *)

Module RemoveComponentsCommand.

Record t := {
  items : list Item;
  selection : list Item;
  silent : bool;
  broken_connections : gset ConnectionInfo;
  internal_connections : gset ConnectionInfo;
  node_items : list Item;
  nodes : list Node;
  drawings : list Drawing
}.

Definition as_node (i : Item) : option Node :=
  match i with NodeItem n => Some n | _ => None end.

Definition as_drawing (i : Item) : option Drawing :=
  match i with DrawingObject d => Some d | _ => None end.

Definition is_node_item (i : Item) : bool :=
  match i with NodeItem _ => true | _ => false end.

(** The two sets, as the loops of the constructor fill them. *)
Record Sets := {
  broken : gset ConnectionInfo;
  internal : gset ConnectionInfo
}.

Definition add_broken (c : ConnectionInfo) (s : Sets) : Sets :=
  {| broken := broken s ∪ {[c]}; internal := internal s |}.

Definition add_internal (c : ConnectionInfo) (s : Sets) : Sets :=
  {| broken := broken s; internal := internal s ∪ {[c]} |}.

(** [for i in self.items]: the connection items. *)
Definition scan_item (nodes : list Node) (s : Sets) (i : Item) : Sets :=
  match i with
  | ConnectionItem connection =>
      if decide (out_node (out_port connection) ∈ nodes) then s
      else add_broken connection s
  | _ => s
  end.

(** [for i in n._inputs] *)
Definition scan_input (f : Flow) (nodes : list Node) (s : Sets) (i : NodeInput) : Sets :=
  match Flow.connected_output f i with
  | Some cp =>
      if decide (out_node cp ∈ nodes) then add_internal (Flow.connection_info (cp, i)) s
      else add_broken (Flow.connection_info (cp, i)) s
  | None => s
  end.

(** [for o in n._outputs: for cp in n.flow.connected_inputs(o)] *)
Definition scan_output (f : Flow) (nodes : list Node) (s : Sets) (o : NodeOutput) : Sets :=
  foldl (λ s cp,
           if decide (inp_node cp ∈ nodes) then add_internal (Flow.connection_info (o, cp)) s
           else add_broken (Flow.connection_info (o, cp)) s)
        s (Flow.connected_inputs f o).

(** [for n in self.nodes] *)
Definition scan_node (f : Flow) (nodes : list Node) (s : Sets) (n : Node) : Sets :=
  let s := foldl (scan_input f nodes) s (default [] (_inputs f !! n)) in
  foldl (scan_output f nodes) s (default [] (_outputs f !! n)).

Definition scan (f : Flow) (items : list Item) (nodes : list Node) : Sets :=
  let s := foldl (scan_item nodes) {| broken := ∅; internal := ∅ |} items in
  foldl (scan_node f nodes) s nodes.

Definition __init__ (w : World) (items : list Item) (silent : bool) : FlowUndoCommand t :=
  let nodes := omap as_node items in
  let s := scan (flow w) items nodes in
  {| _activated := false;
     text := undo_text_multi items "Delete" str;
     fields := {| items := items;
                  selection := _current_selected (flow_view w);
                  silent := silent;
                  broken_connections := broken s;
                  internal_connections := internal s;
                  node_items := filter (λ i, is_node_item i = true) items;
                  nodes := nodes;
                  drawings := omap as_drawing items |} |}.

Definition restore_internal_connections : M (FlowUndoCommand t * World) unit :=
  f ← self_fields;
  on_world (for_ (elements (internal_connections f))
              (λ c, Flow.connect_from_info c (silent f))).

Definition remove_internal_connections : M (FlowUndoCommand t * World) unit :=
  f ← self_fields;
  on_world (for_ (elements (internal_connections f))
              (λ c, Flow.disconnect_from_info c (silent f))).

Definition restore_broken_connections : M (FlowUndoCommand t * World) unit :=
  f ← self_fields;
  on_world (for_ (elements (broken_connections f))
              (λ c, Flow.connect_from_info c (silent f))).

Definition remove_broken_connections : M (FlowUndoCommand t * World) unit :=
  f ← self_fields;
  on_world (for_ (elements (broken_connections f))
              (λ c, Flow.disconnect_from_info c (silent f))).

(** [n_i.node_gui._on_restored()] and [n_i.node_gui._on_deleted()] *)
Definition node_gui_hook (hook : Node → Event) (n_i : Item) : M World unit :=
  match n_i with
  | NodeItem n => emit (hook n)
  | _ => mret tt
  end.

#[global] Instance methods : Methods t := {|
  undo_ :=
    f ← self_fields;
    on_world (for_ (nodes f) Flow.add_node);;
    on_world (for_ (drawings f) (λ d, FlowView.add_drawing d None));;
    restore_broken_connections;;
    restore_internal_connections;;
    on_world (for_ (node_items f) (node_gui_hook _on_restored));;
    on_world (FlowView.select_items (selection f));
  redo_ :=
    f ← self_fields;
    remove_broken_connections;;
    remove_internal_connections;;
    on_world (for_ (nodes f) Flow.remove_node);;
    on_world (for_ (drawings f) FlowView.remove_drawing);;
    on_world (for_ (node_items f) (node_gui_hook _on_deleted))
|}.

End RemoveComponentsCommand.

(** ** [ConnectPortsCommand] *)

Module ConnectPortsCommand.

Record t := {
  silent : bool;
  out : NodeOutput;
  inp : NodeInput;
  connection_info : ConnectionInfo;
  connection : option (NodeOutput * NodeInput);
  connecting : bool
}.

Definition set_connection (c : option (NodeOutput * NodeInput)) (f : t) : t :=
  {| silent := silent f; out := out f; inp := inp f;
     connection_info := connection_info f; connection := c;
     connecting := connecting f |}.

(** [for i in flow_view.flow.connected_inputs(out): if i == self.inp: ...; break] *)
Fixpoint scan (l : list NodeInput) (f : t) : t :=
  match l with
  | [] => f
  | i :: l' =>
      if decide (i = inp f) then
        {| silent := silent f; out := out f; inp := inp f;
           connection_info := Flow.connection_info (out f, i);
           connection := Some (out f, i);
           connecting := false |}
      else scan l' f
  end.

Definition __init__ (w : World) (out : NodeOutput) (inp : NodeInput) (silent : bool)
    : FlowUndoCommand t :=
  __init__ (scan (Flow.connected_inputs (flow w) out)
              {| silent := silent; out := out; inp := inp;
                 connection_info := Flow.connection_info (out, inp);
                 connection := None;
                 connecting := true |}).

#[global] Instance methods : Methods t := {|
  undo_ :=
    f ← self_fields;
    if connecting f then
      on_world (Flow.disconnect_from_info (connection_info f) (silent f))
    else
      on_world (Flow.connect_from_info (connection_info f) (silent f));
  redo_ :=
    f ← self_fields;
    if connecting f then
      match connection f with
      | Some _ => on_world (Flow.connect_from_info (connection_info f) (silent f))
      | None =>
          c ← on_world (Flow.connect_ports (out f) (inp f) (silent f));
          set_fields (set_connection c)
      end;;
      setText "Connect nodes"
    else
      setText "Disconnect nodes";;
      on_world (Flow.disconnect_from_info (connection_info f) (silent f))
|}.

End ConnectPortsCommand.

(** ** [PasteCommand] *)

(** [d[key]] *)
Definition getitem (key : string) : M (gmap string Value) Value := λ d,
  match d !! key with
  | Some v => (Ok v, d)
  | None => (Raise (KeyError key), d)
  end.

(** [d[key] = v] *)
Definition setitem (key : string) (v : Value) : M (gmap string Value) unit :=
  modify <[key := v]>.

(** [v + x] for a coordinate [x]: a string cannot be added to a number. *)
Definition add_num {S} (v : Value) (x : Z) : M S Value :=
  match v with
  | VNum z => mret (VNum (z + x)%Z)
  | VStr _ => raise (TypeError "can only concatenate str (not float) to str")
  end.

(** A coordinate handed to [QPointF]. *)
Definition as_num {S} (v : Value) : M S Z :=
  match v with
  | VNum z => mret z
  | VStr _ => raise (TypeError "QPointF: argument has unexpected type str")
  end.

(** [for x in l: body], where [body] mutates the element [x] in place. *)
Fixpoint for_each {A} (body : M A unit) (l : list A) : Res unit * list A :=
  match l with
  | [] => (Ok tt, [])
  | x :: l' =>
      match body x with
      | (Ok _, x') => let (r, l'') := for_each body l' in (r, x' :: l'')
      | (Raise e, x') => (Raise e, x' :: l')
      end
  end.

(** Running a computation on the object a reference points to.  (Python has no
    reference to nothing: the [KeyError] stands for a [Ref] the heap does not
    hold.) *)
Definition deref {A} (r : Ref) (m : M PasteData A) : M World A := λ w,
  match heap w !! r with
  | Some d => let (res, d') := m d in (res, with_heap <[r := d']> w)
  | None => (Raise (KeyError "no such object"), w)
  end.

Definition is_empty {A} (l : list A) : bool :=
  match l with [] => true | _ => false end.

Module PasteCommand.

Record t := {
  data : Ref;
  nodes : list Node;
  connections : list (NodeOutput * NodeInput);
  drawings : list Drawing
}.

Definition set_components (ns : list Node) (cs : list (NodeOutput * NodeInput)) (f : t) : t :=
  {| data := data f; nodes := ns; connections := cs; drawings := drawings f |}.

Definition append_drawing (d : Drawing) (f : t) : t :=
  {| data := data f; nodes := nodes f; connections := connections f;
     drawings := drawings f ++ [d] |}.

(** The body of both loops of [modify_data_positions], on one descriptor. *)
Definition shift (offset : Pos) : M (gmap string Value) unit :=
  x ← getitem "pos x";
  x' ← add_num x offset.1;
  setitem "pos x" x';;
  y ← getitem "pos y";
  y' ← add_num y offset.2;
  setitem "pos y" y'.

Definition shift_node (offset : Pos) : M NodeData unit := λ nd,
  let (r, d') := shift offset (nd_dict nd) in
  (r, {| nd_dict := d'; nd_inputs := nd_inputs nd; nd_outputs := nd_outputs nd |}).

Definition shift_data (offset : Pos) : M PasteData unit := λ d,
  match for_each (shift_node offset) (data_nodes d) with
  | (Ok _, ns) =>
      let (r, ds) := for_each (shift offset) (data_drawings d) in
      (r, {| data_nodes := ns; data_connections := data_connections d;
             data_drawings := ds |})
  | (Raise e, ns) =>
      (Raise e, {| data_nodes := ns; data_connections := data_connections d;
                   data_drawings := data_drawings d |})
  end.

Definition modify_data_positions (offset : Pos) : M (FlowUndoCommand t * World) unit :=
  f ← self_fields;
  on_world (deref (data f) (shift_data offset)).

Definition __init__ (data : Ref) (offset_for_middle_pos : Pos) : M World (FlowUndoCommand t) :=
  λ w,
    let self := __init__ {| data := data; nodes := []; connections := []; drawings := [] |} in
    let (r, sw) := (modify_data_positions offset_for_middle_pos;; setText "Paste") (self, w) in
    match r with
    | Ok _ => (Ok sw.1, sw.2)
    | Raise e => (Raise e, sw.2)
    end.

Definition select_new_components_in_view : M (FlowUndoCommand t * World) unit :=
  f ← self_fields;
  on_world FlowView.clear_selection;;
  on_world (for_ (drawings f) (λ d, emit (setSelected (DrawingObject d))));;
  on_world (for_ (nodes f) (λ n, emit (setSelected (NodeItem n)))).

(** The body of the loop of [create_drawings]. *)
Definition create_drawings_body (d : gmap string Value) : M (FlowUndoCommand t * World) unit :=
  new_drawing ← on_world (FlowView.create_drawing d);
  x ← match d !! "pos x" with Some v => as_num v | None => raise (KeyError "pos x") end;
  y ← match d !! "pos y" with Some v => as_num v | None => raise (KeyError "pos y") end;
  on_world (FlowView.add_drawing new_drawing (Some (x, y)));;
  set_fields (append_drawing new_drawing).

Definition create_drawings : M (FlowUndoCommand t * World) unit :=
  f ← self_fields;
  ds ← on_world (deref (data f) (gets data_drawings));
  for_ ds create_drawings_body.

Definition add_existing_components : M (FlowUndoCommand t * World) unit :=
  f ← self_fields;
  on_world (for_ (nodes f) Flow.add_node);;
  on_world (for_ (connections f) (λ c, Flow.add_connection c false));;
  on_world (for_ (drawings f) (λ d, FlowView.add_drawing d None));;
  select_new_components_in_view.

#[global] Instance methods : Methods t := {|
  redo_ :=
    f ← self_fields;
    if is_empty (nodes f) && is_empty (connections f) && is_empty (drawings f) then
      create_drawings;;
      f ← self_fields;
      d ← on_world (deref (data f) (gets (λ d, (data_nodes d, data_connections d))));
      nc ← on_world (Flow.load_components d.1 d.2);
      set_fields (set_components nc.1 nc.2);;
      on_world (emit add_new_signal);;
      select_new_components_in_view
    else
      on_world (emit add_existing_signal);;
      add_existing_components;
  undo_ :=
    f ← self_fields;
    on_world (for_ (connections f) (λ c, Flow.remove_connection c false));;
    on_world (for_ (nodes f) Flow.remove_node);;
    on_world (for_ (drawings f) FlowView.remove_drawing)
|}.

End PasteCommand.

(** ** Port items ([ports/item.py]) *)

(** [is_connected(port)]; [port] may be [None], which has no [node]. *)
Definition is_connected (port : option NodePort) : M World bool :=
  match port with
  | Some (POutput o) =>
      gets (λ w, bool_decide (0 < length (Flow.connected_inputs (flow w) o)))
  | Some (PInput i) =>
      gets (λ w, bool_decide (Flow.connected_output (flow w) i ≠ None))
  | None => raise (AttributeError "'NoneType' object has no attribute 'node'")
  end.

(** [_port_list] is the node's own list ([node._inputs] or [node._outputs]),
    not a copy: it is read from the node each time. *)
Definition port_list (f : Flow) (node : Node) (is_input : bool) : list NodePort :=
  if is_input then PInput <$> default [] (_inputs f !! node)
  else POutput <$> default [] (_outputs f !! node).

Module PortItemPin.

Record t := {
  node : Node;
  _is_input : bool;
  port_index : nat;
  _state : PinState
}.

Definition set__state (s : PinState) (self : t) : t :=
  {| node := node self; _is_input := _is_input self; port_index := port_index self;
     _state := s |}.

Definition port (self : t) : M World (option NodePort) :=
  gets (λ w,
    let l := port_list (flow w) (node self) (_is_input self) in
    if length l <=? port_index self then None else l !! port_index self).

Definition state (self : t) : PinState := _state self.

Definition set_state (value : PinState) (protect_connection : bool) : M (t * World) unit :=
  self ← gets fst;
  p ← on_world (port self);
  c ← on_world (is_connected p);
  on_self (modify (set__state (if negb (c && protect_connection) then value else CONNECTED))).

(** The setter of the [state] property. *)
Definition state_setter (value : PinState) : M (t * World) unit :=
  set_state value true.

Definition paint : M (t * World) unit :=
  self ← gets fst;
  p ← on_world (port self);
  match p with
  | None => mret tt
  | Some p => on_world (emit (paint_PI p (_state self)))
  end.

End PortItemPin.

Module PortItem.

Record t := {
  node : Node;
  _is_input : bool;
  _port_index : nat;
  pin : PortItemPin.t
}.

Definition set_pin (p : PortItemPin.t) (self : t) : t :=
  {| node := node self; _is_input := _is_input self; _port_index := _port_index self;
     pin := p |}.

(** [index_of port l] is [l.index(port)]. *)
Fixpoint index_of (port : NodePort) (l : list NodePort) : option nat :=
  match l with
  | [] => None
  | x :: l' => if decide (x = port) then Some 0 else S <$> index_of port l'
  end.

(** The constructor: the pin shares the list and the index. *)
Definition __init__ (f : Flow) (node : Node) (port : NodePort) : option t :=
  let is_input := match port with PInput _ => true | POutput _ => false end in
  i ← index_of port (port_list f node is_input);
  Some {| node := node; _is_input := is_input; _port_index := i;
          pin := {| PortItemPin.node := node; PortItemPin._is_input := is_input;
                    PortItemPin.port_index := i; PortItemPin._state := DISCONNECTED |} |}.

Definition port (self : t) : M World (option NodePort) :=
  gets (λ w,
    let l := port_list (flow w) (node self) (_is_input self) in
    if length l <=? _port_index self then None else l !! _port_index self).

(** Running a method of the pin, a part of the port item. *)
Definition on_pin {A} (m : M (PortItemPin.t * World) A) : M (t * World) A := λ sw,
  let (r, pw) := m (pin sw.1, sw.2) in (r, (set_pin pw.1 sw.1, pw.2)).

Definition update : M (t * World) unit :=
  self ← gets fst;
  p ← on_world (port self);
  match p with
  | None => mret tt
  | Some p =>
      on_world (emit (setup_PI_label p (PortItemPin.state (pin self))));;
      on_world (emit QGraphicsWidget_update)
  end.

Definition port_connected : M (t * World) unit :=
  on_pin (PortItemPin.state_setter CONNECTED);;
  update.

Definition port_disconnected : M (t * World) unit :=
  on_pin (PortItemPin.state_setter DISCONNECTED);;
  update.

End PortItem.

(** ** Notions used to state the properties *)

(** Running a command's logic under the guard: the flag is set, the logic
    runs, and the flag is cleared when the logic returns. *)
Definition guarded {F} (logic : M (FlowUndoCommand F * World) unit)
    : M (FlowUndoCommand F * World) unit := λ sw,
  let (r, sw') := logic (sw.1, with_guard true sw.2) in
  match r with
  | Ok _ => (Ok tt, (sw'.1, with_guard false sw'.2))
  | Raise e => (Raise e, sw')
  end.

Definition mark_activated {F} (self : FlowUndoCommand F) : FlowUndoCommand F :=
  {| _activated := true; text := text self; fields := fields self |}.



(** [n] times [m]. *)
Fixpoint times {S} (n : nat) (m : M S unit) : M S unit :=
  match n with
  | 0 => mret tt
  | S n' => m;; times n' m
  end.

(** Sample states. *)
Definition empty_flow : Flow :=
  {| nodes := ∅; connections := ∅; _inputs := ∅; _outputs := ∅; next_node := 0 |}.

Definition empty_view : FlowView :=
  {| item_pos := ∅; scene_drawings := ∅; _current_selected := []; next_drawing := 0 |}.

Definition empty_world : World :=
  {| _any_cmd_active := false; stderr := []; flow := empty_flow; flow_view := empty_view;
     events := []; heap := ∅ |}.

(** A node class whose constructor raises. *)
Definition failing_class : NodeClass :=
  {| init_inputs := 0; init_outputs := 0; init_raises := Some (NodeInitError "init") |}.

(** A descriptor with numeric ['pos x'] and ['pos y'] entries. *)
Definition has_pos (d : gmap string Value) : bool :=
  match d !! "pos x", d !! "pos y" with
  | Some (VNum _), Some (VNum _) => true
  | _, _ => false
  end.

Definition data_has_pos (d : PasteData) : bool :=
  forallb (λ nd, has_pos (nd_dict nd)) (data_nodes d) && forallb has_pos (data_drawings d).

(** A descriptor, and the clipboard data, with the offset added to the
    positions. *)
Definition shifted (offset : Pos) (d : gmap string Value) : gmap string Value :=
  <["pos y" := VNum (num_or_0 (d !! "pos y") + offset.2)]>
    (<["pos x" := VNum (num_or_0 (d !! "pos x") + offset.1)]> d).

Definition shifted_node (offset : Pos) (nd : NodeData) : NodeData :=
  {| nd_dict := shifted offset (nd_dict nd); nd_inputs := nd_inputs nd;
     nd_outputs := nd_outputs nd |}.

Definition shifted_data (offset : Pos) (d : PasteData) : PasteData :=
  {| data_nodes := shifted_node offset <$> data_nodes d;
     data_connections := data_connections d;
     data_drawings := shifted offset <$> data_drawings d |}.

(** The paste command as its constructor leaves it. *)
Definition pasted (r : Ref) : FlowUndoCommand PasteCommand.t :=
  {| _activated := false; text := "Paste";
     fields := {| PasteCommand.data := r; PasteCommand.nodes := [];
                  PasteCommand.connections := []; PasteCommand.drawings := [] |} |}.

(** ** Well-formed flows *)

(** The ports in a node's lists are the node's own. *)
Definition ports_owned (f : Flow) : Prop :=
  map_Forall (λ n l, Forall (λ i, inp_node i = n) l) (_inputs f) ∧
  map_Forall (λ n l, Forall (λ o, out_node o = n) l) (_outputs f).

(** The two ports of an edge are in the port lists of their nodes. *)
Definition ports_listed (f : Flow) : Prop :=
  set_Forall (λ c : NodeOutput * NodeInput,
                c.1 ∈ default [] (_outputs f !! out_node c.1) ∧
                c.2 ∈ default [] (_inputs f !! inp_node c.2)) (connections f).

(** An input is connected from one output at most ([connected_output] gives
    one or [None]). *)
Definition single_source (f : Flow) : Prop :=
  set_Forall (λ c1 : NodeOutput * NodeInput,
    set_Forall (λ c2 : NodeOutput * NodeInput, c1.2 = c2.2 → c1.1 = c2.1) (connections f))
    (connections f).

Definition flow_wf (f : Flow) : Prop := ports_owned f ∧ ports_listed f ∧ single_source f.

(** The loops of [RemoveComponentsCommand]'s constructor only add to the two
    sets ([sets_le]), and what they add is classified by the end nodes
    ([sets_sound]). *)
Definition sets_le (s s' : RemoveComponentsCommand.Sets) : Prop :=
  RemoveComponentsCommand.broken s ⊆ RemoveComponentsCommand.broken s' ∧
  RemoveComponentsCommand.internal s ⊆ RemoveComponentsCommand.internal s'.

Definition sets_sound (N : list Node) (s : RemoveComponentsCommand.Sets) : Prop :=
  (∀ c, c ∈ RemoveComponentsCommand.internal s →
        out_node (out_port c) ∈ N ∧ inp_node (inp_port c) ∈ N) ∧
  (∀ c, c ∈ RemoveComponentsCommand.broken s →
        out_node (out_port c) ∉ N ∨ inp_node (inp_port c) ∉ N).

(** ** The graph a command acts on *)

(** What the inverse law compares: the nodes, the connections (as pairs of end
    ports), the drawings on the scene and the positions of the items. *)
Record Graph := {
  g_nodes : gset Node;
  g_connections : gset (NodeOutput * NodeInput);
  g_drawings : gset Drawing;
  g_pos : gmap Item Pos
}.

Definition graph_of (w : World) : Graph :=
  {| g_nodes := nodes (flow w); g_connections := connections (flow w);
     g_drawings := scene_drawings (flow_view w); g_pos := item_pos (flow_view w) |}.

(** The inverse law of a command constructed as [cmd] in world [w]: after its
    activation, any number of [undo_(); redo_()] leaves the graph as the
    activation left it. *)
Definition inverse_law {F} `{!Methods F} (cmd : FlowUndoCommand F) (w : World) : Prop :=
  ∀ n,
    let activated := (activate false (cmd, w)).2 in
    graph_of (times n (undo_;; redo_) activated).2.2 = graph_of activated.2.

(** Closed forms of the loops of the commands. *)
Definition with_events (es : list Event) (w : World) : World :=
  {| _any_cmd_active := _any_cmd_active w; stderr := stderr w; flow := flow w;
     flow_view := flow_view w; events := events w ++ es; heap := heap w |}.

Definition edges (l : list ConnectionInfo) : gset (NodeOutput * NodeInput) :=
  list_to_set (Flow.edge <$> l).

Definition notified (silent : bool) (e : ConnectionInfo → Event) (l : list ConnectionInfo)
    : list Event :=
  if silent then [] else e <$> l.

Definition hooks (hook : Node → Event) (l : list Item) : list Event :=
  omap (λ i, hook <$> RemoveComponentsCommand.as_node i) l.

(** The state a [RemoveComponentsCommand] leaves after [redo_]: none of its
    components is in the graph. *)
Definition components_removed (self : FlowUndoCommand RemoveComponentsCommand.t)
    (w : World) : Prop :=
  nodes (flow w) ## list_to_set (RemoveComponentsCommand.nodes (fields self)) ∧
  connections (flow w)
    ## edges (elements (RemoveComponentsCommand.broken_connections (fields self))) ∧
  connections (flow w)
    ## edges (elements (RemoveComponentsCommand.internal_connections (fields self))) ∧
  scene_drawings (flow_view w)
    ## list_to_set (RemoveComponentsCommand.drawings (fields self)).

(** ** States the commands leave after [redo_] *)

(** Where an [undo_(); redo_()] of a move command leaves an item that stood
    at [y]: [undo_] sets a new item group, standing at the origin, to [p_from],
    and [redo_] sets another to [p_to - p_from].  The sums and differences are
    the ones the code computes, written out as it computes them. *)
Definition cycle_displaced (p_from p_to y : Pos) : Pos :=
  padd (padd y (psub p_from origin)) (psub (psub p_to p_from) origin).

(** The state of a move command whose cycles bring its items back: the items
    have their positions set, and at each of these positions the two
    displacements of a cycle cancel. *)
Definition moved (self : FlowUndoCommand MoveComponentsCommand.t) (w : World) : Prop :=
  ∀ it, it ∈ MoveComponentsCommand.items_list (fields self) →
        is_Some (item_pos (flow_view w) !! it) ∧
        cycle_displaced (MoveComponentsCommand.p_from (fields self))
          (MoveComponentsCommand.p_to (fields self)) (pos_of (flow_view w) it)
        = pos_of (flow_view w) it.

(** After [PlaceNodeCommand.redo_]: the node is in the flow, or there is none
    because its class cannot be instantiated. *)
Definition node_placed_or_failing (self : FlowUndoCommand PlaceNodeCommand.t) (w : World)
    : Prop :=
  match PlaceNodeCommand.node (fields self) with
  | Some n => n ∈ nodes (flow w)
  | None => is_Some (init_raises (PlaceNodeCommand.node_class (fields self)))
  end.

(** After [PlaceDrawingCommand.redo_]: the drawing is on the scene, at a set
    position. *)
Definition drawing_placed (self : FlowUndoCommand PlaceDrawingCommand.t) (w : World)
    : Prop :=
  PlaceDrawingCommand.drawing (fields self) ∈ scene_drawings (flow_view w) ∧
  is_Some (item_pos (flow_view w) !! DrawingObject (PlaceDrawingCommand.drawing (fields self))).

(** After [redo_]: the connection is there in connecting mode, and gone in
    disconnecting mode. *)
Definition toggled (self : FlowUndoCommand ConnectPortsCommand.t) (w : World) : Prop :=
  let e := Flow.edge (ConnectPortsCommand.connection_info (fields self)) in
  if ConnectPortsCommand.connecting (fields self)
  then ConnectPortsCommand.connection (fields self) ≠ None ∧ e ∈ connections (flow w)
  else e ∉ connections (flow w).

(** The graph with one edge more, and with one edge less. *)
Definition connect_graph (e : NodeOutput * NodeInput) (w : World) : Graph :=
  {| g_nodes := nodes (flow w); g_connections := connections (flow w) ∪ {[e]};
     g_drawings := scene_drawings (flow_view w); g_pos := item_pos (flow_view w) |}.

Definition disconnect_graph (e : NodeOutput * NodeInput) (w : World) : Graph :=
  {| g_nodes := nodes (flow w); g_connections := connections (flow w) ∖ {[e]};
     g_drawings := scene_drawings (flow_view w); g_pos := item_pos (flow_view w) |}.

(** What the cycles of a paste command keep: its instance lists, the graph,
    the next free node and drawing identities, and the heap. *)
Definition paste_obs (s : FlowUndoCommand PasteCommand.t * World)
    : PasteCommand.t * Graph * Node * Drawing * gmap Ref PasteData :=
  (fields s.1, graph_of s.2, next_node (flow s.2), next_drawing (flow_view s.2), heap s.2).

(** The state a paste command leaves after [redo_]: its instances are in the
    graph, one node and one drawing per descriptor of its data. *)
Definition materialized (self : FlowUndoCommand PasteCommand.t) (w : World) : Prop :=
  let f := fields self in
  (∃ d, heap w !! PasteCommand.data f = Some d ∧
        length (data_drawings d) = length (PasteCommand.drawings f) ∧
        length (data_nodes d) = length (PasteCommand.nodes f)) ∧
  (PasteCommand.nodes f = [] → PasteCommand.connections f = []) ∧
  list_to_set (PasteCommand.nodes f) ⊆ nodes (flow w) ∧
  list_to_set (PasteCommand.connections f) ⊆ connections (flow w) ∧
  list_to_set (PasteCommand.drawings f) ⊆ scene_drawings (flow_view w).

(** ** Sample states *)

(** The scenario of the specification: nodes A, B and C (0, 1 and 2), each
    with one input and one output, and the connections A to B and B to C. *)
Definition out0 (n : Node) : NodeOutput := {| out_node := n; out_id := 0 |}.
Definition inp0 (n : Node) : NodeInput := {| inp_node := n; inp_id := 0 |}.

Definition abc_flow : Flow :=
  {| nodes := {[0; 1; 2]};
     connections := {[(out0 0, inp0 1); (out0 1, inp0 2)]};
     _inputs := {[0 := [inp0 0]; 1 := [inp0 1]; 2 := [inp0 2]]};
     _outputs := {[0 := [out0 0]; 1 := [out0 1]; 2 := [out0 2]]};
     next_node := 3 |}.

Definition abc_world : World :=
  {| _any_cmd_active := false; stderr := []; flow := abc_flow; flow_view := empty_view;
     events := []; heap := ∅ |}.

(** Clipboard data: two nodes, a connection between them and one drawing. *)
Definition at_pos (x y : Z) : gmap string Value :=
  {["pos x" := VNum x; "pos y" := VNum y]}.

Definition sample_data : PasteData :=
  {| data_nodes := [ {| nd_dict := at_pos 0 0; nd_inputs := 1; nd_outputs := 1 |};
                     {| nd_dict := at_pos 100 0; nd_inputs := 1; nd_outputs := 1 |} ];
     data_connections := [ {| parent_node_index := 0; output_port_index := 0;
                              connected_node := 1; connected_input_port_index := 0 |} ];
     data_drawings := [ at_pos 5 5 ] |}.

Definition clipboard_world : World :=
  {| _any_cmd_active := false; stderr := []; flow := abc_flow; flow_view := empty_view;
     events := []; heap := {[7 := sample_data]} |}.

(** The scenario after node B lost its ports, and the item of B's input. *)
Definition restructured_world : World :=
  with_flow (λ f, {| nodes := nodes f; connections := connections f;
                     _inputs := <[1 := []]> (_inputs f);
                     _outputs := <[1 := []]> (_outputs f);
                     next_node := next_node f |}) abc_world.

Definition port_item_B : PortItem.t :=
  {| PortItem.node := 1; PortItem._is_input := true; PortItem._port_index := 0;
     PortItem.pin := {| PortItemPin.node := 1; PortItemPin._is_input := true;
                        PortItemPin.port_index := 0; PortItemPin._state := DISCONNECTED |} |}.


#[global] Instance flow_wf_dec (f : Flow) : Decision (flow_wf f).
Proof. unfold flow_wf, ports_owned, ports_listed, single_source. apply _. Defined.

(** ** Further notions *)

(** Where the connections the constructor of [RemoveComponentsCommand] records
    come from: a selected connection item, or a live connection found at a
    port of one of the nodes to remove. *)
Definition sets_origin (f : Flow) (items : list Item) (N : list Node)
    (s : RemoveComponentsCommand.Sets) : Prop :=
  ∀ c, c ∈ RemoveComponentsCommand.broken s ∨ c ∈ RemoveComponentsCommand.internal s →
    ConnectionItem c ∈ items ∨
    (Flow.edge c ∈ connections f ∧
     ∃ n, n ∈ N ∧ (inp_port c ∈ default [] (_inputs f !! n) ∨
                   out_port c ∈ default [] (_outputs f !! n))).

(** ** More of [ports/item.py] *)

Module item.

(** [connections(port)]: the connections at a port, as [ConnectionInfo]s.
    [port] may be [None], which has no [node].  For an input the source looks
    [connected_output] up a second time to build the pair; the flow is the
    same, and so is the output.  (A [NodeOutput] is true in [if conn_out].) *)
Definition connections (port : option NodePort) : M World (list ConnectionInfo) :=
  match port with
  | Some (POutput o) =>
      gets (λ w, (λ i, Flow.connection_info (o, i)) <$> Flow.connected_inputs (flow w) o)
  | Some (PInput i) =>
      conn_out ← gets (λ w, Flow.connected_output (flow w) i);
      match conn_out with
      | Some o => mret [Flow.connection_info (o, i)]
      | None => mret []
      end
  | None => raise (AttributeError "'NoneType' object has no attribute 'node'")
  end.

(** [val(port)]: the value at a port: an output's own, an input's that of the
    output connected to it, or [None]. *)
Definition val {V} (val_of : NodeOutput → option V) (port : option NodePort)
    : M World (option V) :=
  match port with
  | Some (POutput o) => mret (val_of o)
  | Some (PInput i) =>
      conn_out ← gets (λ w, Flow.connected_output (flow w) i);
      match conn_out with
      | Some o => mret (val_of o)
      | None => mret None
      end
  | None => raise (AttributeError "'NoneType' object has no attribute 'node'")
  end.

End item.

(** [InputPortItem]: a port item with an input widget, or with none.  Of the
    widget, the port item drives whether it is enabled. *)
Module InputPortItem.

Record Widget := { enabled : bool }.

Record t := {
  base : PortItem.t;
  widget : option Widget
}.

(** Running a method of the base class ([super()]). *)
Definition on_base {A} (m : M (PortItem.t * World) A) : M (t * World) A := λ sw,
  let (r, bw) := m (base sw.1, sw.2) in
  (r, ({| base := bw.1; widget := widget sw.1 |}, bw.2)).

(** [if self.widget: self.widget.setEnabled(b)] *)
Definition widget_setEnabled (b : bool) : M (t * World) unit :=
  self ← gets fst;
  match widget self with
  | Some _ =>
      modify (λ sw, ({| base := base sw.1; widget := Some {| enabled := b |} |}, sw.2))
  | None => mret tt
  end.

Definition port_connected : M (t * World) unit :=
  widget_setEnabled false;;
  on_base PortItem.port_connected.

Definition port_disconnected : M (t * World) unit :=
  widget_setEnabled true;;
  on_base PortItem.port_disconnected.

End InputPortItem.

(** The pin of a port item reads the same list at the same index as the item
    (the constructor of the item hands both to the pin). *)
Definition shares_port (self : PortItem.t) : Prop :=
  PortItemPin.node (PortItem.pin self) = PortItem.node self ∧
  PortItemPin._is_input (PortItem.pin self) = PortItem._is_input self ∧
  PortItemPin.port_index (PortItem.pin self) = PortItem._port_index self.

(** Whether a port is an input ([isinstance(port, NodeInput)]). *)
Definition is_NodeInput (port : NodePort) : bool :=
  match port with PInput _ => true | POutput _ => false end.

(** The state a pin takes when its port is disconnected. *)
Definition state_after_disconnect (still_connected : bool) : PinState :=
  if still_connected then CONNECTED else DISCONNECTED.

(** ** Hovering a pin *)

(** What the hover handlers of a pin read and write beside the flow: the pin,
    its [hovered] flag and tool tip, the view's [connection_items] (of each
    connection item, whether it is highlighted) and the calls that reach the
    handlers of the base class ([True] for enter, [False] for leave).

    The values of the outputs ([port.val]), the kind of a port ([port.type_])
    and [create_tooltip] are not part of these files: the handlers are given
    over them. *)
Module PinHover.

Record t := {
  pin : PortItemPin.t;
  hovered : bool;
  toolTip : string;
  connection_items : gmap ConnectionInfo bool;
  QGraphicsWidget_hover : list bool
}.

Definition set_toolTip (s : string) (self : t) : t :=
  {| pin := pin self; hovered := hovered self; toolTip := s;
     connection_items := connection_items self;
     QGraphicsWidget_hover := QGraphicsWidget_hover self |}.

Definition set_hovered (b : bool) (self : t) : t :=
  {| pin := pin self; hovered := b; toolTip := toolTip self;
     connection_items := connection_items self;
     QGraphicsWidget_hover := QGraphicsWidget_hover self |}.

Definition set_connection_items (m : gmap ConnectionInfo bool) (self : t) : t :=
  {| pin := pin self; hovered := hovered self; toolTip := toolTip self;
     connection_items := m; QGraphicsWidget_hover := QGraphicsWidget_hover self |}.

Definition base_handler (enter : bool) (self : t) : t :=
  {| pin := pin self; hovered := hovered self; toolTip := toolTip self;
     connection_items := connection_items self;
     QGraphicsWidget_hover := QGraphicsWidget_hover self ++ [enter] |}.

(** [self.port], the property of the pin. *)
Definition port : M (t * World) (option NodePort) :=
  self ← gets fst;
  on_world (PortItemPin.port (pin self)).

(** [items[c].set_highlighted(b)]: a connection without an item is a
    [KeyError]. *)
Definition set_highlighted (c : ConnectionInfo) (b : bool) : M (t * World) unit := λ sw,
  match connection_items sw.1 !! c with
  | Some _ => (Ok tt, (set_connection_items (<[c := b]> (connection_items sw.1)) sw.1, sw.2))
  | None => (Raise (KeyError "ConnectionInfo"), sw)
  end.

Section Handlers.
Context {V : Type}.
Variables (val_of : NodeOutput → option V) (type_ : NodePort → string)
  (create_tooltip : option V → string).

Definition hoverEnterEvent : M (t * World) unit :=
  p ← port;
  ty ← match p with
       | Some p => mret (type_ p)
       | None => raise (AttributeError "'NoneType' object has no attribute 'type_'")
       end;
  (if decide (ty = "data") then
     p ← port;
     v ← on_world (item.val val_of p);
     on_self (modify (set_toolTip (create_tooltip v)))
   else mret tt);;
  p ← port;
  cs ← on_world (item.connections p);
  for_ cs (λ c, set_highlighted c true);;
  on_self (modify (set_hovered true));;
  on_self (modify (base_handler true)).

Definition hoverLeaveEvent : M (t * World) unit :=
  p ← port;
  cs ← on_world (item.connections p);
  for_ cs (λ c, set_highlighted c false);;
  on_self (modify (set_hovered false));;
  on_self (modify (base_handler false)).

End Handlers.

End PinHover.

(** The connection items with the flag of the items of [l] set to [b]. *)
Definition highlight (l : list ConnectionInfo) (b : bool) (m : gmap ConnectionInfo bool)
    : gmap ConnectionInfo bool :=
  foldl (λ m c, <[c := b]> m) m l.

(** * Properties *)

Ltac msimpl :=
  unfold mbind, M_bind, mret, M_ret, gets, modify, raise, try_except, on_world, on_self,
    set_any_cmd_active, set_activated, setText, set_fields, self_fields, emit,
    InfoMsgs.write_err, traceback.print_exc in *;
  cbn in *.

(** ** The guard of [redo()] and [undo()] *)

Section Guard.
Context {F : Type} `{!Methods F}.
Implicit Types (self : FlowUndoCommand F) (w : World).

(** While the guard is set, [redo()] runs nothing; it writes its diagnostic
    if the command is activated. *)
Lemma redo_rejected self w :
  _any_cmd_active w = true →
  redo (self, w) =
    (Ok tt, (self, if _activated self then with_stderr (write_err redo_msg) w else w)).
Proof.
  intros Hg. unfold redo. msimpl.
  destruct (_activated self); cbn; [|done]. by rewrite Hg.
Qed.

Lemma undo_rejected self w :
  _any_cmd_active w = true →
  undo (self, w) = (Ok tt, (self, with_stderr (write_err undo_msg) w)).
Proof. intros Hg. unfold undo. msimpl. by rewrite Hg. Qed.

Lemma redo_runs self w :
  _activated self = true → _any_cmd_active w = false →
  redo (self, w) = guarded redo_ (self, w).
Proof.
  intros Ha Hg. unfold redo, guarded. msimpl. rewrite Ha. cbn. by rewrite Hg.
Qed.

Lemma undo_runs self w :
  _any_cmd_active w = false →
  undo (self, w) = guarded undo_ (self, w).
Proof. intros Hg. unfold undo, guarded. msimpl. by rewrite Hg. Qed.

Lemma redo_not_activated self w :
  _activated self = false → redo (self, w) = (Ok tt, (self, w)).
Proof. intros Ha. unfold redo. msimpl. by rewrite Ha. Qed.

Lemma guarded_returns logic self w self' w' :
  logic (self, with_guard true w) = (Ok tt, (self', w')) →
  guarded logic (self, w) = (Ok tt, (self', with_guard false w')).
Proof. unfold guarded. cbn. by intros ->. Qed.

Lemma guarded_raises logic self w e self' w' :
  logic (self, with_guard true w) = (Raise e, (self', w')) →
  guarded logic (self, w) = (Raise e, (self', w')).
Proof. unfold guarded. cbn. by intros ->. Qed.

(** C3, as amended: when [redo()] or [undo()] passes the reentrancy check
    and the concrete [redo_()] or [undo_()] logic it invokes returns
    normally, the call returns in the state the logic left, with the shared
    guard flag [_any_cmd_active] False again. *)
Theorem C3_guard_released_on_return self w :
  _any_cmd_active w = false →
  (∀ self' w',
     _activated self = true →
     redo_ (self, with_guard true w) = (Ok tt, (self', w')) →
     redo (self, w) = (Ok tt, (self', with_guard false w')) ∧
     _any_cmd_active (redo (self, w)).2.2 = false) ∧
  (∀ self' w',
     undo_ (self, with_guard true w) = (Ok tt, (self', w')) →
     undo (self, w) = (Ok tt, (self', with_guard false w')) ∧
     _any_cmd_active (undo (self, w)).2.2 = false).
Proof.
  intros Hg. split.
  - intros self' w' Ha Hr. rewrite redo_runs by done.
    by rewrite (guarded_returns _ _ _ _ _ Hr).
  - intros self' w' Hu. rewrite undo_runs by done.
    by rewrite (guarded_returns _ _ _ _ _ Hu).
Qed.

(** C7, as amended: on a command that has not been activated, [redo()]
    executes nothing and leaves the state as it is; [activate(silent=True)]
    only marks the command; [activate(silent=False)] marks it and, when no
    other command is active, runs the forward logic under the guard at
    once.  ([undo()] does not look at the activation.) *)
Theorem C7_activation self w :
  _activated self = false →
  redo (self, w) = (Ok tt, (self, w)) ∧
  activate true (self, w) = (Ok tt, (mark_activated self, w)) ∧
  (_any_cmd_active w = false →
   activate false (self, w) = guarded redo_ (mark_activated self, w)).
Proof.
  intros Ha. split; [by apply redo_not_activated|]. split.
  - unfold activate. msimpl. done.
  - intros Hg. unfold activate, redo, guarded. msimpl. by rewrite Hg.
Qed.

End Guard.

Section Reentrancy.
Context {Fi : Type} `{!Methods Fi}.


End Reentrancy.

Lemma C3_witness :
  let cmd := mark_activated (SelectComponentsCommand.__init__ [NodeItem 1] []) in
  (redo (cmd, empty_world)
     = (Ok tt, (cmd, with_guard false
                       (with_view (view_selected [NodeItem 1]) (with_guard true empty_world))))
   ∧ _any_cmd_active (redo (cmd, empty_world)).2.2 = false)
  ∧ (undo (cmd, empty_world)
       = (Ok tt, (cmd, with_guard false
                         (with_view (view_selected []) (with_guard true empty_world))))
     ∧ _any_cmd_active (undo (cmd, empty_world)).2.2 = false).
Proof.
  pose (cmd := mark_activated (SelectComponentsCommand.__init__ [NodeItem 1] [])).
  split.
  - exact (proj1 (C3_guard_released_on_return cmd empty_world eq_refl) _ _ eq_refl eq_refl).
  - exact (proj2 (C3_guard_released_on_return cmd empty_world eq_refl) _ _ eq_refl).
Defined.

(** C3, as stated, fails: the node class's constructor raises inside
    [PlaceNodeCommand.redo_], [redo()] passes the exception on, and the guard
    flag is still True on exit. *)
Lemma C3_guard_stuck_after_exception :
  let cmd := mark_activated (PlaceNodeCommand.__init__ empty_view failing_class origin) in
  _any_cmd_active empty_world = false ∧
  redo (cmd, empty_world)
    = (Raise (NodeInitError "init"),
       (cmd, with_stderr (print_exc (NodeInitError "init")) (with_guard true empty_world))) ∧
  _any_cmd_active (redo (cmd, empty_world)).2.2 = true.
Proof. repeat split. Qed.



Lemma C7_witness :
  let cmd := SelectComponentsCommand.__init__ [NodeItem 1] [] in
  redo (cmd, empty_world) = (Ok tt, (cmd, empty_world)) ∧
  activate true (cmd, empty_world) = (Ok tt, (mark_activated cmd, empty_world)) ∧
  activate false (cmd, empty_world)
    = (Ok tt, (mark_activated cmd, with_view (view_selected [NodeItem 1]) empty_world)).
Proof.
  pose (cmd := SelectComponentsCommand.__init__ [NodeItem 1] []).
  destruct (C7_activation cmd empty_world eq_refl) as (H1 & H2 & H3).
  split; [exact H1|]. split; [exact H2|]. exact (H3 eq_refl).
Defined.

(** C7, as stated, fails for [undo()]: a move command that was never
    activated still runs its [undo_] and moves the item. *)
Lemma C7_undo_runs_unactivated :
  let cmd := MoveComponentsCommand.__init__ [NodeItem 0] (5, 5)%Z origin in
  _activated cmd = false ∧
  pos_of (flow_view empty_world) (NodeItem 0) = origin ∧
  returns (undo (cmd, empty_world)) = true ∧
  pos_of (flow_view (undo (cmd, empty_world)).2.2) (NodeItem 0) = (5, 5)%Z.
Proof. repeat split. Qed.

(** ** [PlaceNodeCommand.redo_]: failures of the flow *)

Section PlaceNode.
Import PlaceNodeCommand.
Variable add_node : Node → M World unit.
Variable create_node : NodeClass → M World Node.
Implicit Types (self : FlowUndoCommand PlaceNodeCommand.t) (w : World).

Lemma redo_with_raise self w e w' :
  flow_operation add_node create_node self w = (Raise e, w') →
  redo_with add_node create_node (self, w)
    = (Raise e, (self, with_stderr (print_exc e) w')).
Proof.
  unfold flow_operation, redo_with. msimpl. intros H.
  destruct (node (fields self)) as [n|]; cbn in *.
  - destruct (add_node n w) as [[[]|e'] w'']; simplify_eq; done.
  - rewrite H. cbn. by destruct self.
Qed.

Lemma redo_with_return self w n w' :
  flow_operation add_node create_node self w = (Ok n, w') →
  redo_with add_node create_node (self, w)
    = (Ok tt, (placed n self, with_event (node_placed n) w')).
Proof.
  unfold flow_operation, redo_with, placed, node_placed_emit, on_node_placed. msimpl.
  intros H. destruct (node (fields self)) as [m|] eqn:Hn; cbn in *.
  - destruct (add_node m w) as [[[]|e'] w'']; simplify_eq. cbn.
    unfold set_node. destruct self as [a tx [c nd p s]]; cbn in *. by subst.
  - rewrite H. cbn. done.
Qed.

(** C8: when the flow's operation inside [redo_] (re-adding the node, or
    creating it) raises, [redo_] prints the traceback of that exception and
    raises the same exception; when the operation returns, so does
    [redo_].  So [redo_] raises if and only if the operation raised. *)
Theorem C8_place_node_failure self w :
  (∀ e w', flow_operation add_node create_node self w = (Raise e, w') →
           redo_with add_node create_node (self, w)
             = (Raise e, (self, with_stderr (print_exc e) w'))) ∧
  (∀ n w', flow_operation add_node create_node self w = (Ok n, w') →
           redo_with add_node create_node (self, w)
             = (Ok tt, (placed n self, with_event (node_placed n) w'))) ∧
  returns (redo_with add_node create_node (self, w)) = returns (flow_operation add_node create_node self w).
Proof.
  split; [by intros; apply redo_with_raise|].
  split; [by intros; apply redo_with_return|].
  destruct (flow_operation add_node create_node self w) as [[n|e] w'] eqn:H.
  - by rewrite (redo_with_return _ _ _ _ H).
  - by rewrite (redo_with_raise _ _ _ _ H).
Qed.

End PlaceNode.

Lemma place_node_redo_ :
  redo_ = PlaceNodeCommand.redo_with Flow.add_node Flow.create_node.
Proof. reflexivity. Qed.

(** ** Port items whose port is gone *)

Section MissingPort.
Implicit Types (w : World) (value : PinState).

Lemma PortItem_port_missing (self : PortItem.t) w :
  length (port_list (flow w) (PortItem.node self) (PortItem._is_input self))
    ≤ PortItem._port_index self →
  PortItem.port self w = (Ok None, w).
Proof.
  intros H. unfold PortItem.port. msimpl.
  by rewrite (proj2 (Nat.leb_le _ _) H).
Qed.

Lemma PortItemPin_port_missing (pin : PortItemPin.t) w :
  length (port_list (flow w) (PortItemPin.node pin) (PortItemPin._is_input pin))
    ≤ PortItemPin.port_index pin →
  PortItemPin.port pin w = (Ok None, w).
Proof.
  intros H. unfold PortItemPin.port. msimpl.
  by rewrite (proj2 (Nat.leb_le _ _) H).
Qed.

Lemma PortItem_update_missing (self : PortItem.t) w :
  length (port_list (flow w) (PortItem.node self) (PortItem._is_input self))
    ≤ PortItem._port_index self →
  PortItem.update (self, w) = (Ok tt, (self, w)).
Proof.
  intros H. unfold PortItem.update, PortItem.port. msimpl.
  by rewrite (proj2 (Nat.leb_le _ _) H).
Qed.

Lemma PortItemPin_paint_missing (pin : PortItemPin.t) w :
  length (port_list (flow w) (PortItemPin.node pin) (PortItemPin._is_input pin))
    ≤ PortItemPin.port_index pin →
  PortItemPin.paint (pin, w) = (Ok tt, (pin, w)).
Proof.
  intros H. unfold PortItemPin.paint, PortItemPin.port. msimpl.
  by rewrite (proj2 (Nat.leb_le _ _) H).
Qed.

Lemma PortItemPin_set_state_missing (pin : PortItemPin.t) w value protect_connection :
  length (port_list (flow w) (PortItemPin.node pin) (PortItemPin._is_input pin))
    ≤ PortItemPin.port_index pin →
  PortItemPin.set_state value protect_connection (pin, w)
    = (Raise (AttributeError "'NoneType' object has no attribute 'node'"), (pin, w)).
Proof.
  intros H. unfold PortItemPin.set_state, PortItemPin.port. msimpl.
  by rewrite (proj2 (Nat.leb_le _ _) H).
Qed.

Lemma PortItem_init_pin f node port (self : PortItem.t) :
  PortItem.__init__ f node port = Some self →
  PortItemPin.node (PortItem.pin self) = PortItem.node self ∧
  PortItemPin._is_input (PortItem.pin self) = PortItem._is_input self ∧
  PortItemPin.port_index (PortItem.pin self) = PortItem._port_index self.
Proof.
  unfold PortItem.__init__. intros H.
  destruct (PortItem.index_of _ _); simplify_eq/=. done.
Qed.

(** C9: for a port item built for a port of a node, and its pin, once the
    node's port list has become too short for the recorded index: [port] is
    [None], and [PortItem.update] and [PortItemPin.paint] return without
    effect; but the pin-state setters ([set_state], the [state] setter, and
    with it [port_connected] and [port_disconnected]) raise
    [AttributeError], where the claim has them return without effect. *)
Theorem C9_missing_port f node port (self : PortItem.t) w value protect_connection :
  PortItem.__init__ f node port = Some self →
  length (port_list (flow w) (PortItem.node self) (PortItem._is_input self))
    ≤ PortItem._port_index self →
  let none_has_no_node := AttributeError "'NoneType' object has no attribute 'node'" in
  PortItem.port self w = (Ok None, w) ∧
  PortItemPin.port (PortItem.pin self) w = (Ok None, w) ∧
  PortItem.update (self, w) = (Ok tt, (self, w)) ∧
  PortItemPin.paint (PortItem.pin self, w) = (Ok tt, (PortItem.pin self, w)) ∧
  PortItemPin.set_state value protect_connection (PortItem.pin self, w)
    = (Raise none_has_no_node, (PortItem.pin self, w)) ∧
  PortItemPin.state_setter value (PortItem.pin self, w)
    = (Raise none_has_no_node, (PortItem.pin self, w)) ∧
  PortItem.port_connected (self, w) = (Raise none_has_no_node, (self, w)) ∧
  PortItem.port_disconnected (self, w) = (Raise none_has_no_node, (self, w)).
Proof.
  intros Hinit Hlen none_has_no_node.
  destruct (PortItem_init_pin _ _ _ _ Hinit) as (Hn & Hi & Hx).
  assert (Hpin : length (port_list (flow w) (PortItemPin.node (PortItem.pin self))
                           (PortItemPin._is_input (PortItem.pin self)))
                 ≤ PortItemPin.port_index (PortItem.pin self))
    by (by rewrite Hn, Hi, Hx).
  split; [by apply PortItem_port_missing|].
  split; [by apply PortItemPin_port_missing|].
  split; [by apply PortItem_update_missing|].
  split; [by apply PortItemPin_paint_missing|].
  split; [by apply PortItemPin_set_state_missing|].
  split; [by apply PortItemPin_set_state_missing|].
  split.
  - unfold PortItem.port_connected, PortItem.on_pin, PortItemPin.state_setter. msimpl.
    rewrite (PortItemPin_set_state_missing _ _ _ _ Hpin). cbn.
    by destruct self.
  - unfold PortItem.port_disconnected, PortItem.on_pin, PortItemPin.state_setter. msimpl.
    rewrite (PortItemPin_set_state_missing _ _ _ _ Hpin). cbn.
    by destruct self.
Qed.

End MissingPort.

(** ** [ConnectPortsCommand]: the toggle *)

Lemma gset_add_remove `{Countable A} (X : gset A) (x : A) :
  x ∉ X → (X ∪ {[x]}) ∖ {[x]} = X.
Proof.
  intros Hx. apply set_eq. intros y.
  rewrite elem_of_difference, elem_of_union, elem_of_singleton.
  split; [intros [[?|?] ?]; done|]. intros Hy. split; [by left|]. by intros ->.
Qed.

Lemma elem_of_connected_inputs (f : Flow) (o : NodeOutput) (i : NodeInput) :
  i ∈ Flow.connected_inputs f o ↔ (o, i) ∈ connections f.
Proof.
  unfold Flow.connected_inputs. rewrite list_elem_of_fmap. split.
  - intros ([o' i'] & -> & H). apply list_elem_of_filter in H as [Heq H].
    cbn in *. subst. by apply elem_of_elements in H.
  - intros H. exists (o, i). split; [done|].
    apply list_elem_of_filter. split; [done|]. by apply elem_of_elements.
Qed.

Section ConnectPorts.
Import ConnectPortsCommand.
Implicit Types (f : t) (self : FlowUndoCommand t) (w : World).

Lemma connect_scan_found l f :
  inp f ∈ l →
  scan l f = {| silent := silent f; out := out f; inp := inp f;
                connection_info := Flow.connection_info (out f, inp f);
                connection := Some (out f, inp f); connecting := false |}.
Proof.
  induction l as [|i l IH]; intros H; [by apply elem_of_nil in H|].
  cbn. destruct (decide (i = inp f)) as [->|Hne]; [done|].
  apply elem_of_cons in H as [Heq|H]; [congruence|]. by apply IH.
Qed.

Lemma connect_scan_not_found l f : inp f ∉ l → scan l f = f.
Proof.
  induction l as [|i l IH]; intros H; [done|].
  cbn. apply not_elem_of_cons in H as [Hne H].
  destruct (decide (i = inp f)); [congruence|]. by apply IH.
Qed.

Lemma init_connecting w o i s :
  connecting (fields (__init__ w o i s)) = bool_decide ((o, i) ∉ connections (flow w)).
Proof.
  unfold __init__. cbn.
  destruct (decide ((o, i) ∈ connections (flow w))) as [H|H].
  - rewrite connect_scan_found by (by apply elem_of_connected_inputs).
    cbn. by rewrite bool_decide_eq_false_2 by (by intros ?).
  - rewrite connect_scan_not_found by (by rewrite elem_of_connected_inputs).
    cbn. by rewrite bool_decide_eq_true_2.
Qed.

Lemma redo__connecting self w :
  connecting (fields (redo_ (self, w)).2.1) = connecting (fields self).
Proof.
  cbn. msimpl. destruct (connecting (fields self)) eqn:Hc; cbn.
  - destruct (connection (fields self)); cbn.
    + unfold Flow.connect_from_info, Flow.add_connection. msimpl.
      destruct (silent (fields self)); cbn; done.
    + unfold Flow.connect_ports, Flow.add_connection. msimpl.
      destruct (silent (fields self)); cbn; done.
  - unfold Flow.disconnect_from_info, Flow.remove_connection. msimpl.
    destruct (silent (fields self)); cbn; done.
Qed.

Lemma undo__connecting self w :
  connecting (fields (undo_ (self, w)).2.1) = connecting (fields self).
Proof.
  cbn. msimpl. destruct (connecting (fields self)) eqn:Hc; cbn.
  - unfold Flow.disconnect_from_info, Flow.remove_connection. msimpl.
    destruct (silent (fields self)); cbn; done.
  - unfold Flow.connect_from_info, Flow.add_connection. msimpl.
    destruct (silent (fields self)); cbn; done.
Qed.

Lemma redo__connects w o i s :
  (o, i) ∉ connections (flow w) →
  let r := redo_ (__init__ w o i s, w) in
  returns r = true ∧
  connections (flow r.2.2) = connections (flow w) ∪ {[(o, i)]}.
Proof.
  intros H. cbn. unfold __init__. 
  rewrite connect_scan_not_found by (by rewrite elem_of_connected_inputs).
  msimpl. unfold Flow.connect_ports, Flow.add_connection. msimpl.
  destruct s; cbn; done.
Qed.

Lemma redo__disconnects w o i s :
  (o, i) ∈ connections (flow w) →
  let r := redo_ (__init__ w o i s, w) in
  returns r = true ∧
  connections (flow r.2.2) = connections (flow w) ∖ {[(o, i)]}.
Proof.
  intros H. cbn. unfold __init__.
  rewrite connect_scan_found by (by apply elem_of_connected_inputs).
  msimpl. unfold Flow.disconnect_from_info, Flow.remove_connection. msimpl.
  destruct s; cbn; done.
Qed.

(** C5: a [ConnectPortsCommand] built while [inp] is not connected from
    [out] is in connecting mode and its [redo_] creates the connection; one
    built afterwards on the same pair, while the connection exists, is in
    disconnecting mode and its [redo_] removes the connection, leaving the
    connections as they were at first.  The mode is what the scan of
    [out]'s connected inputs finds at construction, and [redo_] does not
    change it. *)
Theorem C5_connect_toggle w o i s :
  (o, i) ∉ connections (flow w) →
  let c1 := __init__ w o i s in
  let r1 := redo_ (c1, w) in
  let w1 := r1.2.2 in
  let c2 := __init__ w1 o i s in
  let r2 := redo_ (c2, w1) in
  connecting (fields c1) = bool_decide (i ∉ Flow.connected_inputs (flow w) o) ∧
  connecting (fields c1) = true ∧
  returns r1 = true ∧
  connections (flow w1) = connections (flow w) ∪ {[(o, i)]} ∧
  connecting (fields r1.2.1) = true ∧
  connecting (fields c2) = bool_decide (i ∉ Flow.connected_inputs (flow w1) o) ∧
  connecting (fields c2) = false ∧
  returns r2 = true ∧
  connections (flow r2.2.2) = connections (flow w) ∧
  connecting (fields r2.2.1) = false.
Proof.
  intros H c1 r1 w1 c2 r2.
  assert (Hc1 : connecting (fields c1) = true).
  { subst c1. rewrite init_connecting. by apply bool_decide_eq_true_2. }
  destruct (redo__connects w o i s H) as [Hr1 Hw1]. fold c1 r1 w1 in Hr1, Hw1.
  assert (Hin : (o, i) ∈ connections (flow w1))
    by (rewrite Hw1; apply elem_of_union_r; by apply elem_of_singleton).
  assert (Hc2 : connecting (fields c2) = false).
  { subst c2. rewrite init_connecting. apply bool_decide_eq_false_2. by intros ?. }
  destruct (redo__disconnects w1 o i s Hin) as [Hr2 Hw2]. fold c2 r2 in Hr2, Hw2.
  repeat split; try done.
  - subst c1. rewrite init_connecting. apply bool_decide_ext.
    by rewrite elem_of_connected_inputs.
  - subst r1. by rewrite redo__connecting.
  - subst c2. rewrite init_connecting. apply bool_decide_ext.
    by rewrite elem_of_connected_inputs.
  - rewrite Hw2, Hw1. by apply gset_add_remove.
  - subst r2. by rewrite redo__connecting.
Qed.
End ConnectPorts.

(** ** [PasteCommand]: the clipboard data is shifted in place *)

Section PasteShift.
Import PasteCommand.
Implicit Types (d : gmap string Value) (offset : Pos).

Lemma shift_has_pos offset d :
  has_pos d = true → shift offset d = (Ok tt, shifted offset d).
Proof.
  unfold has_pos, shift, shifted, getitem, setitem, add_num. intros H. msimpl.
  destruct (d !! "pos x") as [[x|]|] eqn:Hx; try done.
  destruct (d !! "pos y") as [[y|]|] eqn:Hy; try done.
  cbn. rewrite lookup_insert_ne by done. rewrite Hy. done.
Qed.

Lemma shifted_has_pos offset d : has_pos (shifted offset d) = true.
Proof.
  unfold has_pos, shifted.
  rewrite lookup_insert_ne by done. rewrite lookup_insert_eq.
  by rewrite lookup_insert_eq.
Qed.

Lemma for_each_shift offset (l : list (gmap string Value)) :
  forallb has_pos l = true →
  for_each (shift offset) l = (Ok tt, shifted offset <$> l).
Proof.
  induction l as [|d l IH]; [done|]. cbn. intros [Hd Hl]%andb_prop.
  rewrite shift_has_pos by done. by rewrite IH.
Qed.

Lemma for_each_shift_node offset (l : list NodeData) :
  forallb (λ nd, has_pos (nd_dict nd)) l = true →
  for_each (shift_node offset) l = (Ok tt, shifted_node offset <$> l).
Proof.
  induction l as [|d l IH]; [done|]. cbn. intros [Hd Hl]%andb_prop.
  unfold shift_node at 1. rewrite shift_has_pos by done. by rewrite IH.
Qed.

Lemma shift_data_has_pos offset (d : PasteData) :
  data_has_pos d = true → shift_data offset d = (Ok tt, shifted_data offset d).
Proof.
  unfold data_has_pos, shift_data. intros [Hn Hd]%andb_prop.
  rewrite for_each_shift_node by done. by rewrite for_each_shift.
Qed.

Lemma shifted_data_has_pos offset (d : PasteData) :
  data_has_pos (shifted_data offset d) = true.
Proof.
  unfold data_has_pos, shifted_data. cbn. apply andb_true_intro. split.
  - apply forallb_forall. intros nd [nd' [<- _]]%in_map_iff. apply shifted_has_pos.
  - apply forallb_forall. intros nd [nd' [<- _]]%in_map_iff. apply shifted_has_pos.
Qed.

Lemma init_shifts (w : World) (r : Ref) (d : PasteData) offset :
  heap w !! r = Some d → data_has_pos d = true →
  __init__ r offset w = (Ok (pasted r), with_heap <[r := shifted_data offset d]> w).
Proof.
  intros Hr Hd. unfold __init__, modify_data_positions, deref. msimpl.
  rewrite Hr. rewrite shift_data_has_pos by done. done.
Qed.

Lemma shifted_lookup offset d x y :
  d !! "pos x" = Some (VNum x) → d !! "pos y" = Some (VNum y) →
  shifted offset d !! "pos x" = Some (VNum (x + offset.1)) ∧
  shifted offset d !! "pos y" = Some (VNum (y + offset.2)) ∧
  ∀ key, key ≠ "pos x" → key ≠ "pos y" → shifted offset d !! key = d !! key.
Proof.
  intros Hx Hy. unfold shifted. rewrite Hx, Hy. cbn. split; [|split].
  - rewrite lookup_insert_ne by done. by rewrite lookup_insert_eq.
  - by rewrite lookup_insert_eq.
  - intros key H1 H2. by rewrite !lookup_insert_ne by done.
Qed.

(** C10: constructing a [PasteCommand] adds the offset to the ['pos x'] and
    ['pos y'] entries of every node and drawing descriptor of the dictionary
    the caller passed: the command holds the caller's reference, not a
    copy, and the dictionary on the heap is the one shifted.  A second
    command constructed from the same dictionary shifts it again. *)
Theorem C10_paste_shifts_callers_data (w : World) (r : Ref) (d : PasteData)
    offset offset' :
  heap w !! r = Some d → data_has_pos d = true →
  let w1 := with_heap <[r := shifted_data offset d]> w in
  let w2 := with_heap <[r := shifted_data offset' (shifted_data offset d)]> w1 in
  __init__ r offset w = (Ok (pasted r), w1) ∧
  data (fields (pasted r)) = r ∧
  heap w1 !! r = Some (shifted_data offset d) ∧
  __init__ r offset' w1 = (Ok (pasted r), w2) ∧
  heap w2 !! r = Some (shifted_data offset' (shifted_data offset d)).
Proof.
  intros Hr Hd w1 w2.
  assert (H1 : heap w1 !! r = Some (shifted_data offset d))
    by (subst w1; cbn; apply lookup_insert_eq).
  split; [by apply init_shifts|]. split; [done|]. split; [done|]. split.
  - apply init_shifts; [done|]. apply shifted_data_has_pos.
  - subst w2. cbn. apply lookup_insert_eq.
Qed.

End PasteShift.

(** ** [RemoveComponentsCommand]: internal and broken connections *)

Lemma connected_output_Some (f : Flow) (i : NodeInput) (o : NodeOutput) :
  Flow.connected_output f i = Some o → (o, i) ∈ connections f.
Proof.
  unfold Flow.connected_output. intros H.
  apply head_Some_elem_of in H. apply list_elem_of_fmap in H as ([o' i'] & -> & H).
  apply list_elem_of_filter in H as [Heq H]. cbn in *. subst.
  by apply elem_of_elements.
Qed.

Lemma connected_output_is_Some (f : Flow) (i : NodeInput) (o : NodeOutput) :
  (o, i) ∈ connections f → is_Some (Flow.connected_output f i).
Proof.
  unfold Flow.connected_output. intros H.
  assert (Hin : o ∈ (filter (λ c, c.2 = i) (elements (connections f))).*1).
  { apply list_elem_of_fmap. exists (o, i). split; [done|].
    apply list_elem_of_filter. split; [done|]. by apply elem_of_elements. }
  destruct (filter _ _).*1 as [|x l]; [by apply elem_of_nil in Hin|]. by eexists.
Qed.

Lemma connected_output_single (f : Flow) (i : NodeInput) (o : NodeOutput) :
  single_source f → (o, i) ∈ connections f → Flow.connected_output f i = Some o.
Proof.
  intros Hs H. destruct (connected_output_is_Some _ _ _ H) as [o' Ho'].
  rewrite Ho'. f_equal. apply connected_output_Some in Ho'.
  exact (Hs _ Ho' _ H eq_refl).
Qed.

Section RemoveScan.
Import RemoveComponentsCommand.
Variables (f : Flow) (N : list Node).
Implicit Types (s : Sets) (c : ConnectionInfo).

Lemma sets_le_refl s : sets_le s s.
Proof. by split. Qed.

Lemma sets_le_trans s1 s2 s3 : sets_le s1 s2 → sets_le s2 s3 → sets_le s1 s3.
Proof. intros [? ?] [? ?]. split; by etrans. Qed.

Lemma sets_le_add_broken c s : sets_le s (add_broken c s).
Proof. split; cbn; [apply union_subseteq_l|done]. Qed.

Lemma sets_le_add_internal c s : sets_le s (add_internal c s).
Proof. split; cbn; [done|apply union_subseteq_l]. Qed.

Lemma foldl_le {A} (step : Sets → A → Sets) (l : list A) s :
  (∀ s x, sets_le s (step s x)) → sets_le s (foldl step s l).
Proof.
  intros Hstep. revert s. induction l as [|x l IH]; intros s; [apply sets_le_refl|].
  cbn. eapply sets_le_trans; [apply Hstep|apply IH].
Qed.

Lemma foldl_reach {A} (step : Sets → A → Sets) (Q : Sets → Prop) (l : list A) x s :
  (∀ s s', sets_le s s' → Q s → Q s') →
  (∀ s y, sets_le s (step s y)) →
  (∀ s, Q (step s x)) →
  x ∈ l → Q (foldl step s l).
Proof.
  intros Hup Hstep Hx. revert s. induction l as [|y l IH]; intros s Hin.
  - by apply elem_of_nil in Hin.
  - cbn. apply elem_of_cons in Hin as [->|Hin]; [|by apply IH].
    eapply Hup; [apply foldl_le, Hstep|apply Hx].
Qed.

Lemma foldl_inv {A} (step : Sets → A → Sets) (I : Sets → Prop) (R : A → Prop)
    (l : list A) s :
  (∀ s y, R y → I s → I (step s y)) → Forall R l → I s → I (foldl step s l).
Proof.
  intros Hstep Hl. revert s. induction Hl as [|y l Hy Hl IH]; intros s Hs; [done|].
  cbn. apply IH. by apply Hstep.
Qed.

(** Every step of the constructor's loops only adds to the sets. *)
Lemma scan_item_le s i : sets_le s (scan_item N s i).
Proof.
  destruct i as [| |c]; cbn; try apply sets_le_refl.
  case_decide; [apply sets_le_refl|apply sets_le_add_broken].
Qed.

Lemma scan_input_le s i : sets_le s (scan_input f N s i).
Proof.
  unfold scan_input. destruct (Flow.connected_output f i); [|apply sets_le_refl].
  case_decide; [apply sets_le_add_internal|apply sets_le_add_broken].
Qed.

Lemma scan_output_le s o : sets_le s (scan_output f N s o).
Proof.
  unfold scan_output. apply foldl_le. intros s' cp.
  case_decide; [apply sets_le_add_internal|apply sets_le_add_broken].
Qed.

Lemma scan_node_le s n : sets_le s (scan_node f N s n).
Proof.
  unfold scan_node. eapply sets_le_trans; [|apply foldl_le, scan_output_le].
  apply foldl_le, scan_input_le.
Qed.

(** What each loop records. *)
Lemma scan_output_records s o cp :
  cp ∈ Flow.connected_inputs f o →
  let c := Flow.connection_info (o, cp) in
  if decide (inp_node cp ∈ N) then c ∈ internal (scan_output f N s o)
  else c ∈ broken (scan_output f N s o).
Proof.
  intros Hcp c. unfold scan_output.
  destruct (decide (inp_node cp ∈ N)) as [Hn|Hn].
  - apply (foldl_reach _ (λ s, c ∈ internal s) _ cp); [| | |done].
    + intros s1 s2 [_ H]. apply H.
    + intros s' y. case_decide; [apply sets_le_add_internal|apply sets_le_add_broken].
    + intros s'. rewrite decide_True by done. cbn.
      apply elem_of_union_r. by apply elem_of_singleton.
  - apply (foldl_reach _ (λ s, c ∈ broken s) _ cp); [| | |done].
    + intros s1 s2 [H _]. apply H.
    + intros s' y. case_decide; [apply sets_le_add_internal|apply sets_le_add_broken].
    + intros s'. rewrite decide_False by done. cbn.
      apply elem_of_union_r. by apply elem_of_singleton.
Qed.

Lemma scan_input_records s i cp :
  Flow.connected_output f i = Some cp →
  let c := Flow.connection_info (cp, i) in
  if decide (out_node cp ∈ N) then c ∈ internal (scan_input f N s i)
  else c ∈ broken (scan_input f N s i).
Proof.
  intros Hcp c. unfold scan_input. rewrite Hcp.
  case_decide; cbn; apply elem_of_union_r; by apply elem_of_singleton.
Qed.

Lemma scan_node_records_output s n o cp :
  o ∈ default [] (_outputs f !! n) → cp ∈ Flow.connected_inputs f o →
  let c := Flow.connection_info (o, cp) in
  if decide (inp_node cp ∈ N) then c ∈ internal (scan_node f N s n)
  else c ∈ broken (scan_node f N s n).
Proof.
  intros Ho Hcp c. unfold scan_node.
  pose proof (scan_output_records) as Hrec.
  destruct (decide (inp_node cp ∈ N)) as [Hn|Hn].
  - apply (foldl_reach _ (λ s, c ∈ internal s) _ o); [| | |done].
    + intros s1 s2 [_ H]. apply H.
    + apply scan_output_le.
    + intros s'. specialize (Hrec s' o cp Hcp). cbn in Hrec.
      by rewrite decide_True in Hrec by done.
  - apply (foldl_reach _ (λ s, c ∈ broken s) _ o); [| | |done].
    + intros s1 s2 [H _]. apply H.
    + apply scan_output_le.
    + intros s'. specialize (Hrec s' o cp Hcp). cbn in Hrec.
      by rewrite decide_False in Hrec by done.
Qed.

Lemma scan_node_records_input s n i cp :
  i ∈ default [] (_inputs f !! n) → Flow.connected_output f i = Some cp →
  let c := Flow.connection_info (cp, i) in
  if decide (out_node cp ∈ N) then c ∈ internal (scan_node f N s n)
  else c ∈ broken (scan_node f N s n).
Proof.
  intros Hi Hcp c. unfold scan_node.
  pose proof (scan_input_records) as Hrec.
  pose proof (foldl_le (scan_output f N) (default [] (_outputs f !! n))
                (foldl (scan_input f N) s (default [] (_inputs f !! n)))
                scan_output_le) as [Hb Hi'].
  destruct (decide (out_node cp ∈ N)) as [Hn|Hn].
  - apply Hi'.
    apply (foldl_reach _ (λ s, c ∈ internal s) _ i); [| | |done].
    + intros s1 s2 [_ H]. apply H.
    + apply scan_input_le.
    + intros s'. specialize (Hrec s' i cp Hcp). cbn in Hrec.
      by rewrite decide_True in Hrec by done.
  - apply Hb.
    apply (foldl_reach _ (λ s, c ∈ broken s) _ i); [| | |done].
    + intros s1 s2 [H _]. apply H.
    + apply scan_input_le.
    + intros s'. specialize (Hrec s' i cp Hcp). cbn in Hrec.
      by rewrite decide_False in Hrec by done.
Qed.

(** What is in the sets: an internal connection has both end nodes among
    the removed nodes, a broken one has an end node outside. *)
Lemma sound_add_internal c s :
  out_node (out_port c) ∈ N → inp_node (inp_port c) ∈ N → sets_sound N s →
  sets_sound N (add_internal c s).
Proof.
  intros Ho Hi [Hint Hbrk]. split; [|done]. cbn. intros c' Hc'.
  apply elem_of_union in Hc' as [Hc'|Hc']; [by apply Hint|].
  apply elem_of_singleton in Hc'. by subst.
Qed.

Lemma sound_add_broken c s :
  out_node (out_port c) ∉ N ∨ inp_node (inp_port c) ∉ N → sets_sound N s →
  sets_sound N (add_broken c s).
Proof.
  intros Hc [Hint Hbrk]. split; [done|]. cbn. intros c' Hc'.
  apply elem_of_union in Hc' as [Hc'|Hc']; [by apply Hbrk|].
  apply elem_of_singleton in Hc'. by subst.
Qed.

Lemma scan_item_sound s i : sets_sound N s → sets_sound N (scan_item N s i).
Proof.
  intros Hs. destruct i as [| |c]; cbn; try done.
  case_decide; [done|]. apply sound_add_broken; [by left|done].
Qed.

Lemma scan_input_sound s i :
  inp_node i ∈ N → sets_sound N s → sets_sound N (scan_input f N s i).
Proof.
  intros Hi Hs. unfold scan_input. destruct (Flow.connected_output f i); [|done].
  case_decide; [by apply sound_add_internal|apply sound_add_broken; [by left|done]].
Qed.

Lemma scan_output_sound s o :
  out_node o ∈ N → sets_sound N s → sets_sound N (scan_output f N s o).
Proof.
  intros Ho Hs. unfold scan_output.
  apply (foldl_inv _ (sets_sound N) (λ _, True)); [|by apply Forall_true|done].
  intros s' cp _ Hs'.
  case_decide; [by apply sound_add_internal|apply sound_add_broken; [by right|done]].
Qed.

Lemma scan_node_sound s n :
  ports_owned f → n ∈ N → sets_sound N s → sets_sound N (scan_node f N s n).
Proof.
  intros [Hin Hout] Hn Hs. unfold scan_node.
  apply (foldl_inv _ (sets_sound N) (λ o, out_node o = n)).
  - intros s' o Ho. apply scan_output_sound. by rewrite Ho.
  - destruct (_outputs f !! n) as [l|] eqn:Hl; [|by apply Forall_nil].
    exact (Hout n l Hl).
  - apply (foldl_inv _ (sets_sound N) (λ i, inp_node i = n)); [| |done].
    + intros s' i Hi. apply scan_input_sound. by rewrite Hi.
    + destruct (_inputs f !! n) as [l|] eqn:Hl; [|by apply Forall_nil].
      exact (Hin n l Hl).
Qed.

Lemma scan_sound items : ports_owned f → sets_sound N (scan f items N).
Proof.
  intros Hwf. unfold scan.
  apply (foldl_inv _ (sets_sound N) (λ n, n ∈ N)).
  - intros s n Hn. by apply scan_node_sound.
  - by apply Forall_forall.
  - apply (foldl_inv _ (sets_sound N) (λ _, True)); [|by apply Forall_true|].
    + intros s i _. apply scan_item_sound.
    + split; intros c Hc; by apply not_elem_of_empty in Hc.
Qed.

Lemma scan_records_node items n c :
  n ∈ N →
  (∀ s, c ∈ internal (scan_node f N s n)) → c ∈ internal (scan f items N).
Proof.
  intros Hn Hc. unfold scan.
  apply (foldl_reach _ (λ s, c ∈ internal s) _ n); [| | |done].
  - intros s1 s2 [_ H]. apply H.
  - apply scan_node_le.
  - done.
Qed.

Lemma scan_records_node_broken items n c :
  n ∈ N →
  (∀ s, c ∈ broken (scan_node f N s n)) → c ∈ broken (scan f items N).
Proof.
  intros Hn Hc. unfold scan.
  apply (foldl_reach _ (λ s, c ∈ broken s) _ n); [| | |done].
  - intros s1 s2 [H _]. apply H.
  - apply scan_node_le.
  - done.
Qed.

Lemma scan_records_item items c :
  ConnectionItem c ∈ items → out_node (out_port c) ∉ N → c ∈ broken (scan f items N).
Proof.
  intros Hc Hout. unfold scan.
  pose proof (foldl_le (scan_node f N) N
                (foldl (scan_item N) {| broken := ∅; internal := ∅ |} items)
                scan_node_le) as [Hb _].
  apply Hb.
  apply (foldl_reach _ (λ s, c ∈ broken s) _ (ConnectionItem c)); [| | |done].
  - intros s1 s2 [H _]. apply H.
  - apply scan_item_le.
  - intros s. cbn. rewrite decide_False by done. cbn.
    apply elem_of_union_r. by apply elem_of_singleton.
Qed.
End RemoveScan.

Section RemovePartition.
Import RemoveComponentsCommand.

(** C2: for the node set [N] of the removed node items and the live
    connections at construction time (of a well-formed flow), every
    connection with both end nodes in [N] is in the internal set, every
    connection with exactly one end node in [N] is in the broken set, the
    two sets are disjoint and hold each connection once, and the
    connection of every selected connection item whose source node is
    outside [N] is in the broken set. *)
Theorem C2_remove_partition (w : World) (items : list Item) (silent : bool) :
  flow_wf (flow w) →
  let cmd := fields (__init__ w items silent) in
  let N := nodes cmd in
  N = omap as_node items ∧
  (∀ o i, (o, i) ∈ connections (flow w) →
          out_node o ∈ N → inp_node i ∈ N →
          Flow.connection_info (o, i) ∈ internal_connections cmd) ∧
  (∀ o i, (o, i) ∈ connections (flow w) →
          (out_node o ∈ N ∧ inp_node i ∉ N) ∨ ((out_node o ∉ N) ∧ inp_node i ∈ N) →
          Flow.connection_info (o, i) ∈ broken_connections cmd) ∧
  (internal_connections cmd ## broken_connections cmd) ∧
  NoDup (elements (internal_connections cmd)) ∧
  NoDup (elements (broken_connections cmd)) ∧
  (∀ c, ConnectionItem c ∈ items → out_node (out_port c) ∉ N →
        c ∈ broken_connections cmd).
Proof.
  intros (Howned & Hlisted & Hsingle) cmd N. subst cmd N. cbn.
  set (N := omap as_node items).
  split; [done|]. split; [|split; [|split; [|split; [|split]]]].
  - intros o i Hc Ho Hi.
    destruct (Hlisted _ Hc) as [Hol _]. cbn in Hol.
    apply (scan_records_node _ _ _ (out_node o)); [done|]. intros s.
    pose proof (scan_node_records_output (flow w) N s (out_node o) o i Hol) as H.
    rewrite elem_of_connected_inputs in H. specialize (H Hc). cbn in H.
    by rewrite decide_True in H by done.
  - intros o i Hc [[Ho Hi]|[Ho Hi]].
    + destruct (Hlisted _ Hc) as [Hol _]. cbn in Hol.
      apply (scan_records_node_broken _ _ _ (out_node o)); [done|]. intros s.
      pose proof (scan_node_records_output (flow w) N s (out_node o) o i Hol) as H.
      rewrite elem_of_connected_inputs in H. specialize (H Hc). cbn in H.
      by rewrite decide_False in H by done.
    + destruct (Hlisted _ Hc) as [_ Hil]. cbn in Hil.
      apply (scan_records_node_broken _ _ _ (inp_node i)); [done|]. intros s.
      pose proof (scan_node_records_input (flow w) N s (inp_node i) i o Hil
                    (connected_output_single _ _ _ Hsingle Hc)) as H.
      cbn in H. by rewrite decide_False in H by done.
  - destruct (scan_sound (flow w) N items Howned) as [Hint Hbrk].
    apply elem_of_disjoint. intros c Hi Hb.
    destruct (Hint c Hi) as [? ?]. by destruct (Hbrk c Hb).
  - apply NoDup_elements.
  - apply NoDup_elements.
  - intros c Hc Ho. by apply scan_records_item.
Qed.
End RemovePartition.

(** ** The inverse law *)

Ltac mstep :=
  unfold self_fields, set_fields, setText, set_activated, set_any_cmd_active;
  unfold mbind, M_bind, mret, M_ret, on_world, on_self;
  unfold gets, modify;
  cbn [fst snd].

Lemma times_invariant {S G} (cyc : M S unit) (Inv : S → Prop) (π : S → G) :
  (∀ s, Inv s → π (cyc s).2 = π s ∧ (returns (cyc s) = true → Inv (cyc s).2)) →
  ∀ n s, Inv s → π (times n cyc s).2 = π s.
Proof.
  intros Hc n. induction n as [|n IH]; intros s Hs; [done|].
  cbn. unfold mbind, M_bind. destruct (Hc s Hs) as [Hπ Hinv].
  destruct (cyc s) as [[[]|e] s'] eqn:E; cbn in *; [|done].
  rewrite IH by (by apply Hinv). done.
Qed.

Lemma world_eq (w w' : World) :
  _any_cmd_active w = _any_cmd_active w' → stderr w = stderr w' →
  nodes (flow w) = nodes (flow w') → connections (flow w) = connections (flow w') →
  _inputs (flow w) = _inputs (flow w') → _outputs (flow w) = _outputs (flow w') →
  next_node (flow w) = next_node (flow w') →
  flow_view w = flow_view w' → events w = events w' → heap w = heap w' → w = w'.
Proof.
  destruct w as [? ? [] ? ? ?], w' as [? ? [] ? ? ?]. cbn. by intros; subst.
Qed.

Lemma view_eq (v v' : FlowView) :
  item_pos v = item_pos v' → scene_drawings v = scene_drawings v' →
  _current_selected v = _current_selected v' → next_drawing v = next_drawing v' → v = v'.
Proof. destruct v, v'. cbn. by intros; subst. Qed.

Lemma for__closed {S A} (body : A → M S unit) (u : A → S → S) (U : list A → S → S)
    (l : list A) (s : S) :
  (∀ x s, body x s = (Ok tt, u x s)) →
  (∀ s, U [] s = s) →
  (∀ x l s, U l (u x s) = U (x :: l) s) →
  for_ l body s = (Ok tt, U l s).
Proof.
  intros Hb Hnil Hcons. revert s. induction l as [|x l IH]; intros s.
  - cbn. unfold mret, M_ret. by rewrite Hnil.
  - cbn. unfold mbind, M_bind. by rewrite Hb, IH, Hcons.
Qed.

Ltac set_tauto := set_unfold; intros; tauto.

Lemma for_add_node l w :
  for_ l Flow.add_node w
  = (Ok tt, with_flow (flow_nodes (λ s, s ∪ list_to_set l)) w).
Proof.
  apply (for__closed _ (λ n, with_flow (flow_nodes (λ s, s ∪ {[n]})))
           (λ l, with_flow (flow_nodes (λ s, s ∪ list_to_set l)))); [done| |].
  - intros w'. apply world_eq; cbn; try done. set_tauto.
  - intros n l' w'. apply world_eq; cbn; try done. set_tauto.
Qed.

Lemma for_remove_node l w :
  for_ l Flow.remove_node w
  = (Ok tt, with_flow (flow_nodes (λ s, s ∖ list_to_set l)) w).
Proof.
  apply (for__closed _ (λ n, with_flow (flow_nodes (λ s, s ∖ {[n]})))
           (λ l, with_flow (flow_nodes (λ s, s ∖ list_to_set l)))); [done| |].
  - intros w'. apply world_eq; cbn; try done. set_tauto.
  - intros n l' w'. apply world_eq; cbn; try done. set_tauto.
Qed.

Lemma for_add_drawing l w :
  for_ l (λ d, FlowView.add_drawing d None) w
  = (Ok tt, with_view (view_drawings (λ s, s ∪ list_to_set l)) w).
Proof.
  apply (for__closed _ (λ d, with_view (view_drawings (λ s, s ∪ {[d]})))
           (λ l, with_view (view_drawings (λ s, s ∪ list_to_set l)))); [done| |].
  - intros w'. apply world_eq; cbn; try done. apply view_eq; cbn; try done. set_tauto.
  - intros n l' w'. apply world_eq; cbn; try done. apply view_eq; cbn; try done. set_tauto.
Qed.

Lemma for_remove_drawing l w :
  for_ l FlowView.remove_drawing w
  = (Ok tt, with_view (view_drawings (λ s, s ∖ list_to_set l)) w).
Proof.
  apply (for__closed _ (λ d, with_view (view_drawings (λ s, s ∖ {[d]})))
           (λ l, with_view (view_drawings (λ s, s ∖ list_to_set l)))); [done| |].
  - intros w'. apply world_eq; cbn; try done. apply view_eq; cbn; try done. set_tauto.
  - intros n l' w'. apply world_eq; cbn; try done. apply view_eq; cbn; try done. set_tauto.
Qed.

Lemma for_emit {A} (e : A → Event) l w :
  for_ l (λ x, emit (e x)) w = (Ok tt, with_events (e <$> l) w).
Proof.
  apply (for__closed _ (λ x, with_event (e x)) (λ l, with_events (e <$> l))); [done| |].
  - intros w'. apply world_eq; cbn; try done. by rewrite app_nil_r.
  - intros n l' w'. apply world_eq; cbn; try done. by rewrite <- app_assoc.
Qed.

Lemma for_add_connection l silent w :
  for_ l (λ c, Flow.add_connection c silent) w
  = (Ok tt, with_events (notified silent connection_added (Flow.connection_info <$> l))
              (with_flow (flow_connections (λ s, s ∪ list_to_set l)) w)).
Proof.
  apply (for__closed _
           (λ c w, with_events (notified silent connection_added [Flow.connection_info c])
                     (with_flow (flow_connections (λ s, s ∪ {[c]})) w))
           (λ l w, with_events (notified silent connection_added (Flow.connection_info <$> l))
                     (with_flow (flow_connections (λ s, s ∪ list_to_set l)) w))).
  - intros c w'. unfold Flow.add_connection, mbind, M_bind, modify, emit, modify.
    destruct silent; cbn; f_equal; apply world_eq; cbn; try done. by rewrite app_nil_r.
  - intros w'. apply world_eq; cbn; try done; [set_tauto|].
    destruct silent; cbn; by rewrite app_nil_r.
  - intros c l' w'. apply world_eq; cbn; try done; [set_tauto|].
    destruct silent; cbn; by rewrite <- app_assoc.
Qed.

Lemma for_remove_connection l silent w :
  for_ l (λ c, Flow.remove_connection c silent) w
  = (Ok tt, with_events (notified silent connection_removed (Flow.connection_info <$> l))
              (with_flow (flow_connections (λ s, s ∖ list_to_set l)) w)).
Proof.
  apply (for__closed _
           (λ c w, with_events (notified silent connection_removed [Flow.connection_info c])
                     (with_flow (flow_connections (λ s, s ∖ {[c]})) w))
           (λ l w, with_events (notified silent connection_removed (Flow.connection_info <$> l))
                     (with_flow (flow_connections (λ s, s ∖ list_to_set l)) w))).
  - intros c w'. unfold Flow.remove_connection, mbind, M_bind, modify, emit, modify.
    destruct silent; cbn; f_equal; apply world_eq; cbn; try done. by rewrite app_nil_r.
  - intros w'. apply world_eq; cbn; try done; [set_tauto|].
    destruct silent; cbn; by rewrite app_nil_r.
  - intros c l' w'. apply world_eq; cbn; try done; [set_tauto|].
    destruct silent; cbn; by rewrite <- app_assoc.
Qed.

Lemma for_connect_from_info l silent w :
  for_ l (λ c, Flow.connect_from_info c silent) w
  = (Ok tt, with_events (notified silent connection_added l)
              (with_flow (flow_connections (λ s, s ∪ edges l)) w)).
Proof.
  apply (for__closed _
           (λ c w, with_events (notified silent connection_added [c])
                     (with_flow (flow_connections (λ s, s ∪ {[Flow.edge c]})) w))
           (λ l w, with_events (notified silent connection_added l)
                     (with_flow (flow_connections (λ s, s ∪ edges l)) w))).
  - intros [o i] w'.
    unfold Flow.connect_from_info, Flow.add_connection, mbind, M_bind, modify, emit, modify.
    destruct silent; cbn; f_equal; apply world_eq; cbn; try done. by rewrite app_nil_r.
  - intros w'. apply world_eq; cbn; try done; [unfold edges; set_tauto|].
    destruct silent; cbn; by rewrite app_nil_r.
  - intros c l' w'. apply world_eq; cbn; try done; [unfold edges; cbn; set_tauto|].
    destruct silent; cbn; by rewrite <- app_assoc.
Qed.

Lemma for_disconnect_from_info l silent w :
  for_ l (λ c, Flow.disconnect_from_info c silent) w
  = (Ok tt, with_events (notified silent connection_removed l)
              (with_flow (flow_connections (λ s, s ∖ edges l)) w)).
Proof.
  apply (for__closed _
           (λ c w, with_events (notified silent connection_removed [c])
                     (with_flow (flow_connections (λ s, s ∖ {[Flow.edge c]})) w))
           (λ l w, with_events (notified silent connection_removed l)
                     (with_flow (flow_connections (λ s, s ∖ edges l)) w))).
  - intros [o i] w'.
    unfold Flow.disconnect_from_info, Flow.remove_connection, mbind, M_bind, modify, emit,
      modify.
    destruct silent; cbn; f_equal; apply world_eq; cbn; try done. by rewrite app_nil_r.
  - intros w'. apply world_eq; cbn; try done; [unfold edges; set_tauto|].
    destruct silent; cbn; by rewrite app_nil_r.
  - intros c l' w'. apply world_eq; cbn; try done; [unfold edges; cbn; set_tauto|].
    destruct silent; cbn; by rewrite <- app_assoc.
Qed.

Lemma for_node_gui_hook hook l w :
  for_ l (RemoveComponentsCommand.node_gui_hook hook) w = (Ok tt, with_events (hooks hook l) w).
Proof.
  apply (for__closed _
           (λ i w, with_events (hooks hook [i]) w) (λ l w, with_events (hooks hook l) w)).
  - intros [n|d|c] w'; cbn; unfold mret, M_ret, emit, modify; f_equal;
      apply world_eq; cbn; try done; by rewrite app_nil_r.
  - intros w'. apply world_eq; cbn; try done. by rewrite app_nil_r.
  - intros i l' w'. apply world_eq; cbn; try done.
    destruct i; cbn; by rewrite <- ?app_assoc, ?app_nil_r.
Qed.

Section Remove.
Implicit Types (self : FlowUndoCommand RemoveComponentsCommand.t) (w : World).

Lemma remove_redo__graph self w :
  ∃ w', redo_ (self, w) = (Ok tt, (self, w')) ∧
    graph_of w' =
      {| g_nodes := nodes (flow w) ∖ list_to_set (RemoveComponentsCommand.nodes (fields self));
         g_connections :=
           (connections (flow w)
              ∖ edges (elements (RemoveComponentsCommand.broken_connections (fields self))))
             ∖ edges (elements (RemoveComponentsCommand.internal_connections (fields self)));
         g_drawings :=
           scene_drawings (flow_view w)
             ∖ list_to_set (RemoveComponentsCommand.drawings (fields self));
         g_pos := item_pos (flow_view w) |}.
Proof.
  unfold redo_, RemoveComponentsCommand.methods,
    RemoveComponentsCommand.remove_broken_connections,
    RemoveComponentsCommand.remove_internal_connections.
  mstep.
  rewrite for_disconnect_from_info. cbn [fst snd].
  rewrite for_disconnect_from_info. cbn [fst snd].
  rewrite for_remove_node. cbn [fst snd].
  rewrite for_remove_drawing. cbn [fst snd].
  rewrite for_node_gui_hook. cbn [fst snd].
  eexists. split; [reflexivity|]. reflexivity.
Qed.

Lemma remove_undo__graph self w :
  ∃ w', undo_ (self, w) = (Ok tt, (self, w')) ∧
    graph_of w' =
      {| g_nodes := nodes (flow w) ∪ list_to_set (RemoveComponentsCommand.nodes (fields self));
         g_connections :=
           (connections (flow w)
              ∪ edges (elements (RemoveComponentsCommand.broken_connections (fields self))))
             ∪ edges (elements (RemoveComponentsCommand.internal_connections (fields self)));
         g_drawings :=
           scene_drawings (flow_view w)
             ∪ list_to_set (RemoveComponentsCommand.drawings (fields self));
         g_pos := item_pos (flow_view w) |}.
Proof.
  unfold undo_, RemoveComponentsCommand.methods,
    RemoveComponentsCommand.restore_broken_connections,
    RemoveComponentsCommand.restore_internal_connections.
  mstep.
  rewrite for_add_node. cbn [fst snd].
  rewrite for_add_drawing. cbn [fst snd].
  rewrite for_connect_from_info. cbn [fst snd].
  rewrite for_connect_from_info. cbn [fst snd].
  rewrite for_node_gui_hook. cbn [fst snd].
  unfold FlowView.select_items, modify.
  eexists. split; [reflexivity|]. reflexivity.
Qed.
End Remove.

Lemma inverse_law_intro {F} `{!Methods F} (cmd : FlowUndoCommand F) (w : World)
    (Inv : FlowUndoCommand F * World → Prop) :
  Inv (activate false (cmd, w)).2 →
  (∀ s, Inv s →
        graph_of ((undo_;; redo_) s).2.2 = graph_of s.2 ∧
        (returns ((undo_;; redo_) s) = true → Inv ((undo_;; redo_) s).2)) →
  inverse_law cmd w.
Proof.
  intros H0 Hc n. cbn zeta.
  exact (times_invariant (undo_;; redo_) Inv (λ s, graph_of s.2) Hc n _ H0).
Qed.

Lemma activate_silent {F} `{!Methods F} (self : FlowUndoCommand F) (w : World) :
  activate true (self, w) = (Ok tt, (mark_activated self, w)).
Proof. unfold activate. by msimpl. Qed.

Lemma activate_runs {F} `{!Methods F} (self : FlowUndoCommand F) (w : World) :
  _any_cmd_active w = false →
  activate false (self, w) = guarded redo_ (mark_activated self, w).
Proof. intros Hg. unfold activate, redo, guarded. msimpl. by rewrite Hg. Qed.

Lemma seq_ok {S} (m1 m2 : M S unit) (s s1 : S) :
  m1 s = (Ok tt, s1) → (m1;; m2) s = m2 s1.
Proof. intros H. unfold mbind, M_bind. by rewrite H. Qed.

Lemma seq_raise {S} (m1 m2 : M S unit) (s s1 : S) e :
  m1 s = (Raise e, s1) → (m1;; m2) s = (Raise e, s1).
Proof. intros H. unfold mbind, M_bind. by rewrite H. Qed.

Lemma graph_eq (g g' : Graph) :
  g_nodes g = g_nodes g' → g_connections g = g_connections g' →
  g_drawings g = g_drawings g' → g_pos g = g_pos g' → g = g'.
Proof. destruct g, g'. cbn. by intros; subst. Qed.

Section RemoveInverse.
Implicit Types (self : FlowUndoCommand RemoveComponentsCommand.t) (w : World).

Lemma remove_redo__components_removed self w w' :
  redo_ (self, w) = (Ok tt, (self, w')) → components_removed self w'.
Proof.
  intros H. destruct (remove_redo__graph self w) as (w'' & Hr & Hg).
  rewrite Hr in H. simplify_eq.
  apply (f_equal g_nodes) in Hg as Hn. apply (f_equal g_connections) in Hg as Hc.
  apply (f_equal g_drawings) in Hg as Hd. cbn in Hn, Hc, Hd.
  unfold components_removed. rewrite Hn, Hc, Hd. repeat split; set_tauto.
Qed.

Lemma remove_cycle self w :
  components_removed self w →
  ∃ w', (undo_;; redo_) (self, w) = (Ok tt, (self, w')) ∧
        graph_of w' = graph_of w ∧ components_removed self w'.
Proof.
  intros (Hn & Hb & Hi & Hd).
  destruct (remove_undo__graph self w) as (w1 & Hu & Hg1).
  destruct (remove_redo__graph self w1) as (w2 & Hr & Hg2).
  exists w2. rewrite (seq_ok _ _ _ _ Hu). split; [done|]. split.
  - rewrite Hg2.
    apply (f_equal g_nodes) in Hg1 as H1. apply (f_equal g_connections) in Hg1 as H2.
    apply (f_equal g_drawings) in Hg1 as H3. apply (f_equal g_pos) in Hg1 as H4.
    cbn in H1, H2, H3, H4. rewrite H1, H2, H3, H4.
    apply graph_eq; cbn.
    + revert Hn. set_unfold. intros Hn x. specialize (Hn x). tauto.
    + revert Hb Hi. set_unfold. intros Hb Hi x. specialize (Hb x). specialize (Hi x). tauto.
    + revert Hd. set_unfold. intros Hd x. specialize (Hd x). tauto.
    + done.
  - by apply (remove_redo__components_removed self w1).
Qed.

Lemma remove_inverse_law w items silent :
  _any_cmd_active w = false →
  inverse_law (RemoveComponentsCommand.__init__ w items silent) w.
Proof.
  intros Hg.
  apply (inverse_law_intro _ _
           (λ s, fields s.1 = fields (RemoveComponentsCommand.__init__ w items silent)
                 ∧ components_removed s.1 s.2)).
  - rewrite activate_runs by done.
    destruct (remove_redo__graph
                (mark_activated (RemoveComponentsCommand.__init__ w items silent))
                (with_guard true w)) as (w' & Hr & Hg').
    rewrite (guarded_returns _ _ _ _ _ Hr). cbn [fst snd]. split; [done|].
    apply remove_redo__components_removed in Hr. exact Hr.
  - intros [self w'] [Hf Hrem]. cbn [fst snd] in *.
    destruct (remove_cycle self w' Hrem) as (w'' & -> & Hg' & Hrem').
    cbn [fst snd]. split; [done|]. intros _. by split.
Qed.
End RemoveInverse.


(** *** Select *)

Section SelectInverse.
Lemma select_inverse_law w new_items prev_items :
  inverse_law (SelectComponentsCommand.__init__ new_items prev_items) w.
Proof.
  apply (inverse_law_intro _ _ (λ _, True)); [done|].
  intros [self w'] _. split; [|done]. done.
Qed.
End SelectInverse.

Section MoveInverse.
Local Arguments shift_items : simpl never.
Implicit Types (self : FlowUndoCommand MoveComponentsCommand.t) (w : World) (v : FlowView).

Lemma shift_items_lookup items d v it :
  item_pos (shift_items items d v) !! it
  = if decide (it ∈ items) then Some (padd (pos_of v it) d) else item_pos v !! it.
Proof.
  unfold shift_items. cbn. induction items as [|x items IH]; cbn.
  - by rewrite decide_False by apply not_elem_of_nil.
  - destruct (decide (x = it)) as [->|Hne].
    + rewrite lookup_insert_eq. by rewrite decide_True by (apply elem_of_cons; by left).
    + rewrite lookup_insert_ne by done. rewrite IH.
      destruct (decide (it ∈ items)) as [Hin|Hin].
      * by rewrite decide_True by (apply elem_of_cons; by right).
      * rewrite decide_False; [done|]. intros [?|?]%elem_of_cons; congruence.
Qed.

Lemma move_redo_ self w :
  redo_ (self, w)
  = (Ok tt, (self,
       with_events (on_move <$> MoveComponentsCommand.items_list (fields self))
         (with_view (shift_items (MoveComponentsCommand.items_list (fields self))
                       (psub (psub (MoveComponentsCommand.p_to (fields self))
                                   (MoveComponentsCommand.last_item_group_pos (fields self)))
                             origin)) w))).
Proof.
  unfold redo_, MoveComponentsCommand.methods, MoveComponentsCommand.items_group,
    MoveComponentsCommand.destroy_items_group, QGraphicsScene.createItemGroup,
    QGraphicsScene.setPos, QGraphicsScene.destroyItemGroup.
  mstep. rewrite for_emit. done.
Qed.

Lemma move_undo_ self w :
  undo_ (self, w)
  = (Ok tt,
     ({| _activated := _activated self; text := text self;
         fields := MoveComponentsCommand.set_last_item_group_pos
                     (MoveComponentsCommand.p_from (fields self)) (fields self) |},
      with_events (on_move <$> MoveComponentsCommand.items_list (fields self))
        (with_view (shift_items (MoveComponentsCommand.items_list (fields self))
                      (psub (MoveComponentsCommand.p_from (fields self)) origin)) w))).
Proof.
  unfold undo_, MoveComponentsCommand.methods, MoveComponentsCommand.items_group,
    MoveComponentsCommand.destroy_items_group, QGraphicsScene.createItemGroup,
    QGraphicsScene.setPos, QGraphicsScene.destroyItemGroup.
  mstep. rewrite for_emit. done.
Qed.

Lemma move_cycle self w :
  moved self w →
  ∃ self' w', (undo_;; redo_) (self, w) = (Ok tt, (self', w')) ∧
              graph_of w' = graph_of w ∧ moved self' w'.
Proof.
  intros Hmoved. eexists _, _.
  rewrite (seq_ok _ _ _ _ (move_undo_ self w)). rewrite move_redo_.
  split; [reflexivity|]. cbn [fields MoveComponentsCommand.set_last_item_group_pos
    MoveComponentsCommand.items_list MoveComponentsCommand.p_to
    MoveComponentsCommand.last_item_group_pos MoveComponentsCommand.p_from].
  assert (Hm : ∀ it,
    item_pos (shift_items (MoveComponentsCommand.items_list (fields self))
                (psub (psub (MoveComponentsCommand.p_to (fields self))
                            (MoveComponentsCommand.p_from (fields self))) origin)
                (shift_items (MoveComponentsCommand.items_list (fields self))
                   (psub (MoveComponentsCommand.p_from (fields self)) origin)
                   (flow_view w))) !! it
    = item_pos (flow_view w) !! it).
  { intros it. rewrite shift_items_lookup. unfold pos_of at 1.
    rewrite shift_items_lookup.
    destruct (decide (it ∈ _)) as [Hin|Hin]; [|done]. cbn.
    destruct (Hmoved it Hin) as [[p Hp] Hcancel].
    unfold cycle_displaced in Hcancel. rewrite Hcancel.
    unfold pos_of. by rewrite Hp. }
  split.
  - apply graph_eq; cbn; try done. apply map_eq. exact Hm.
  - cbn. intros it Hin. unfold pos_of. rewrite Hm. by apply Hmoved.
Qed.

Lemma move_inverse_law w items p_from p_to :
  _any_cmd_active w = false →
  (∀ it, it ∈ items →
     let y := pos_of (flow_view
                (activate false (MoveComponentsCommand.__init__ items p_from p_to, w)).2.2) it in
     cycle_displaced p_from p_to y = y) →
  inverse_law (MoveComponentsCommand.__init__ items p_from p_to) w.
Proof.
  intros Hg Hcancel. apply (inverse_law_intro _ _ (λ s, moved s.1 s.2)).
  - rewrite activate_runs in Hcancel |- * by done.
    rewrite (guarded_returns _ _ _ _ _ (move_redo_ _ _)) in Hcancel |- *.
    cbn [fst snd] in Hcancel |- *. intros it Hin. split.
    + cbn. rewrite shift_items_lookup. rewrite decide_True by done. by eexists.
    + exact (Hcancel it Hin).
  - intros [self w'] Hm. cbn [fst snd] in *.
    destruct (move_cycle self w' Hm) as (self' & w'' & -> & Hg' & Hm').
    cbn [fst snd]. by split.
Qed.
End MoveInverse.


Lemma gset_remove_add `{Countable A} (X : gset A) (x : A) :
  x ∈ X → (X ∖ {[x]}) ∪ {[x]} = X.
Proof.
  intros Hx. apply set_eq. intros y.
  rewrite elem_of_union, elem_of_difference, elem_of_singleton.
  split; [intros [[? ?]| ->]; done|]. intros Hy.
  destruct (decide (y = x)); [by right|by left].
Qed.

Section PlaceNodeInverse.
Implicit Types (self : FlowUndoCommand PlaceNodeCommand.t) (w : World).

Lemma place_node_redo__first self w :
  PlaceNodeCommand.node (fields self) = None →
  ∃ r self' w', redo_ (self, w) = (r, (self', w')) ∧ node_placed_or_failing self' w'.
Proof.
  intros Hn. unfold redo_, PlaceNodeCommand.methods, PlaceNodeCommand.redo_with,
    node_placed_or_failing, try_except.
  mstep. rewrite Hn. unfold Flow.create_node.
  destruct (init_raises (PlaceNodeCommand.node_class (fields self))) eqn:Hr.
  - unfold raise, traceback.print_exc. mstep. eexists _, _, _. split; [reflexivity|].
    cbn. by rewrite Hn, Hr.
  - unfold PlaceNodeCommand.node_placed_emit, PlaceNodeCommand.on_node_placed, emit.
    mstep. eexists _, _, _. split; [reflexivity|].
    cbn. rewrite elem_of_union, elem_of_singleton. by right.
Qed.

Lemma place_node_redo__again self w n :
  PlaceNodeCommand.node (fields self) = Some n →
  ∃ self' w', redo_ (self, w) = (Ok tt, (self', w')) ∧
    fields self' = fields self ∧
    graph_of w' = {| g_nodes := nodes (flow w) ∪ {[n]};
                     g_connections := connections (flow w);
                     g_drawings := scene_drawings (flow_view w);
                     g_pos := item_pos (flow_view w) |}.
Proof.
  intros Hn. unfold redo_, PlaceNodeCommand.methods, PlaceNodeCommand.redo_with, try_except.
  mstep. rewrite Hn.
  unfold Flow.add_node, PlaceNodeCommand.node_placed_emit, PlaceNodeCommand.on_node_placed,
    emit.
  mstep. eexists _, _. split; [reflexivity|]. done.
Qed.

Lemma place_node_undo_ self w :
  match PlaceNodeCommand.node (fields self) with
  | Some n =>
      ∃ w', undo_ (self, w) = (Ok tt, (self, w')) ∧
        graph_of w' = {| g_nodes := nodes (flow w) ∖ {[n]};
                         g_connections := connections (flow w);
                         g_drawings := scene_drawings (flow_view w);
                         g_pos := item_pos (flow_view w) |}
  | None => undo_ (self, w) = (Raise (AttributeError "NoneType"), (self, w))
  end.
Proof.
  unfold undo_, PlaceNodeCommand.methods, PlaceNodeCommand.remove_node.
  mstep. destruct (PlaceNodeCommand.node (fields self)) as [n|].
  - unfold Flow.remove_node, FlowView.select_items. mstep.
    eexists. split; [reflexivity|]. done.
  - done.
Qed.

Lemma place_node_cycle self w :
  node_placed_or_failing self w →
  ∃ r self' w', (undo_;; redo_) (self, w) = (r, (self', w')) ∧
                graph_of w' = graph_of w ∧ node_placed_or_failing self' w'.
Proof.
  intros Hinv. pose proof (place_node_undo_ self w) as Hu.
  unfold node_placed_or_failing in *.
  destruct (PlaceNodeCommand.node (fields self)) as [n|] eqn:Hn.
  - destruct Hu as (w1 & Hu & Hg1).
    destruct (place_node_redo__again self w1 n Hn) as (self' & w2 & Hr & Hf & Hg2).
    exists (Ok tt), self', w2. rewrite (seq_ok _ _ _ _ Hu). split; [done|].
    apply (f_equal g_nodes) in Hg1 as H1. apply (f_equal g_connections) in Hg1 as H2.
    apply (f_equal g_drawings) in Hg1 as H3. apply (f_equal g_pos) in Hg1 as H4.
    cbn in H1, H2, H3, H4. split.
    + rewrite Hg2, H1, H2, H3, H4. apply graph_eq; cbn; try done.
      by apply gset_remove_add.
    + rewrite Hf, Hn. apply (f_equal g_nodes) in Hg2. cbn in Hg2. rewrite Hg2.
      rewrite elem_of_union, elem_of_singleton. by right.
  - eexists _, _, _. rewrite (seq_raise _ _ _ _ _ Hu). split; [reflexivity|].
    split; [done|]. by rewrite Hn.
Qed.

Lemma place_node_inverse_law w node_class pos :
  _any_cmd_active w = false →
  inverse_law (PlaceNodeCommand.__init__ (flow_view w) node_class pos) w.
Proof.
  intros Hg. apply (inverse_law_intro _ _ (λ s, node_placed_or_failing s.1 s.2)).
  - rewrite activate_runs by done.
    destruct (place_node_redo__first
                (mark_activated (PlaceNodeCommand.__init__ (flow_view w) node_class pos))
                (with_guard true w) eq_refl) as (r & self' & w' & Hr & Hinv).
    destruct r as [[]|e].
    + by rewrite (guarded_returns _ _ _ _ _ Hr).
    + by rewrite (guarded_raises _ _ _ _ _ _ Hr).
  - intros [self w'] Hinv. cbn [fst snd] in *.
    destruct (place_node_cycle self w' Hinv) as (r & self' & w'' & -> & Hg' & Hinv').
    cbn [fst snd]. by split.
Qed.
End PlaceNodeInverse.

Section PlaceDrawingInverse.
Implicit Types (self : FlowUndoCommand PlaceDrawingCommand.t) (w : World).

Lemma place_drawing_redo_ self w :
  ∃ r self' w', redo_ (self, w) = (r, (self', w')) ∧
    PlaceDrawingCommand.drawing (fields self') = PlaceDrawingCommand.drawing (fields self) ∧
    graph_of w' =
      {| g_nodes := nodes (flow w); g_connections := connections (flow w);
         g_drawings := scene_drawings (flow_view w)
                         ∪ {[PlaceDrawingCommand.drawing (fields self)]};
         g_pos := <[DrawingObject (PlaceDrawingCommand.drawing (fields self))
                     := PlaceDrawingCommand.drawing_obj_pos (fields self)]>
                    (item_pos (flow_view w)) |}.
Proof.
  unfold redo_, PlaceDrawingCommand.methods, FlowView.add_drawing.
  mstep. destruct (PlaceDrawingCommand.drawing_call (fields self) true);
    eexists _, _, _; (split; [reflexivity|]); done.
Qed.

Lemma place_drawing_undo_ self w :
  ∃ self' w', undo_ (self, w) = (Ok tt, (self', w')) ∧
    PlaceDrawingCommand.drawing (fields self') = PlaceDrawingCommand.drawing (fields self) ∧
    PlaceDrawingCommand.drawing_obj_pos (fields self')
      = pos_of (flow_view w) (DrawingObject (PlaceDrawingCommand.drawing (fields self))) ∧
    graph_of w' =
      {| g_nodes := nodes (flow w); g_connections := connections (flow w);
         g_drawings := scene_drawings (flow_view w)
                         ∖ {[PlaceDrawingCommand.drawing (fields self)]};
         g_pos := item_pos (flow_view w) |}.
Proof.
  unfold undo_, PlaceDrawingCommand.methods, FlowView.remove_component,
    FlowView.remove_drawing, FlowView.select_items.
  mstep. eexists _, _. split; [reflexivity|]. done.
Qed.

Lemma drawing_placed_graph self w w' :
  graph_of w' = graph_of w → drawing_placed self w → drawing_placed self w'.
Proof.
  intros Hg [H1 H2]. apply (f_equal g_drawings) in Hg as Hd.
  apply (f_equal g_pos) in Hg as Hp. cbn in Hd, Hp. unfold drawing_placed.
  by rewrite Hd, Hp.
Qed.

Lemma place_drawing_cycle self w :
  drawing_placed self w →
  ∃ r self' w', (undo_;; redo_) (self, w) = (r, (self', w')) ∧
                graph_of w' = graph_of w ∧ drawing_placed self' w'.
Proof.
  intros [Hd [p Hp]].
  destruct (place_drawing_undo_ self w) as (self1 & w1 & Hu & Hd1 & Hpos1 & Hg1).
  destruct (place_drawing_redo_ self1 w1) as (r & self2 & w2 & Hr & Hd2 & Hg2).
  exists r, self2, w2. rewrite (seq_ok _ _ _ _ Hu). split; [done|].
  apply (f_equal g_nodes) in Hg1 as H1. apply (f_equal g_connections) in Hg1 as H2.
  apply (f_equal g_drawings) in Hg1 as H3. apply (f_equal g_pos) in Hg1 as H4.
  cbn in H1, H2, H3, H4.
  assert (Hg : graph_of w2 = graph_of w).
  { rewrite Hg2, H1, H2, H3, H4, Hd1, Hpos1. apply graph_eq; cbn; try done.
    - by apply gset_remove_add.
    - apply insert_id. unfold pos_of. by rewrite Hp. }
  split; [done|].
  apply (drawing_placed_graph _ w); [done|].
  unfold drawing_placed. rewrite Hd2, Hd1. split; [done|by eexists].
Qed.

Lemma place_drawing_inverse_law w posF drawing drawing_call :
  _any_cmd_active w = false →
  inverse_law (PlaceDrawingCommand.__init__ (flow_view w) posF drawing drawing_call) w.
Proof.
  intros Hg. apply (inverse_law_intro _ _ (λ s, drawing_placed s.1 s.2)).
  - rewrite activate_runs by done.
    destruct (place_drawing_redo_
                (mark_activated
                   (PlaceDrawingCommand.__init__ (flow_view w) posF drawing drawing_call))
                (with_guard true w)) as (r & self' & w' & Hr & Hd & Hg').
    apply (f_equal g_drawings) in Hg' as H3. apply (f_equal g_pos) in Hg' as H4.
    cbn in H3, H4.
    assert (Hinv : drawing_placed self' w').
    { unfold drawing_placed. rewrite Hd, H3, H4. cbn. split.
      - rewrite elem_of_union, elem_of_singleton. by right.
      - rewrite lookup_insert_eq. by eexists. }
    destruct r as [[]|e].
    + by rewrite (guarded_returns _ _ _ _ _ Hr).
    + by rewrite (guarded_raises _ _ _ _ _ _ Hr).
  - intros [self w'] Hinv. cbn [fst snd] in *.
    destruct (place_drawing_cycle self w' Hinv) as (r & self' & w'' & -> & Hg' & Hinv').
    cbn [fst snd]. by split.
Qed.
End PlaceDrawingInverse.


Section ConnectPortsInverse.
Implicit Types (self : FlowUndoCommand ConnectPortsCommand.t) (w : World).

Lemma connect_ports_undo_ self w :
  let e := Flow.edge (ConnectPortsCommand.connection_info (fields self)) in
  ∃ w', undo_ (self, w) = (Ok tt, (self, w')) ∧
    graph_of w' = if ConnectPortsCommand.connecting (fields self)
                  then disconnect_graph e w else connect_graph e w.
Proof.
  unfold undo_, ConnectPortsCommand.methods. mstep.
  destruct (ConnectPortsCommand.connecting (fields self));
    unfold Flow.disconnect_from_info, Flow.connect_from_info, Flow.remove_connection,
      Flow.add_connection, emit; mstep;
    destruct (ConnectPortsCommand.silent (fields self)); mstep;
    eexists; (split; [reflexivity|]); done.
Qed.

Lemma connect_ports_redo_ self w :
  let e := Flow.edge (ConnectPortsCommand.connection_info (fields self)) in
  ∃ self' w', redo_ (self, w) = (Ok tt, (self', w')) ∧
    ConnectPortsCommand.connecting (fields self')
      = ConnectPortsCommand.connecting (fields self) ∧
    ConnectPortsCommand.connection_info (fields self')
      = ConnectPortsCommand.connection_info (fields self) ∧
    (ConnectPortsCommand.connecting (fields self) = true →
     ConnectPortsCommand.connection (fields self') ≠ None) ∧
    graph_of w' =
      if ConnectPortsCommand.connecting (fields self)
      then match ConnectPortsCommand.connection (fields self) with
           | Some _ => connect_graph e w
           | None => connect_graph (ConnectPortsCommand.out (fields self),
                                    ConnectPortsCommand.inp (fields self)) w
           end
      else disconnect_graph e w.
Proof.
  unfold redo_, ConnectPortsCommand.methods. mstep.
  destruct (ConnectPortsCommand.connecting (fields self)) eqn:Hc.
  - destruct (ConnectPortsCommand.connection (fields self)) eqn:Hconn;
      unfold Flow.connect_ports, Flow.connect_from_info, Flow.add_connection, emit; mstep;
      destruct (ConnectPortsCommand.silent (fields self)); mstep;
      eexists _, _; (split; [reflexivity|]); cbn; rewrite ?Hconn; done.
  - unfold Flow.disconnect_from_info, Flow.remove_connection, emit; mstep;
      destruct (ConnectPortsCommand.silent (fields self)); mstep;
      eexists _, _; (split; [reflexivity|]); cbn; done.
Qed.

Lemma connect_ports_cycle self w :
  toggled self w →
  ∃ self' w', (undo_;; redo_) (self, w) = (Ok tt, (self', w')) ∧
              graph_of w' = graph_of w ∧ toggled self' w'.
Proof.
  intros Hinv.
  destruct (connect_ports_undo_ self w) as (w1 & Hu & Hg1).
  destruct (connect_ports_redo_ self w1) as (self2 & w2 & Hr & Hc & Hi & Hconn & Hg2).
  exists self2, w2. rewrite (seq_ok _ _ _ _ Hu). split; [done|].
  unfold toggled in *. rewrite Hc, Hi.
  destruct (ConnectPortsCommand.connecting (fields self)) eqn:Hmode.
  - destruct Hinv as [Hsome He].
    destruct (ConnectPortsCommand.connection (fields self)) eqn:Hco; [|done].
    apply (f_equal g_nodes) in Hg1 as H1. apply (f_equal g_connections) in Hg1 as H2.
    apply (f_equal g_drawings) in Hg1 as H3. apply (f_equal g_pos) in Hg1 as H4.
    cbn in H1, H2, H3, H4.
    assert (Hg : graph_of w2 = graph_of w).
    { rewrite Hg2. unfold connect_graph. rewrite H1, H2, H3, H4.
      apply graph_eq; cbn; try done. by apply gset_remove_add. }
    split; [done|]. split; [by apply Hconn|].
    apply (f_equal g_connections) in Hg. cbn in Hg. by rewrite Hg.
  - apply (f_equal g_nodes) in Hg1 as H1. apply (f_equal g_connections) in Hg1 as H2.
    apply (f_equal g_drawings) in Hg1 as H3. apply (f_equal g_pos) in Hg1 as H4.
    cbn in H1, H2, H3, H4.
    assert (Hg : graph_of w2 = graph_of w).
    { rewrite Hg2. unfold disconnect_graph. rewrite H1, H2, H3, H4.
      apply graph_eq; cbn; try done. by apply gset_add_remove. }
    split; [done|].
    apply (f_equal g_connections) in Hg. cbn in Hg. by rewrite Hg.
Qed.

Lemma connect_ports_init_fields w out inp silent :
  let f := fields (ConnectPortsCommand.__init__ w out inp silent) in
  Flow.edge (ConnectPortsCommand.connection_info f) = (out, inp) ∧
  ConnectPortsCommand.out f = out ∧ ConnectPortsCommand.inp f = inp ∧
  (ConnectPortsCommand.connecting f = true →
     ConnectPortsCommand.connection f = None ∧ (out, inp) ∉ connections (flow w)) ∧
  (ConnectPortsCommand.connecting f = false → (out, inp) ∈ connections (flow w)).
Proof.
  cbn. destruct (decide ((out, inp) ∈ connections (flow w))) as [H|H].
  - rewrite connect_scan_found by (by apply elem_of_connected_inputs). done.
  - rewrite connect_scan_not_found by (by rewrite elem_of_connected_inputs).
    done.
Qed.
End ConnectPortsInverse.

Section ConnectPortsInverse2.
Lemma connect_ports_inverse_law w out inp silent :
  _any_cmd_active w = false →
  inverse_law (ConnectPortsCommand.__init__ w out inp silent) w.
Proof.
  intros Hg. apply (inverse_law_intro _ _ (λ s, toggled s.1 s.2)).
  - rewrite activate_runs by done.
    set (self := mark_activated (ConnectPortsCommand.__init__ w out inp silent)).
    destruct (connect_ports_init_fields w out inp silent) as (He & Ho & Hi & Hct & Hcf).
    destruct (connect_ports_redo_ self (with_guard true w))
      as (self' & w' & Hr & Hc & Hinfo & Hconn & Hg').
    rewrite (guarded_returns _ _ _ _ _ Hr). cbn [fst snd].
    unfold toggled. rewrite Hc, Hinfo.
    change (fields self) with (fields (ConnectPortsCommand.__init__ w out inp silent)) in *.
    cbn zeta in He, Ho, Hi, Hct, Hcf. rewrite He in *.
    apply (f_equal g_connections) in Hg'. 
    destruct (ConnectPortsCommand.connecting
                (fields (ConnectPortsCommand.__init__ w out inp silent))) eqn:Hmode.
    + destruct (Hct eq_refl) as [Hnone Hnot]. rewrite Hnone, Ho, Hi in Hg'.
      cbn in Hg'. split; [by apply Hconn|].
      change (connections (flow (with_guard false w'))) with (connections (flow w')).
      rewrite Hg'. rewrite elem_of_union, elem_of_singleton. by right.
    + cbn in Hg'.
      change (connections (flow (with_guard false w'))) with (connections (flow w')).
      rewrite Hg'. rewrite elem_of_difference, elem_of_singleton. by intros [_ ?].
  - intros [self w'] Hinv. cbn [fst snd] in *.
    destruct (connect_ports_cycle self w' Hinv) as (self' & w'' & -> & Hg' & Hinv').
    cbn [fst snd]. by split.
Qed.
End ConnectPortsInverse2.


Lemma deref_gets {A} (f : PasteData → A) (r : Ref) (d : PasteData) (w : World) :
  heap w !! r = Some d → deref r (λ s, (Ok (f s), s)) w = (Ok (f d), w).
Proof.
  intros H. unfold deref. rewrite H. f_equal.
  apply world_eq; cbn; try done. by apply insert_id.
Qed.

Lemma gset_difference_union `{Countable A} (X Y : gset A) : Y ⊆ X → (X ∖ Y) ∪ Y = X.
Proof.
  intros HY. apply set_eq. intros x. rewrite elem_of_union, elem_of_difference.
  split; [intros [[? ?]|?]; [done|by apply HY]|].
  intros Hx. destruct (decide (x ∈ Y)); [by right|by left].
Qed.

Section PasteCycle.
Implicit Types (self : FlowUndoCommand PasteCommand.t) (w : World).

Lemma paste_select_new self w :
  ∃ w', PasteCommand.select_new_components_in_view (self, w) = (Ok tt, (self, w')) ∧
        paste_obs (self, w') = paste_obs (self, w).
Proof.
  unfold PasteCommand.select_new_components_in_view, FlowView.clear_selection. mstep.
  rewrite !for_emit. cbn [fst snd]. eexists. split; [reflexivity|]. done.
Qed.

Lemma paste_undo_ self w :
  ∃ w', undo_ (self, w) = (Ok tt, (self, w')) ∧
    paste_obs (self, w') =
      (fields self,
       {| g_nodes := nodes (flow w) ∖ list_to_set (PasteCommand.nodes (fields self));
          g_connections :=
            connections (flow w) ∖ list_to_set (PasteCommand.connections (fields self));
          g_drawings :=
            scene_drawings (flow_view w) ∖ list_to_set (PasteCommand.drawings (fields self));
          g_pos := item_pos (flow_view w) |},
       next_node (flow w), next_drawing (flow_view w), heap w).
Proof.
  unfold undo_, PasteCommand.methods. mstep.
  rewrite for_remove_connection. cbn [fst snd].
  rewrite for_remove_node. cbn [fst snd].
  rewrite for_remove_drawing. cbn [fst snd].
  eexists. split; [reflexivity|]. done.
Qed.

Lemma paste_add_existing self w :
  ∃ w', PasteCommand.add_existing_components (self, w) = (Ok tt, (self, w')) ∧
    paste_obs (self, w') =
      (fields self,
       {| g_nodes := nodes (flow w) ∪ list_to_set (PasteCommand.nodes (fields self));
          g_connections :=
            connections (flow w) ∪ list_to_set (PasteCommand.connections (fields self));
          g_drawings :=
            scene_drawings (flow_view w) ∪ list_to_set (PasteCommand.drawings (fields self));
          g_pos := item_pos (flow_view w) |},
       next_node (flow w), next_drawing (flow_view w), heap w).
Proof.
  unfold PasteCommand.add_existing_components. mstep.
  rewrite for_add_node. cbn [fst snd].
  rewrite for_add_connection. cbn [fst snd].
  rewrite for_add_drawing. cbn [fst snd].
  destruct (paste_select_new self
    (with_view (view_drawings (λ s, s ∪ list_to_set (PasteCommand.drawings (fields self))))
       (with_events
          (notified false connection_added
             (Flow.connection_info <$> PasteCommand.connections (fields self)))
          (with_flow
             (flow_connections
                (λ s, s ∪ list_to_set (PasteCommand.connections (fields self))))
             (with_flow
                (flow_nodes (λ s, s ∪ list_to_set (PasteCommand.nodes (fields self))))
                w))))) as (w' & Hs & Ho).
  rewrite Hs. eexists. split; [reflexivity|]. rewrite Ho. done.
Qed.

Lemma paste_redo__existing self w :
  is_empty (PasteCommand.nodes (fields self))
    && is_empty (PasteCommand.connections (fields self))
    && is_empty (PasteCommand.drawings (fields self)) = false →
  ∃ w', redo_ (self, w) = (Ok tt, (self, w')) ∧
    paste_obs (self, w') =
      (fields self,
       {| g_nodes := nodes (flow w) ∪ list_to_set (PasteCommand.nodes (fields self));
          g_connections :=
            connections (flow w) ∪ list_to_set (PasteCommand.connections (fields self));
          g_drawings :=
            scene_drawings (flow_view w) ∪ list_to_set (PasteCommand.drawings (fields self));
          g_pos := item_pos (flow_view w) |},
       next_node (flow w), next_drawing (flow_view w), heap w).
Proof.
  intros He. unfold redo_, PasteCommand.methods. mstep. rewrite He.
  unfold emit. mstep.
  destruct (paste_add_existing self (with_event add_existing_signal w)) as (w' & Ha & Ho).
  rewrite Ha. eexists. split; [reflexivity|]. rewrite Ho. done.
Qed.

Lemma load_connections_nil cds w : Flow.load_connections [] cds w = (Ok [], w).
Proof.
  induction cds as [|cd cds IH]; [done|].
  cbn. unfold mbind, M_bind, gets. by unfold Flow.resolve.
Qed.

Lemma paste_redo__nothing self w d :
  heap w !! PasteCommand.data (fields self) = Some d →
  data_nodes d = [] → data_drawings d = [] →
  PasteCommand.nodes (fields self) = [] →
  PasteCommand.connections (fields self) = [] →
  PasteCommand.drawings (fields self) = [] →
  ∃ self' w', redo_ (self, w) = (Ok tt, (self', w')) ∧
              paste_obs (self', w') = paste_obs (self, w).
Proof.
  intros Hh Hn Hd Hfn Hfc Hfd.
  unfold redo_, PasteCommand.methods, PasteCommand.create_drawings. mstep.
  rewrite Hfn, Hfc, Hfd. cbn [is_empty andb].
  rewrite (deref_gets _ _ _ _ Hh). cbn [fst snd]. rewrite Hd. cbn [for_].
  mstep. rewrite (deref_gets _ _ _ _ Hh). cbn [fst snd]. rewrite Hn.
  unfold Flow.load_components. cbn [Flow.load_nodes]. mstep.
  rewrite load_connections_nil. cbn [fst snd]. unfold emit. mstep.
  match goal with
  | |- context [PasteCommand.select_new_components_in_view (?s, ?w0)] =>
      destruct (paste_select_new s w0) as (w' & Hs & Ho); rewrite Hs
  end.
  eexists _, _. split; [reflexivity|].
  rewrite Ho. unfold paste_obs. cbn. repeat f_equal.
  destruct (fields self) as [dt ns cs ds]. cbn in *. by subst.
Qed.

Lemma paste_cycle self w :
  materialized self w →
  ∃ self' w', (undo_;; redo_) (self, w) = (Ok tt, (self', w')) ∧
              paste_obs (self', w') = paste_obs (self, w) ∧ materialized self' w'.
Proof.
  intros Hm.
  assert (Hkeep : ∀ self' w', paste_obs (self', w') = paste_obs (self, w) →
                              materialized self' w').
  { intros self' w' Ho. unfold paste_obs in Ho. cbn [fst snd] in Ho.
    injection Ho as Hf H1 H2 H3 H4 Hnn Hnd Hh. unfold materialized.
    rewrite Hf, Hh, H1, H2, H3. exact Hm. }
  destruct Hm as ((d & Hh & Hld & Hln) & Hnc & Hn & Hc & Hd).
  destruct (paste_undo_ self w) as (w1 & Hu & Ho1).
  rewrite (seq_ok _ _ _ _ Hu).
  destruct (is_empty (PasteCommand.nodes (fields self))
            && is_empty (PasteCommand.connections (fields self))
            && is_empty (PasteCommand.drawings (fields self))) eqn:He.
  - apply andb_prop in He as [He Hed]. apply andb_prop in He as [Hen Hec].
    destruct (PasteCommand.nodes (fields self)) eqn:Hfn; [|done].
    destruct (PasteCommand.connections (fields self)) eqn:Hfc; [|done].
    destruct (PasteCommand.drawings (fields self)) eqn:Hfd; [|done].
    assert (Ho1' : paste_obs (self, w1) = paste_obs (self, w)).
    { rewrite Ho1. unfold paste_obs. cbn. repeat f_equal.
      apply graph_eq; cbn; try done; set_tauto. }
    assert (Hh1 : heap w1 = heap w)
      by (unfold paste_obs in Ho1'; cbn [fst snd] in Ho1'; by injection Ho1').
    destruct (paste_redo__nothing self w1 d) as (self' & w' & Hr & Ho); try done.
    + by rewrite Hh1.
    + by destruct (data_nodes d).
    + by destruct (data_drawings d).
    + exists self', w'. split; [done|]. rewrite Ho, Ho1'. split; [done|].
      apply Hkeep. by rewrite Ho.
  - destruct (paste_redo__existing self w1 He) as (w2 & Hr & Ho2).
    exists self, w2. split; [done|].
    assert (Ho : paste_obs (self, w2) = paste_obs (self, w)).
    { rewrite Ho2. unfold paste_obs in Ho1. cbn [fst snd] in Ho1.
      injection Ho1 as H1 H2 H3 H4 Hnn Hnd Hh1.
      rewrite H1, H2, H3, H4, Hnn, Hnd, Hh1.
      unfold paste_obs. cbn. repeat f_equal.
      apply graph_eq; cbn; try done; by apply gset_difference_union. }
    split; [done|]. by apply Hkeep.
Qed.
End PasteCycle.


Section PasteFirst.
Implicit Types (self : FlowUndoCommand PasteCommand.t) (w : World).

Lemma create_drawings_body_has_pos d self w :
  has_pos d = true →
  ∃ self' w', PasteCommand.create_drawings_body d (self, w) = (Ok tt, (self', w')) ∧
    PasteCommand.data (fields self') = PasteCommand.data (fields self) ∧
    PasteCommand.nodes (fields self') = PasteCommand.nodes (fields self) ∧
    PasteCommand.connections (fields self') = PasteCommand.connections (fields self) ∧
    PasteCommand.drawings (fields self')
      = PasteCommand.drawings (fields self) ++ [next_drawing (flow_view w)] ∧
    scene_drawings (flow_view w')
      = scene_drawings (flow_view w) ∪ {[next_drawing (flow_view w)]} ∧
    flow w' = flow w ∧ heap w' = heap w.
Proof.
  unfold has_pos, PasteCommand.create_drawings_body, FlowView.create_drawing,
    FlowView.add_drawing, as_num. intros H.
  destruct (d !! "pos x") as [[x|]|]; try done.
  destruct (d !! "pos y") as [[y|]|]; try done.
  mstep. eexists _, _. split; [reflexivity|]. done.
Qed.

Lemma create_drawings_loop ds self w :
  forallb has_pos ds = true →
  ∃ self' w', for_ ds PasteCommand.create_drawings_body (self, w) = (Ok tt, (self', w')) ∧
    PasteCommand.data (fields self') = PasteCommand.data (fields self) ∧
    PasteCommand.nodes (fields self') = PasteCommand.nodes (fields self) ∧
    PasteCommand.connections (fields self') = PasteCommand.connections (fields self) ∧
    (∃ new, PasteCommand.drawings (fields self') = PasteCommand.drawings (fields self) ++ new ∧
            length new = length ds ∧
            list_to_set new ⊆ scene_drawings (flow_view w')) ∧
    scene_drawings (flow_view w) ⊆ scene_drawings (flow_view w') ∧
    flow w' = flow w ∧ heap w' = heap w.
Proof.
  revert self w. induction ds as [|d ds IH]; intros self w Hds.
  - exists self, w. split; [done|]. repeat split; try done.
    exists []. rewrite app_nil_r. repeat split; try done.
  - cbn in Hds. apply andb_prop in Hds as [Hd Hds].
    destruct (create_drawings_body_has_pos d self w Hd)
      as (s1 & w1 & Hb & Hdt & Hns & Hcs & Hdr & Hsc & Hfl & Hhp).
    destruct (IH s1 w1 Hds)
      as (s2 & w2 & Hl & Hdt2 & Hns2 & Hcs2 & (new & Hdr2 & Hlen & Hin) & Hsc2 & Hfl2 & Hhp2).
    exists s2, w2. split.
    { cbn [for_]. by rewrite (seq_ok _ _ _ _ Hb). }
    split; [congruence|]. split; [congruence|]. split; [congruence|]. split.
    { exists (next_drawing (flow_view w) :: new). split; [|split].
      - rewrite Hdr2, Hdr. by rewrite <- app_assoc.
      - cbn. by rewrite Hlen.
      - cbn. apply union_subseteq. split; [|done].
        apply singleton_subseteq_l. apply Hsc2. rewrite Hsc.
        rewrite elem_of_union, elem_of_singleton. by right. }
    split; [|split; congruence].
    etrans; [|exact Hsc2]. rewrite Hsc. apply union_subseteq_l.
Qed.

Lemma load_nodes_spec nds w :
  ∃ ns w', Flow.load_nodes nds w = (Ok ns, w') ∧
    length ns = length nds ∧
    list_to_set ns ⊆ nodes (flow w') ∧
    nodes (flow w) ⊆ nodes (flow w') ∧
    connections (flow w') = connections (flow w) ∧
    scene_drawings (flow_view w') = scene_drawings (flow_view w) ∧
    heap w' = heap w.
Proof.
  revert w. induction nds as [|nd nds IH]; intros w.
  - exists [], w. split; [done|]. repeat split; try done; set_tauto.
  - destruct (IH (with_view (view_pos
      <[NodeItem (next_node (flow w))
        := (num_or_0 (nd_dict nd !! "pos x"), num_or_0 (nd_dict nd !! "pos y"))]>)
      (with_flow (Flow.build_node (nd_inputs nd) (nd_outputs nd)) w)))
      as (ns & w' & Hl & Hlen & Hin & Hmono & Hc & Hd & Hh).
    exists (next_node (flow w) :: ns), w'. split.
    { cbn [Flow.load_nodes]. unfold Flow.load_node. mstep. rewrite Hl. done. }
    cbn in Hmono, Hc, Hd, Hh.
    split; [cbn; by rewrite Hlen|]. split; [|split; [|done]].
    + cbn. apply union_subseteq. split; [|done].
      apply singleton_subseteq_l. apply Hmono.
      rewrite elem_of_union, elem_of_singleton. by right.
    + etrans; [|exact Hmono]. apply union_subseteq_l.
Qed.

Lemma load_connections_spec ns cds w :
  ∃ cs w', Flow.load_connections ns cds w = (Ok cs, w') ∧
    list_to_set cs ⊆ connections (flow w') ∧
    connections (flow w) ⊆ connections (flow w') ∧
    nodes (flow w') = nodes (flow w) ∧
    flow_view w' = flow_view w ∧
    heap w' = heap w ∧
    (ns = [] → cs = []).
Proof.
  revert w. induction cds as [|cd cds IH]; intros w.
  - exists [], w. split; [done|]. repeat split; try done; set_tauto.
  - cbn [Flow.load_connections]. mstep.
    destruct (Flow.resolve (flow w) ns cd) as [c|] eqn:Hres.
    + unfold Flow.add_connection, mbind, M_bind, modify, mret, M_ret. cbn [fst snd].
      destruct (IH (with_flow (flow_connections (λ s, s ∪ {[c]})) w))
        as (cs & w' & Hl & Hin & Hmono & Hn & Hv & Hh & Hnil).
      rewrite Hl. exists (c :: cs), w'. split; [done|].
      cbn in Hmono, Hn, Hv, Hh. split; [|split; [|split; [done|split; [done|split]]]].
      * cbn. apply union_subseteq. split; [|done].
        apply singleton_subseteq_l. apply Hmono.
        rewrite elem_of_union, elem_of_singleton. by right.
      * etrans; [|exact Hmono]. apply union_subseteq_l.
      * done.
      * intros ->. unfold Flow.resolve in Hres. done.
    + destruct (IH w) as (cs & w' & Hl & Hrest). rewrite Hl. by exists cs, w'.
Qed.
End PasteFirst.


Lemma times_returns {S} (cyc : M S unit) (Inv : S → Prop) :
  (∀ s, Inv s → returns (cyc s) = true ∧ Inv (cyc s).2) →
  ∀ n s, Inv s → returns (times n cyc s) = true ∧ Inv (times n cyc s).2.
Proof.
  intros Hc n. induction n as [|n IH]; intros s Hs; [done|].
  cbn. unfold mbind, M_bind. destruct (Hc s Hs) as [Hr Hinv].
  destruct (cyc s) as [[[]|e] s'] eqn:E; cbn in *; [|done].
  by apply IH.
Qed.

Section PasteFirst2.
Implicit Types (self : FlowUndoCommand PasteCommand.t) (w : World).

Lemma paste_redo__first self w d :
  heap w !! PasteCommand.data (fields self) = Some d →
  data_has_pos d = true →
  PasteCommand.nodes (fields self) = [] →
  PasteCommand.connections (fields self) = [] →
  PasteCommand.drawings (fields self) = [] →
  ∃ self' w', redo_ (self, w) = (Ok tt, (self', w')) ∧ materialized self' w'.
Proof.
  intros Hh Hpos Hfn Hfc Hfd. apply andb_prop in Hpos as [Hposn Hposd].
  unfold redo_, PasteCommand.methods, PasteCommand.create_drawings. mstep.
  rewrite Hfn, Hfc, Hfd. cbn [is_empty andb].
  rewrite (deref_gets _ _ _ _ Hh). cbn [fst snd].
  destruct (create_drawings_loop (data_drawings d) self w Hposd)
    as (s1 & w1 & Hl & Hdt & Hns & Hcs & (new & Hdr & Hlen & Hin) & Hsc & Hfl & Hhp).
  rewrite Hl. cbn [fst snd].
  assert (Hh1 : heap w1 !! PasteCommand.data (fields s1) = Some d) by (by rewrite Hhp, Hdt).
  rewrite (deref_gets _ _ _ _ Hh1). cbn [fst snd].
  unfold Flow.load_components. mstep.
  destruct (load_nodes_spec (data_nodes d) w1)
    as (ns & w2 & Hln & Hlenn & Hnin & Hnmono & Hnc & Hnd & Hnh).
  rewrite Hln.
  destruct (load_connections_spec ns (data_connections d) w2)
    as (cs & w3 & Hlc & Hcin & Hcmono & Hcn & Hcv & Hch & Hcnil).
  rewrite Hlc. cbn [fst snd]. unfold emit. mstep.
  match goal with
  | |- context [PasteCommand.select_new_components_in_view (?s, ?w0)] =>
      destruct (paste_select_new s w0) as (w4 & Hs & Ho); rewrite Hs
  end.
  eexists _, _. split; [reflexivity|].
  unfold paste_obs in Ho. cbn [fst snd] in Ho.
  injection Ho as H1 H2 H3 H4 Hnn Hnd' Hh4. cbn in H1, H2, H3, Hh4.
  unfold materialized. cbn. rewrite H1, H2, H3, Hh4.
  split; [|split; [done|split; [|split; [done|]]]].
  - exists d. rewrite Hch, Hnh. split; [exact Hh1|].
    rewrite Hdr, Hfd. cbn. by rewrite Hlen.
  - by rewrite Hcn.
  - rewrite Hcv, Hnd, Hdr, Hfd. done.
Qed.

Lemma shift_returns_has_pos offset (d d' : gmap string Value) :
  PasteCommand.shift offset d = (Ok tt, d') → has_pos d' = true.
Proof.
  unfold PasteCommand.shift, getitem, setitem, add_num, has_pos. mstep.
  destruct (d !! "pos x") as [[x|]|]; try done.
  cbn. rewrite lookup_insert_ne by done.
  destruct (d !! "pos y") as [[y|]|] eqn:Hy; try done.
  cbn. intros [= <-]. rewrite lookup_insert_ne by done. rewrite lookup_insert_eq.
  by rewrite lookup_insert_eq.
Qed.

Lemma for_each_returns {A} (body : M A unit) (P : A → bool) (l l' : list A) :
  (∀ x x', body x = (Ok tt, x') → P x' = true) →
  for_each body l = (Ok tt, l') → forallb P l' = true.
Proof.
  intros Hb. revert l'. induction l as [|x l IH]; intros l'; cbn.
  - by intros [= <-].
  - destruct (body x) as [[[]|e] x'] eqn:Hx; [|done].
    destruct (for_each body l) as [[[]|e] l''] eqn:Hl; [|done].
    intros [= <-]. cbn. rewrite (Hb _ _ Hx). by apply IH.
Qed.

Lemma shift_data_returns_has_pos offset (d d' : PasteData) :
  PasteCommand.shift_data offset d = (Ok tt, d') → data_has_pos d' = true.
Proof.
  unfold PasteCommand.shift_data, data_has_pos.
  destruct (for_each (PasteCommand.shift_node offset) (data_nodes d))
    as [[[]|e] ns] eqn:Hn; [|done].
  destruct (for_each (PasteCommand.shift offset) (data_drawings d))
    as [[[]|e] ds] eqn:Hd; [|done].
  intros [= <-]. cbn. apply andb_true_intro. split.
  - apply (for_each_returns _ (λ nd, has_pos (nd_dict nd)) _ _) in Hn; [done|].
    intros x x'. unfold PasteCommand.shift_node.
    destruct (PasteCommand.shift offset (nd_dict x)) as [[[]|e] dx] eqn:Hx; [|done].
    intros [= <-]. cbn. by apply (shift_returns_has_pos offset (nd_dict x)).
  - apply (for_each_returns _ has_pos _ _) in Hd; [done|].
    intros x x'. apply shift_returns_has_pos.
Qed.

Lemma paste_init_returns w data offset cmd w' :
  PasteCommand.__init__ data offset w = (Ok cmd, w') →
  cmd = pasted data ∧ _any_cmd_active w' = _any_cmd_active w ∧
  ∃ d, heap w' !! data = Some d ∧ data_has_pos d = true.
Proof.
  unfold PasteCommand.__init__, PasteCommand.modify_data_positions, deref. mstep.
  cbn [fields PasteCommand.data __init__].
  destruct (heap w !! data) as [d0|] eqn:Hh; [|done].
  destruct (PasteCommand.shift_data offset d0) as [[[]|e] d1] eqn:Hs; [|done].
  cbn. intros [= <- <-]. split; [done|]. split; [done|].
  exists d1. cbn. rewrite lookup_insert_eq. split; [done|].
  by apply (shift_data_returns_has_pos offset d0).
Qed.

Lemma paste_inverse_law w data offset cmd w' :
  _any_cmd_active w = false →
  PasteCommand.__init__ data offset w = (Ok cmd, w') →
  inverse_law cmd w'.
Proof.
  intros Hg Hinit.
  destruct (paste_init_returns _ _ _ _ _ Hinit) as (-> & Hg' & d & Hh & Hpos).
  rewrite Hg in Hg'.
  apply (inverse_law_intro _ _ (λ s, materialized s.1 s.2)).
  - rewrite activate_runs by done.
    destruct (paste_redo__first (mark_activated (pasted data)) (with_guard true w') d)
      as (self' & w'' & Hr & Hm); try done.
    rewrite (guarded_returns _ _ _ _ _ Hr). exact Hm.
  - intros [self w''] Hm. cbn [fst snd] in *.
    destruct (paste_cycle self w'' Hm) as (self' & w3 & -> & Ho & Hm').
    cbn [fst snd]. split; [|done].
    unfold paste_obs in Ho. cbn [fst snd] in Ho.
    injection Ho as Hf H1 H2 H3 H4 Hnn Hnd Hh'. by apply graph_eq.
Qed.
End PasteFirst2.

(** *** Paste, again and again *)


Section PasteAgain.
Implicit Types (self : FlowUndoCommand PasteCommand.t) (w : World).

Lemma paste_redo__takes_existing self w :
  is_empty (PasteCommand.nodes (fields self))
    && is_empty (PasteCommand.connections (fields self))
    && is_empty (PasteCommand.drawings (fields self)) = false →
  redo_ (self, w)
  = (on_world (emit add_existing_signal);; PasteCommand.add_existing_components) (self, w).
Proof. intros He. unfold redo_, PasteCommand.methods. mstep. by rewrite He. Qed.

Lemma paste_undo__fields self w : fields (undo_ (self, w)).2.1 = fields self.
Proof. destruct (paste_undo_ self w) as (w' & -> & _). done. Qed.

(** C6, as amended: for every paste command, the first [redo_] materializes
    its data; after it, any number of [undo_(); redo_()] returns with the
    same instance lists, the same graph (every instance in it once: nodes,
    connections and drawings are sets), no new node or drawing identity
    taken and the data unchanged.  [undo_] keeps the instance lists, and
    when the first [redo_] created an instance, each later [redo_] is the
    re-adding of the existing components and parses nothing.  (When it
    created none, the lists are empty and a later [redo_] takes the creating
    branch again.) *)
Theorem C6_paste_rematerialization w data offset cmd w' n :
  PasteCommand.__init__ data offset w = (Ok cmd, w') →
  let first := redo_ (cmd, w') in
  let again := times n (undo_;; redo_) first.2 in
  returns first = true ∧
  returns again = true ∧
  paste_obs again.2 = paste_obs first.2 ∧
  materialized again.2.1 again.2.2 ∧
  fields (undo_ again.2).2.1 = fields first.2.1 ∧
  (is_empty (PasteCommand.nodes (fields first.2.1))
     && is_empty (PasteCommand.connections (fields first.2.1))
     && is_empty (PasteCommand.drawings (fields first.2.1)) = false →
   redo_ (undo_ again.2).2
   = (on_world (emit add_existing_signal);; PasteCommand.add_existing_components)
       (undo_ again.2).2).
Proof.
  intros Hinit first again.
  destruct (paste_init_returns _ _ _ _ _ Hinit) as (-> & Hg' & d & Hh & Hpos).
  destruct (paste_redo__first (pasted data) w' d) as (self1 & w1 & Hr & Hm); try done.
  assert (Hfirst : first = (Ok tt, (self1, w1))) by done.
  clearbody first. subst first. cbn [fst snd] in again.
  pose (Inv := λ s : FlowUndoCommand PasteCommand.t * World,
                 materialized s.1 s.2 ∧ paste_obs s = paste_obs (self1, w1)).
  assert (Hcyc : ∀ s, Inv s → returns ((undo_;; redo_) s) = true ∧ Inv ((undo_;; redo_) s).2).
  { intros [self w0] [Hm0 Ho0]. cbn [fst snd] in *.
    destruct (paste_cycle self w0 Hm0) as (self' & w0' & -> & Ho & Hm').
    split; [done|]. split; [done|]. cbn [snd]. by rewrite Ho. }
  destruct (times_returns _ Inv Hcyc n (self1, w1)) as (Hret & Hm2 & Ho2); [by split|].
  fold again in Hret, Hm2, Ho2.
  assert (Hf : fields again.2.1 = fields self1).
  { unfold paste_obs in Ho2. cbn [fst snd] in Ho2. by injection Ho2. }
  split; [done|]. split; [done|]. split; [done|]. split; [done|]. cbn [fst snd].
  destruct again.2 as [self2 w2] eqn:Ha. cbn [fst snd] in *.
  split; [by rewrite paste_undo__fields|].
  intros He. destruct (paste_undo_ self2 w2) as (w3 & -> & _). cbn [snd].
  apply paste_redo__takes_existing. by rewrite Hf.
Qed.
End PasteAgain.

(** C1, as amended: for every command type (PlaceNode, PlaceDrawing, Select,
    RemoveComponents, ConnectPorts, Paste, and Move when the two
    displacements of a cycle, by [p_from] and then by [p_to - p_from], bring
    each of its items back to the position the activation left it at), after
    constructing the command and activating it while no other command is
    active, [undo_()] followed by [redo_()], any number of times, leaves the
    same nodes, the same connections, the same drawings and the same item
    positions as the activation left.  The condition on Move is on the sums
    the code computes; the proof uses no law of the arithmetic of the
    coordinates. *)
Theorem C1_inverse_law (w : World) :
  _any_cmd_active w = false →
  (∀ items_list p_from p_to,
     (∀ it, it ∈ items_list →
        let y := pos_of (flow_view
                   (activate false
                      (MoveComponentsCommand.__init__ items_list p_from p_to, w)).2.2) it in
        cycle_displaced p_from p_to y = y) →
     inverse_law (MoveComponentsCommand.__init__ items_list p_from p_to) w) ∧
  (∀ node_class pos,
     inverse_law (PlaceNodeCommand.__init__ (flow_view w) node_class pos) w) ∧
  (∀ posF drawing drawing_call,
     inverse_law (PlaceDrawingCommand.__init__ (flow_view w) posF drawing drawing_call) w) ∧
  (∀ new_items prev_items,
     inverse_law (SelectComponentsCommand.__init__ new_items prev_items) w) ∧
  (∀ items silent,
     inverse_law (RemoveComponentsCommand.__init__ w items silent) w) ∧
  (∀ out inp silent,
     inverse_law (ConnectPortsCommand.__init__ w out inp silent) w) ∧
  (∀ data offset w0 cmd,
     PasteCommand.__init__ data offset w0 = (Ok cmd, w) → inverse_law cmd w).
Proof.
  intros Hg.
  split; [intros; by apply move_inverse_law|].
  split; [intros; by apply place_node_inverse_law|].
  split; [intros; by apply place_drawing_inverse_law|].
  split; [intros; by apply select_inverse_law|].
  split; [intros; by apply remove_inverse_law|].
  split; [intros; by apply connect_ports_inverse_law|].
  intros data offset w0 cmd Hinit.
  apply (paste_inverse_law w0 data offset); [|done].
  destruct (paste_init_returns _ _ _ _ _ Hinit) as (_ & Hg' & _). congruence.
Qed.

(** C1, as stated, fails for a move command whose [p_to] is not the origin:
    one [undo_(); redo_()] after the activation leaves the item moved by
    [p_to]. *)
Lemma C1_move_counterexample :
  let cmd := MoveComponentsCommand.__init__ [NodeItem 0] origin (1, 1)%Z in
  let activated := activate false (cmd, empty_world) in
  let cycled := times 1 (undo_;; redo_) activated.2 in
  _any_cmd_active empty_world = false ∧
  returns activated = true ∧
  returns cycled = true ∧
  g_pos (graph_of activated.2.2) !! NodeItem 0 = Some origin ∧
  g_pos (graph_of cycled.2.2) !! NodeItem 0 = Some (1, 1)%Z ∧
  ¬ inverse_law cmd empty_world.
Proof.
  repeat split. intros H. specialize (H 1).
  apply (f_equal (λ g, g_pos g !! NodeItem 0)) in H. discriminate H.
Qed.

(** ** The properties on sample states *)


Lemma abc_flow_wf : flow_wf abc_flow.
Proof. apply (bool_decide_unpack _). vm_compute. exact I. Defined.

Lemma C1_witness :
  let remove := RemoveComponentsCommand.__init__ abc_world [NodeItem 1] false in
  let move := MoveComponentsCommand.__init__ [NodeItem 1] (-3, -4)%Z origin in
  let removed := (activate false (remove, abc_world)).2 in
  let moved := (activate false (move, abc_world)).2 in
  graph_of (times 2 (undo_;; redo_) removed).2.2 = graph_of removed.2 ∧
  graph_of (times 2 (undo_;; redo_) moved).2.2 = graph_of moved.2.
Proof.
  pose proof (C1_inverse_law abc_world eq_refl) as (Hmove & _ & _ & _ & Hremove & _).
  assert (Hcancel : ∀ it, it ∈ [NodeItem 1] →
            let y := pos_of (flow_view
                       (activate false
                          (MoveComponentsCommand.__init__ [NodeItem 1] (-3, -4)%Z origin,
                           abc_world)).2.2) it in
            cycle_displaced (-3, -4)%Z origin y = y).
  { intros it Hin. apply list_elem_of_singleton in Hin as ->. reflexivity. }
  split.
  - exact (Hremove [NodeItem 1] false 2).
  - exact (Hmove [NodeItem 1] (-3, -4)%Z origin Hcancel 2).
Defined.

Lemma C2_witness :
  let cmd := fields (RemoveComponentsCommand.__init__ abc_world [NodeItem 1] false) in
  Flow.connection_info (out0 0, inp0 1) ∈ RemoveComponentsCommand.broken_connections cmd ∧
  Flow.connection_info (out0 1, inp0 2) ∈ RemoveComponentsCommand.broken_connections cmd ∧
  (RemoveComponentsCommand.internal_connections cmd
     ## RemoveComponentsCommand.broken_connections cmd).
Proof.
  pose proof (C2_remove_partition abc_world [NodeItem 1] false abc_flow_wf)
    as (_ & _ & Hbroken & Hdisj & _).
  split; [|split].
  - apply (Hbroken (out0 0) (inp0 1)).
    + apply (bool_decide_unpack _). vm_compute. exact I.
    + right. split; apply (bool_decide_unpack _); vm_compute; exact I.
  - apply (Hbroken (out0 1) (inp0 2)).
    + apply (bool_decide_unpack _). vm_compute. exact I.
    + left. split; apply (bool_decide_unpack _); vm_compute; exact I.
  - exact Hdisj.
Defined.

Lemma C5_witness :
  let c1 := ConnectPortsCommand.__init__ abc_world (out0 0) (inp0 2) false in
  let r1 := redo_ (c1, abc_world) in
  let c2 := ConnectPortsCommand.__init__ r1.2.2 (out0 0) (inp0 2) false in
  let r2 := redo_ (c2, r1.2.2) in
  ConnectPortsCommand.connecting (fields c1) = true ∧
  connections (flow r1.2.2) = connections (flow abc_world) ∪ {[(out0 0, inp0 2)]} ∧
  ConnectPortsCommand.connecting (fields c2) = false ∧
  connections (flow r2.2.2) = connections (flow abc_world).
Proof.
  assert (H : (out0 0, inp0 2) ∉ connections (flow abc_world))
    by (apply (bool_decide_unpack _); vm_compute; exact I).
  pose proof (C5_connect_toggle abc_world (out0 0) (inp0 2) false H)
    as (_ & H1 & _ & H2 & _ & _ & H3 & _ & H4 & _).
  exact (conj H1 (conj H2 (conj H3 H4))).
Defined.

Lemma C6_witness :
  let init := PasteCommand.__init__ 7 (10, 10)%Z clipboard_world in
  let first := redo_ (pasted 7, init.2) in
  let again := times 2 (undo_;; redo_) first.2 in
  returns first = true ∧ returns again = true ∧ paste_obs again.2 = paste_obs first.2.
Proof.
  pose proof (C6_paste_rematerialization clipboard_world 7 (10, 10)%Z (pasted 7)
                (PasteCommand.__init__ 7 (10, 10)%Z clipboard_world).2 2 eq_refl)
    as (H1 & H2 & H3 & _).
  exact (conj H1 (conj H2 H3)).
Defined.

(** C6, as stated, fails for a paste that creates nothing: with data that
    holds no descriptor the instance lists stay empty, so the [redo_] after
    an [undo_] is not the re-adding of existing components: it takes the
    creating branch, and signals [add_new_signal], a second time. *)
Lemma C6_empty_paste_counterexample :
  let nothing := {| data_nodes := []; data_connections := []; data_drawings := [] |} in
  let init := PasteCommand.__init__ 7 (10, 10)%Z
                (with_heap (λ _, {[7 := nothing]}) empty_world) in
  let first := redo_ (pasted 7, init.2) in
  let undone := undo_ first.2 in
  let second := redo_ undone.2 in
  init.1 = Ok (pasted 7) ∧ first.1 = Ok tt ∧ undone.1 = Ok tt ∧ second.1 = Ok tt ∧
  fields first.2.1 = fields (pasted 7) ∧
  events first.2.2 = [add_new_signal] ∧
  events second.2.2 = [add_new_signal; add_new_signal] ∧
  second ≠ (on_world (emit add_existing_signal);; PasteCommand.add_existing_components)
             undone.2.
Proof.
  split; [reflexivity|]. split; [reflexivity|]. split; [reflexivity|].
  split; [reflexivity|]. split; [reflexivity|]. split; [reflexivity|].
  split; [reflexivity|].
  intros H. apply (f_equal (λ r, events r.2.2)) in H. discriminate H.
Qed.

Lemma C9_witness :
  PortItem.port port_item_B restructured_world = (Ok None, restructured_world) ∧
  PortItem.update (port_item_B, restructured_world) = (Ok tt, (port_item_B, restructured_world)) ∧
  PortItemPin.set_state CONNECTED true (PortItem.pin port_item_B, restructured_world)
    = (Raise (AttributeError "'NoneType' object has no attribute 'node'"),
       (PortItem.pin port_item_B, restructured_world)).
Proof.
  assert (Hlen : length (port_list (flow restructured_world) (PortItem.node port_item_B)
                           (PortItem._is_input port_item_B))
                 ≤ PortItem._port_index port_item_B) by (vm_compute; lia).
  pose proof (C9_missing_port abc_flow 1 (PInput (inp0 1)) port_item_B restructured_world
                CONNECTED true eq_refl Hlen) as (H1 & _ & H2 & _ & H3 & _).
  exact (conj H1 (conj H2 H3)).
Defined.

Lemma C10_witness :
  let w1 := with_heap <[7 := shifted_data (10, 10)%Z sample_data]> clipboard_world in
  PasteCommand.__init__ 7 (10, 10)%Z clipboard_world = (Ok (pasted 7), w1) ∧
  heap w1 !! 7 = Some (shifted_data (10, 10)%Z sample_data) ∧
  PasteCommand.__init__ 7 (10, 10)%Z w1
    = (Ok (pasted 7),
       with_heap <[7 := shifted_data (10, 10)%Z (shifted_data (10, 10)%Z sample_data)]> w1).
Proof.
  pose proof (C10_paste_shifts_callers_data clipboard_world 7 sample_data (10, 10)%Z
                (10, 10)%Z eq_refl eq_refl) as (H1 & _ & H2 & H3 & _).
  exact (conj H1 (conj H2 H3)).
Defined.

(** * Further properties *)

(** ** More on the guard *)

Section GuardLocked.
Context {F G : Type} `{!Methods F} `{!Methods G}.

(** X2: an exception from the logic of [redo()] or [undo()] reaches the caller
    with the guard flag still set; from then on [redo()] and [undo()] of every
    command are rejected (with the diagnostic, or silently for [redo()] on a
    command not activated) and run no logic. *)
Theorem exception_locks_commands (self self' : FlowUndoCommand F)
    (other : FlowUndoCommand G) (w w' : World) (e : Exn) (undoing : bool) :
  _any_cmd_active w = false →
  (undoing = false → _activated self = true) →
  (if undoing then undo_ else redo_) (self, with_guard true w) = (Raise e, (self', w')) →
  _any_cmd_active w' = true →
  (if undoing then undo else redo) (self, w) = (Raise e, (self', w')) ∧
  undo (other, w') = (Ok tt, (other, with_stderr (write_err undo_msg) w')) ∧
  redo (other, w')
    = (Ok tt, (other, if _activated other then with_stderr (write_err redo_msg) w' else w')).
Proof.
  intros Hg Ha Hr Hg'. split; [|split].
  - destruct undoing.
    + rewrite undo_runs by done. by apply guarded_raises.
    + rewrite redo_runs by auto. by apply guarded_raises.
  - by apply undo_rejected.
  - by apply redo_rejected.
Qed.

End GuardLocked.

Lemma exception_locks_commands_witness :
  let cmd := mark_activated (PlaceNodeCommand.__init__ empty_view failing_class origin) in
  let other := SelectComponentsCommand.__init__ [NodeItem 1] [] in
  let w' := with_stderr (print_exc (NodeInitError "init")) (with_guard true empty_world) in
  redo (cmd, empty_world) = (Raise (NodeInitError "init"), (cmd, w')) ∧
  undo (other, w') = (Ok tt, (other, with_stderr (write_err undo_msg) w')).
Proof.
  pose proof (exception_locks_commands
    (mark_activated (PlaceNodeCommand.__init__ empty_view failing_class origin))
    (mark_activated (PlaceNodeCommand.__init__ empty_view failing_class origin))
    (SelectComponentsCommand.__init__ [NodeItem 1] [])
    empty_world
    (with_stderr (print_exc (NodeInitError "init")) (with_guard true empty_world))
    (NodeInitError "init") false eq_refl (λ _, eq_refl) eq_refl eq_refl) as (H1 & H2 & _).
  exact (conj H1 H2).
Defined.

(** ** More on [MoveComponentsCommand] *)

Section MoveMore.
Local Arguments shift_items : simpl never.
Import MoveComponentsCommand.
Implicit Types (self : FlowUndoCommand MoveComponentsCommand.t) (w : World) (v : FlowView).

Lemma pos_of_shift_items items d v it :
  pos_of (shift_items items d v) it
  = if decide (it ∈ items) then padd (pos_of v it) d else pos_of v it.
Proof.
  unfold pos_of at 1. rewrite shift_items_lookup. by destruct (decide (it ∈ items)).
Qed.

(** X4: [undo_] moves every item of the command by [p_from] (a displacement: the
    new group stands at the origin), leaves the other items, and records
    [p_from] as the group's last position. *)
Theorem move_undo_displaces self w :
  let r := undo_ (self, w) in
  r.1 = Ok tt ∧
  last_item_group_pos (fields r.2.1) = p_from (fields self) ∧
  items_list (fields r.2.1) = items_list (fields self) ∧
  (∀ it, pos_of (flow_view r.2.2) it
         = if decide (it ∈ items_list (fields self))
           then padd (pos_of (flow_view w) it) (p_from (fields self))
           else pos_of (flow_view w) it).
Proof.
  cbn zeta. rewrite move_undo_. cbn [fst snd]. repeat split.
  intros it. cbn. rewrite pos_of_shift_items.
  destruct (decide (it ∈ _)); [|done].
  f_equal. destruct (p_from (fields self)). unfold psub, origin. cbn. f_equal; lia.
Qed.

End MoveMore.

(** ** More on [PlaceNodeCommand] *)

Section PlaceNodeMore.
Implicit Types (self : FlowUndoCommand PlaceNodeCommand.t) (w : World).

Lemma place_node_redo__creates w cls pos :
  init_raises cls = None →
  let cmd := PlaceNodeCommand.__init__ (flow_view w) cls pos in
  let n := next_node (flow w) in
  ∃ w', redo_ (cmd, w) = (Ok tt, (PlaceNodeCommand.placed n cmd, w')) ∧
        graph_of w' = {| g_nodes := nodes (flow w) ∪ {[n]};
                         g_connections := connections (flow w);
                         g_drawings := scene_drawings (flow_view w);
                         g_pos := item_pos (flow_view w) |} ∧
        next_node (flow w') = S n ∧
        _current_selected (flow_view w') = _current_selected (flow_view w).
Proof.
  intros Hc. cbn zeta.
  unfold redo_, PlaceNodeCommand.methods, PlaceNodeCommand.redo_with, try_except. mstep. cbn [fields PlaceNodeCommand.node PlaceNodeCommand.__init__ __init__].
  unfold Flow.create_node. cbn [PlaceNodeCommand.node_class]. rewrite Hc.
  unfold PlaceNodeCommand.node_placed_emit, PlaceNodeCommand.on_node_placed, emit. mstep.
  eexists. split; [reflexivity|]. by repeat split.
Qed.

Lemma place_node_redo__keeps_counter self w n :
  PlaceNodeCommand.node (fields self) = Some n →
  ∃ w', redo_ (self, w) = (Ok tt, (PlaceNodeCommand.placed n self, w')) ∧
        nodes (flow w') = nodes (flow w) ∪ {[n]} ∧
        next_node (flow w') = next_node (flow w).
Proof.
  intros Hn. unfold redo_, PlaceNodeCommand.methods, PlaceNodeCommand.redo_with, try_except. mstep. rewrite Hn.
  unfold Flow.add_node, PlaceNodeCommand.node_placed_emit, PlaceNodeCommand.on_node_placed, emit. mstep.
  eexists. split.
  - f_equal. f_equal.
    unfold PlaceNodeCommand.placed, PlaceNodeCommand.set_node. destruct self as [a t [c nd p s]]. cbn in *. by subst.
  - done.
Qed.

Lemma place_node_undo__keeps_counter self w n :
  PlaceNodeCommand.node (fields self) = Some n →
  ∃ w', undo_ (self, w) = (Ok tt, (self, w')) ∧
        next_node (flow w') = next_node (flow w).
Proof.
  intros Hn. unfold undo_, PlaceNodeCommand.methods, PlaceNodeCommand.remove_node. mstep. rewrite Hn.
  unfold Flow.remove_node, FlowView.select_items. mstep.
  eexists. split; [reflexivity|]. done.
Qed.

(** X6: a node is created once: the first [redo_] of a command whose class can be
    instantiated creates the node and keeps it, and every later [redo_]
    (after an [undo_]) adds that same node again; the flow hands out no
    further node identity. *)
Theorem place_node_created_once w cls pos k :
  init_raises cls = None →
  let cmd := PlaceNodeCommand.__init__ (flow_view w) cls pos in
  let n := next_node (flow w) in
  let first := redo_ (cmd, w) in
  let again := times k (undo_;; redo_) first.2 in
  first.1 = Ok tt ∧ first.2.1 = PlaceNodeCommand.placed n cmd ∧
  returns again = true ∧ again.2.1 = PlaceNodeCommand.placed n cmd ∧
  n ∈ nodes (flow again.2.2) ∧ next_node (flow again.2.2) = S n.
Proof.
  intros Hc. cbn zeta.
  destruct (place_node_redo__creates w cls pos Hc) as (w1 & Hr & Hg & Hnext & _).
  cbn zeta in Hr. rewrite Hr. cbn [fst snd]. split; [done|]. split; [done|].
  set (cmd := PlaceNodeCommand.__init__ (flow_view w) cls pos) in *.
  set (n := next_node (flow w)) in *.
  assert (Hn1 : n ∈ nodes (flow w1)).
  { apply (f_equal g_nodes) in Hg. cbn in Hg. rewrite Hg.
    rewrite elem_of_union, elem_of_singleton. by right. }
  clear Hr Hg. revert w1 Hnext Hn1. induction k as [|k IH]; intros w1 Hnext Hn1; [done|].
  cbn [times].
  destruct (place_node_undo__keeps_counter (PlaceNodeCommand.placed n cmd) w1 n eq_refl) as (w2 & Hu & Hk2).
  destruct (place_node_redo__keeps_counter (PlaceNodeCommand.placed n cmd) w2 n eq_refl)
    as (w3 & Hr & Hn3 & Hk3).
  assert (Hcyc : (undo_;; redo_) (PlaceNodeCommand.placed n cmd, w1) = (Ok tt, (PlaceNodeCommand.placed n cmd, w3))).
  { rewrite (seq_ok _ _ _ _ Hu). by rewrite Hr. }
  rewrite (seq_ok _ _ _ _ Hcyc). apply IH.
  - by rewrite Hk3, Hk2.
  - rewrite Hn3. rewrite elem_of_union, elem_of_singleton. by right.
Qed.


End PlaceNodeMore.

Lemma place_node_created_once_witness :
  let cmd := PlaceNodeCommand.__init__ (flow_view abc_world)
               {| init_inputs := 1; init_outputs := 1; init_raises := None |} origin in
  let again := times 2 (undo_;; redo_) (redo_ (cmd, abc_world)).2 in
  returns again = true ∧ again.2.1 = PlaceNodeCommand.placed 3 cmd ∧
  next_node (flow again.2.2) = 4.
Proof.
  pose proof (place_node_created_once abc_world
                {| init_inputs := 1; init_outputs := 1; init_raises := None |} origin 2
                eq_refl) as (_ & _ & H1 & H2 & _ & H3).
  exact (conj H1 (conj H2 H3)).
Defined.


(** ** More on [PlaceDrawingCommand] *)

Section PlaceDrawingMore.
Import PlaceDrawingCommand.
Implicit Types (self : FlowUndoCommand PlaceDrawingCommand.t) (w : World).

(** X8: [undo_] records where the drawing stands and [redo_] puts it back there:
    after [undo_(); redo_()] the drawing is on the scene at the position it
    had before, wherever it had been moved since it was placed, and not at
    the position it was placed at first. *)
Theorem place_drawing_restores_position self w label :
  drawing_call (fields self) true = Ok label →
  let d := DrawingObject (drawing (fields self)) in
  let r := (undo_;; redo_) (self, w) in
  r.1 = Ok tt ∧
  drawing (fields self) ∈ scene_drawings (flow_view r.2.2) ∧
  pos_of (flow_view r.2.2) d = pos_of (flow_view w) d ∧
  drawing_obj_pos (fields r.2.1) = pos_of (flow_view w) d ∧
  drawing_obj_place_pos (fields r.2.1) = drawing_obj_place_pos (fields self) ∧
  text r.2.1 = label.
Proof.
  intros Hcall. cbn zeta.
  unfold undo_, redo_, methods, FlowView.remove_component, FlowView.remove_drawing,
    FlowView.select_items, FlowView.add_drawing.
  mstep. cbn [fields set_drawing_obj_pos drawing drawing_call drawing_obj_pos].
  rewrite Hcall. cbn. repeat split.
  - rewrite elem_of_union, elem_of_singleton. by right.
  - unfold pos_of at 1. cbn. by rewrite lookup_insert_eq.
Qed.

End PlaceDrawingMore.

Lemma place_drawing_restores_position_witness :
  let cmd := PlaceDrawingCommand.__init__ empty_view (5, 5)%Z 0 (λ _, Ok "Drawing") in
  let w := with_view (view_pos <[DrawingObject 0 := (40, 2)%Z]>) empty_world in
  let r := (undo_;; redo_) (cmd, w) in
  r.1 = Ok tt ∧ pos_of (flow_view r.2.2) (DrawingObject 0) = (40, 2)%Z.
Proof.
  pose proof (place_drawing_restores_position
    (PlaceDrawingCommand.__init__ empty_view (5, 5)%Z 0 (λ _, Ok "Drawing"))
    (with_view (view_pos <[DrawingObject 0 := (40, 2)%Z]>) empty_world)
    "Drawing" eq_refl) as (H1 & _ & H2 & _).
  exact (conj H1 H2).
Defined.

(** ** More on [ConnectPortsCommand] *)

Section ConnectPortsMore.
Import ConnectPortsCommand.

(** X9: [undo_] takes back what [redo_] did, in both modes: [redo_] followed by
    [undo_] leaves the graph as it was when the command was constructed.  The
    text [redo_] sets names the mode. *)
Theorem connect_ports_redo_undo w o i s :
  let cmd := __init__ w o i s in
  let r := (redo_;; undo_) (cmd, w) in
  r.1 = Ok tt ∧ graph_of r.2.2 = graph_of w ∧
  text r.2.1 = (if connecting (fields cmd) then "Connect nodes" else "Disconnect nodes").
Proof.
  cbn zeta. set (cmd := __init__ w o i s).
  destruct (connect_ports_init_fields w o i s) as (He & Ho & Hi & Hct & Hcf).
  cbn zeta in He, Ho, Hi, Hct, Hcf. fold cmd in He, Ho, Hi, Hct, Hcf.
  destruct (connect_ports_redo_ cmd w) as (self1 & w1 & Hr & Hc & Hinfo & _ & Hg1).
  destruct (connect_ports_undo_ self1 w1) as (w2 & Hu & Hg2).
  rewrite (seq_ok _ _ _ _ Hr), Hu. cbn [fst snd]. split; [done|].
  cbn zeta in Hg1, Hg2. rewrite Hc, Hinfo, He in Hg2. rewrite He in Hg1.
  assert (Htext : text self1
                  = if connecting (fields cmd) then "Connect nodes" else "Disconnect nodes").
  { revert Hr. unfold redo_, methods. mstep.
    destruct (connecting (fields cmd)).
    - destruct (connection (fields cmd));
        unfold Flow.connect_ports, Flow.connect_from_info, Flow.add_connection, emit; mstep;
        destruct (silent (fields cmd)); mstep; by intros [= <- _].
    - unfold Flow.disconnect_from_info, Flow.remove_connection, emit; mstep;
        destruct (silent (fields cmd)); mstep; by intros [= <- _]. }
  split; [|done]. rewrite Hg2.
  destruct (connecting (fields cmd)) eqn:Hmode.
  - destruct (Hct eq_refl) as [Hnone Hnot]. rewrite Hnone, Ho, Hi in Hg1.
    apply (f_equal g_nodes) in Hg1 as H1. apply (f_equal g_connections) in Hg1 as H2.
    apply (f_equal g_drawings) in Hg1 as H3. apply (f_equal g_pos) in Hg1 as H4.
    cbn in H1, H2, H3, H4. unfold disconnect_graph. rewrite H1, H2, H3, H4.
    apply graph_eq; cbn; try done. by apply gset_add_remove.
  - specialize (Hcf eq_refl).
    apply (f_equal g_nodes) in Hg1 as H1. apply (f_equal g_connections) in Hg1 as H2.
    apply (f_equal g_drawings) in Hg1 as H3. apply (f_equal g_pos) in Hg1 as H4.
    cbn in H1, H2, H3, H4. unfold connect_graph. rewrite H1, H2, H3, H4.
    apply graph_eq; cbn; try done. by apply gset_remove_add.
Qed.

End ConnectPortsMore.

(** ** More on [RemoveComponentsCommand] *)

Section RemoveOrigin.
Import RemoveComponentsCommand.
Variables (f : Flow) (items : list Item) (N : list Node).
Implicit Types (s : Sets) (c : ConnectionInfo).

Lemma origin_add c s (internal_set : bool) :
  (ConnectionItem c ∈ items ∨
   (Flow.edge c ∈ connections f ∧
    ∃ n, n ∈ N ∧ (inp_port c ∈ default [] (_inputs f !! n) ∨
                  out_port c ∈ default [] (_outputs f !! n)))) →
  sets_origin f items N s →
  sets_origin f items N (if internal_set then add_internal c s else add_broken c s).
Proof.
  intros Hc Hs c' Hc'. destruct internal_set; cbn in Hc'.
  - destruct Hc' as [Hc'|Hc']; [apply Hs; by left|].
    apply elem_of_union in Hc' as [Hc'|Hc']; [apply Hs; by right|].
    apply elem_of_singleton in Hc'. by subst.
  - destruct Hc' as [Hc'|Hc']; [|apply Hs; by right].
    apply elem_of_union in Hc' as [Hc'|Hc']; [apply Hs; by left|].
    apply elem_of_singleton in Hc'. by subst.
Qed.

Lemma scan_item_origin s i :
  i ∈ items → sets_origin f items N s → sets_origin f items N (scan_item N s i).
Proof.
  intros Hi Hs. destruct i as [| |c]; cbn; try done.
  case_decide; [done|]. apply (origin_add c s false); [by left|done].
Qed.

Lemma scan_input_origin s n i :
  n ∈ N → i ∈ default [] (_inputs f !! n) →
  sets_origin f items N s → sets_origin f items N (scan_input f N s i).
Proof.
  intros Hn Hi Hs. unfold scan_input.
  destruct (Flow.connected_output f i) as [cp|] eqn:Hcp; [|done].
  apply connected_output_Some in Hcp.
  assert (Ho : ConnectionItem (Flow.connection_info (cp, i)) ∈ items ∨
               (Flow.edge (Flow.connection_info (cp, i)) ∈ connections f ∧
                ∃ n, n ∈ N ∧
                  (inp_port (Flow.connection_info (cp, i)) ∈ default [] (_inputs f !! n) ∨
                   out_port (Flow.connection_info (cp, i)) ∈ default [] (_outputs f !! n)))).
  { right. split; [done|]. exists n. split; [done|]. by left. }
  case_decide; [by apply (origin_add _ s true)|by apply (origin_add _ s false)].
Qed.

Lemma scan_output_origin s n o :
  n ∈ N → o ∈ default [] (_outputs f !! n) →
  sets_origin f items N s → sets_origin f items N (scan_output f N s o).
Proof.
  intros Hn Ho Hs. unfold scan_output.
  apply (foldl_inv _ (sets_origin f items N) (λ cp, cp ∈ Flow.connected_inputs f o));
    [|by apply Forall_forall|done].
  intros s' cp Hcp Hs'. apply elem_of_connected_inputs in Hcp.
  assert (Hc : ConnectionItem (Flow.connection_info (o, cp)) ∈ items ∨
               (Flow.edge (Flow.connection_info (o, cp)) ∈ connections f ∧
                ∃ n, n ∈ N ∧
                  (inp_port (Flow.connection_info (o, cp)) ∈ default [] (_inputs f !! n) ∨
                   out_port (Flow.connection_info (o, cp)) ∈ default [] (_outputs f !! n)))).
  { right. split; [done|]. exists n. split; [done|]. by right. }
  case_decide; [by apply (origin_add _ s' true)|by apply (origin_add _ s' false)].
Qed.

Lemma scan_node_origin s n :
  n ∈ N → sets_origin f items N s → sets_origin f items N (scan_node f N s n).
Proof.
  intros Hn Hs. unfold scan_node.
  apply (foldl_inv _ (sets_origin f items N) (λ o, o ∈ default [] (_outputs f !! n)));
    [|by apply Forall_forall|].
  - intros s' o Ho. by apply (scan_output_origin s' n).
  - apply (foldl_inv _ (sets_origin f items N) (λ i, i ∈ default [] (_inputs f !! n)));
      [|by apply Forall_forall|done].
    intros s' i Hi. by apply (scan_input_origin s' n).
Qed.

Lemma scan_origin : sets_origin f items N (scan f items N).
Proof.
  unfold scan.
  apply (foldl_inv _ (sets_origin f items N) (λ n, n ∈ N)); [|by apply Forall_forall|].
  - intros s n Hn. by apply scan_node_origin.
  - apply (foldl_inv _ (sets_origin f items N) (λ i, i ∈ items)); [|by apply Forall_forall|].
    + intros s i Hi. by apply scan_item_origin.
    + intros c [Hc|Hc]; by apply not_elem_of_empty in Hc.
Qed.

(** In a well-formed flow, a live connection with an end node among the
    removed nodes is recorded. *)
Lemma scan_touching o i :
  flow_wf f → (o, i) ∈ connections f → out_node o ∈ N ∨ inp_node i ∈ N →
  Flow.connection_info (o, i) ∈ broken (scan f items N) ∨
  Flow.connection_info (o, i) ∈ internal (scan f items N).
Proof.
  intros (Howned & Hlisted & Hsingle) Hc Hends.
  destruct (Hlisted _ Hc) as [Hol Hil]. cbn in Hol, Hil.
  destruct (decide (out_node o ∈ N)) as [Ho|Ho].
  - destruct (decide (inp_node i ∈ N)) as [Hi|Hi].
    + right. apply (scan_records_node _ _ _ (out_node o)); [done|]. intros s.
      pose proof (scan_node_records_output f N s (out_node o) o i Hol) as H.
      rewrite elem_of_connected_inputs in H. specialize (H Hc). cbn in H.
      by rewrite decide_True in H by done.
    + left. apply (scan_records_node_broken _ _ _ (out_node o)); [done|]. intros s.
      pose proof (scan_node_records_output f N s (out_node o) o i Hol) as H.
      rewrite elem_of_connected_inputs in H. specialize (H Hc). cbn in H.
      by rewrite decide_False in H by done.
  - destruct Hends as [?|Hi]; [done|].
    left. apply (scan_records_node_broken _ _ _ (inp_node i)); [done|]. intros s.
    pose proof (scan_node_records_input f N s (inp_node i) i o Hil
                  (connected_output_single _ _ _ Hsingle Hc)) as H.
    cbn in H. by rewrite decide_False in H by done.
Qed.

End RemoveOrigin.

Lemma elem_of_edges (l : list ConnectionInfo) (o : NodeOutput) (i : NodeInput) :
  (o, i) ∈ edges l ↔ Flow.connection_info (o, i) ∈ l.
Proof.
  unfold edges. rewrite elem_of_list_to_set, list_elem_of_fmap. split.
  - intros ([o' i'] & Heq & Hin). unfold Flow.edge in Heq. cbn in Heq.
    injection Heq as -> ->. exact Hin.
  - intros Hin. by exists (Flow.connection_info (o, i)).
Qed.

Section RemoveMore.

(** X10: what [redo_] removes, for a command constructed on a well-formed flow: the
    nodes and drawings of the selected items, every connection with an end on
    one of those nodes, and the connection of every selected connection item;
    no other connection.  No connection is left dangling at a removed node. *)
Theorem remove_redo__removes_exactly w items silent :
  flow_wf (flow w) →
  let cmd := RemoveComponentsCommand.__init__ w items silent in
  let N := RemoveComponentsCommand.nodes (fields cmd) in
  let r := redo_ (cmd, w) in
  r.1 = Ok tt ∧ r.2.1 = cmd ∧
  nodes (flow r.2.2) = nodes (flow w) ∖ list_to_set N ∧
  scene_drawings (flow_view r.2.2)
    = scene_drawings (flow_view w) ∖ list_to_set (RemoveComponentsCommand.drawings (fields cmd)) ∧
  (∀ o i, (o, i) ∈ connections (flow r.2.2) ↔
          (o, i) ∈ connections (flow w) ∧ (out_node o ∉ N) ∧ (inp_node i ∉ N) ∧
          (ConnectionItem (Flow.connection_info (o, i)) ∉ items)).
Proof.
  intros Hwf. cbn zeta.
  destruct (remove_redo__graph (RemoveComponentsCommand.__init__ w items silent) w) as (w' & Hr & Hg).
  rewrite Hr. cbn [fst snd].
  apply (f_equal g_nodes) in Hg as Hn. apply (f_equal g_connections) in Hg as Hc.
  apply (f_equal g_drawings) in Hg as Hd. cbn in Hn, Hc, Hd.
  split; [done|]. split; [done|]. split; [done|]. split; [done|].
  intros o i. rewrite Hc. cbn [fields RemoveComponentsCommand.nodes RemoveComponentsCommand.__init__].
  set (N := omap RemoveComponentsCommand.as_node items).
  rewrite !elem_of_difference, !elem_of_edges, !elem_of_elements.
  pose proof (scan_origin (flow w) items N) as Horigin.
  pose proof (scan_sound (flow w) N items (proj1 Hwf)) as [Hint Hbrk].
  destruct Hwf as (Howned & Hlisted & Hsingle).
  split.
  - intros [[Hin Hb] Hi]. split; [done|].
    assert (Hnot : ¬ (out_node o ∈ N ∨ inp_node i ∈ N)).
    { intros Hends.
      destruct (scan_touching (flow w) items N o i (conj Howned (conj Hlisted Hsingle))
                  Hin Hends); done. }
    split; [tauto|]. split; [tauto|].
    intros Hitem. apply Hb. apply scan_records_item; [done|]. cbn. tauto.
  - intros (Hin & Ho & Hi & Hitem).
    assert (Hnot : ¬ (Flow.connection_info (o, i) ∈ RemoveComponentsCommand.broken (RemoveComponentsCommand.scan (flow w) items N) ∨
                      Flow.connection_info (o, i) ∈ RemoveComponentsCommand.internal (RemoveComponentsCommand.scan (flow w) items N))).
    { intros H. destruct (Horigin _ H) as [?|(_ & n & Hn' & [Hp|Hp])]; [done| |]; cbn in Hp.
      - destruct Howned as [Hinp _].
        destruct (_inputs (flow w) !! n) as [l|] eqn:Hl; [|by apply elem_of_nil in Hp].
        pose proof (Hinp n l Hl) as Hall. rewrite Forall_forall in Hall.
        specialize (Hall _ Hp). by subst.
      - destruct Howned as [_ Hout].
        destruct (_outputs (flow w) !! n) as [l|] eqn:Hl; [|by apply elem_of_nil in Hp].
        pose proof (Hout n l Hl) as Hall. rewrite Forall_forall in Hall.
        specialize (Hall _ Hp). by subst. }
    tauto.
Qed.


End RemoveMore.

Lemma remove_redo__removes_exactly_witness :
  let r := redo_ (RemoveComponentsCommand.__init__ abc_world [NodeItem 1] false, abc_world) in
  r.1 = Ok tt ∧ nodes (flow r.2.2) = nodes (flow abc_world) ∖ list_to_set [1].
Proof.
  assert (Hwf : flow_wf (flow abc_world)) by (apply (bool_decide_unpack _); vm_compute; exact I).
  pose proof (remove_redo__removes_exactly abc_world [NodeItem 1] false Hwf)
    as (H1 & _ & H2 & _).
  exact (conj H1 H2).
Defined.


(** ** More on [PasteCommand] *)

Section PasteMore.
Import PasteCommand.
Implicit Types (self : FlowUndoCommand PasteCommand.t) (w : World) (offset : Pos).

Lemma for_each_shift_node_missing offset (pre post : list NodeData) (nd : NodeData) :
  forallb (λ nd, has_pos (nd_dict nd)) pre = true →
  nd_dict nd !! "pos x" = None →
  for_each (shift_node offset) (pre ++ nd :: post)
  = (Raise (KeyError "pos x"), (shifted_node offset <$> pre) ++ nd :: post).
Proof.
  intros Hpre Hnd. induction pre as [|p pre IH]; cbn.
  - unfold shift_node, shift, getitem. msimpl. rewrite Hnd. by destruct nd.
  - cbn in Hpre. apply andb_prop in Hpre as [Hp Hpre].
    unfold shift_node at 1. rewrite shift_has_pos by done. by rewrite IH.
Qed.

(** X12: a node descriptor without a ['pos x'] entry: the constructor raises
    [KeyError] and gives no command, the descriptors before it are shifted
    already (in the caller's dictionary), the one without the entry, those
    after it and the drawings are as they were. *)
Theorem paste_init_missing_key w (r : Ref) (d : PasteData) offset pre nd post :
  heap w !! r = Some d →
  data_nodes d = pre ++ nd :: post →
  forallb (λ nd, has_pos (nd_dict nd)) pre = true →
  nd_dict nd !! "pos x" = None →
  __init__ r offset w
  = (Raise (KeyError "pos x"),
     with_heap <[r := {| data_nodes := (shifted_node offset <$> pre) ++ nd :: post;
                         data_connections := data_connections d;
                         data_drawings := data_drawings d |}]> w).
Proof.
  intros Hr Hd Hpre Hnd. unfold __init__, modify_data_positions, deref. msimpl.
  rewrite Hr. unfold shift_data. rewrite Hd.
  by rewrite for_each_shift_node_missing.
Qed.

Lemma shifted_num offset (d : gmap string Value) :
  num_or_0 (shifted offset d !! "pos x") = (num_or_0 (d !! "pos x") + offset.1)%Z ∧
  num_or_0 (shifted offset d !! "pos y") = (num_or_0 (d !! "pos y") + offset.2)%Z.
Proof.
  unfold shifted. split.
  - rewrite lookup_insert_ne by done. by rewrite lookup_insert_eq.
  - by rewrite lookup_insert_eq.
Qed.

(** *** Where the pasted drawings stand *)

Lemma create_drawings_loop_pos ds self w :
  forallb has_pos ds = true →
  let nd := next_drawing (flow_view w) in
  ∃ self' w', for_ ds create_drawings_body (self, w) = (Ok tt, (self', w')) ∧
    data (fields self') = data (fields self) ∧
    nodes (fields self') = nodes (fields self) ∧
    connections (fields self') = connections (fields self) ∧
    drawings (fields self') = drawings (fields self) ++ seq nd (length ds) ∧
    scene_drawings (flow_view w')
      = scene_drawings (flow_view w) ∪ list_to_set (seq nd (length ds)) ∧
    next_drawing (flow_view w') = nd + length ds ∧
    (∀ k dd, ds !! k = Some dd →
       item_pos (flow_view w') !! DrawingObject (nd + k)
       = Some (num_or_0 (dd !! "pos x"), num_or_0 (dd !! "pos y"))) ∧
    (∀ it, (∀ k, k < length ds → it ≠ DrawingObject (nd + k)) →
       item_pos (flow_view w') !! it = item_pos (flow_view w) !! it) ∧
    flow w' = flow w ∧ heap w' = heap w.
Proof.
  revert self w. induction ds as [|d ds IH]; intros self w Hds; cbn zeta.
  - exists self, w. split; [done|]. cbn. rewrite app_nil_r, Nat.add_0_r.
    repeat split; try done. set_tauto.
  - cbn in Hds. apply andb_prop in Hds as [Hd Hds].
    assert (Hb : ∃ x y, d !! "pos x" = Some (VNum x) ∧ d !! "pos y" = Some (VNum y)).
    { unfold has_pos in Hd. destruct (d !! "pos x") as [[x|]|]; try done.
      destruct (d !! "pos y") as [[y|]|]; try done. by eexists _, _. }
    destruct Hb as (x & y & Hx & Hy).
    set (nd := next_drawing (flow_view w)).
    set (w1 := with_view (view_pos <[DrawingObject nd := (x, y)]>)
                 (with_view (view_drawings (λ s, s ∪ {[nd]}))
                    (with_view (λ v, {| item_pos := item_pos v;
                                        scene_drawings := scene_drawings v;
                                        _current_selected := _current_selected v;
                                        next_drawing := S nd |}) w))).
    set (s1 := {| _activated := _activated self; text := text self;
                  fields := append_drawing nd (fields self) |}).
    assert (Hbody : create_drawings_body d (self, w) = (Ok tt, (s1, w1))).
    { unfold create_drawings_body, FlowView.create_drawing, FlowView.add_drawing, as_num.
      rewrite Hx, Hy. mstep. done. }
    destruct (IH s1 w1 Hds)
      as (s2 & w2 & Hl & Hdt & Hns & Hcs & Hdr & Hsc & Hnext & Hpos & Hother & Hfl & Hhp).
    cbn zeta in Hdr, Hsc, Hnext, Hpos, Hother.
    change (next_drawing (flow_view w1)) with (S nd) in *.
    exists s2, w2. split.
    { cbn [for_]. by rewrite (seq_ok _ _ _ _ Hbody). }
    split; [done|]. split; [done|]. split; [done|]. split.
    { rewrite Hdr. cbn. by rewrite <- app_assoc. }
    split.
    { rewrite Hsc. cbn. set_tauto. }
    split; [cbn; lia|]. split; [|split; [|done]].
    + intros [|k] dd Hk.
      * cbn in Hk. injection Hk as <-. rewrite Nat.add_0_r.
        rewrite Hother.
        -- cbn. rewrite lookup_insert_eq. by rewrite Hx, Hy.
        -- intros k _ [= Heq]. lia.
      * cbn in Hk. replace (nd + S k) with (S nd + k) by lia. by apply Hpos.
    + intros it Hit. rewrite Hother.
      * cbn. rewrite lookup_insert_ne; [done|].
        intros <-. apply (Hit 0); [cbn; lia|]. by rewrite Nat.add_0_r.
      * intros k Hk. replace (S nd + k) with (nd + S k) by lia. apply Hit. cbn. lia.
Qed.

Lemma load_nodes_drawing_pos nds w (d : Drawing) :
  item_pos (flow_view (Flow.load_nodes nds w).2) !! DrawingObject d
  = item_pos (flow_view w) !! DrawingObject d.
Proof.
  revert w. induction nds as [|nd nds IH]; intros w; [done|].
  cbn [Flow.load_nodes]. unfold Flow.load_node. mstep.
  match goal with
  | |- context [Flow.load_nodes nds ?w0] =>
      specialize (IH w0); destruct (Flow.load_nodes nds w0) as [[ns|e] w'] eqn:E
  end; cbn [fst snd] in *; rewrite IH; cbn; by rewrite lookup_insert_ne.
Qed.

(** X14: the first [redo_] creates one drawing for each drawing descriptor, in
    their order, puts it on the scene, and places it at the position of its
    descriptor: the position the caller gave plus the offset of the
    constructor. *)
Theorem paste_places_drawings w (r : Ref) (d : PasteData) offset :
  heap w !! r = Some d → data_has_pos d = true →
  let first := redo_ (pasted r, (__init__ r offset w).2) in
  first.1 = Ok tt ∧
  length (drawings (fields first.2.1)) = length (data_drawings d) ∧
  ∀ k dd dr, data_drawings d !! k = Some dd →
    drawings (fields first.2.1) !! k = Some dr →
    dr ∈ scene_drawings (flow_view first.2.2) ∧
    pos_of (flow_view first.2.2) (DrawingObject dr)
    = padd (num_or_0 (dd !! "pos x"), num_or_0 (dd !! "pos y")) offset.
Proof.
  intros Hr Hd. cbn zeta. rewrite (init_shifts _ _ _ _ Hr Hd). cbn [snd].
  set (w0 := with_heap <[r := shifted_data offset d]> w).
  set (d' := shifted_data offset d).
  assert (Hh : heap w0 !! data (fields (pasted r)) = Some d') by apply lookup_insert_eq.
  pose proof (shifted_data_has_pos offset d) as Hpos. fold d' in Hpos.
  apply andb_prop in Hpos as [Hposn Hposd].
  unfold redo_, methods, create_drawings. mstep.
  cbn [fields pasted nodes connections drawings is_empty andb].
  rewrite (deref_gets _ _ _ _ Hh). cbn [fst snd].
  destruct (create_drawings_loop_pos (data_drawings d') (pasted r) w0 Hposd)
    as (s1 & w1 & Hl & Hdt & Hns & Hcs & Hdr & Hsc & Hnext & Hp & Hother & Hfl & Hhp).
  cbn zeta in Hdr, Hsc, Hnext, Hp, Hother.
  rewrite Hl. cbn [fst snd].
  assert (Hh1 : heap w1 !! data (fields s1) = Some d') by (by rewrite Hhp, Hdt).
  rewrite (deref_gets _ _ _ _ Hh1). cbn [fst snd].
  unfold Flow.load_components. mstep.
  pose proof (load_nodes_drawing_pos (data_nodes d') w1) as Hnpos.
  destruct (load_nodes_spec (data_nodes d') w1)
    as (ns & w2 & Hln & Hlenn & Hnin & Hnmono & Hnc & Hnd & Hnh).
  rewrite Hln in Hnpos |- *. cbn [snd] in Hnpos.
  destruct (load_connections_spec ns (data_connections d') w2)
    as (cs & w3 & Hlc & Hcin & Hcmono & Hcn & Hcv & Hch & Hcnil).
  rewrite Hlc. cbn [fst snd]. unfold emit. mstep.
  match goal with
  | |- context [select_new_components_in_view (?s, ?w0)] =>
      destruct (paste_select_new s w0) as (w4 & Hs & Ho); rewrite Hs
  end.
  cbn [fst snd]. unfold paste_obs in Ho. cbn [fst snd] in Ho.
  injection Ho as H1 H2 H3 H4 Hnn Hnd' Hh4. cbn in H1, H2, H3, H4.
  cbn [fields set_components drawings].
  assert (Hlen : length (data_drawings d') = length (data_drawings d))
    by (unfold d', shifted_data; cbn; by rewrite length_fmap).
  split; [done|]. split.
  { rewrite Hdr. cbn. by rewrite length_seq. }
  change (flow_view w0) with (flow_view w) in *.
  intros k dd dr Hk Hdrk.
  rewrite Hdr in Hdrk. cbn in Hdrk.
  apply lookup_seq in Hdrk as [-> Hlt].
  assert (Hk' : data_drawings d' !! k = Some (shifted offset dd)).
  { unfold d', shifted_data. cbn. by rewrite list_lookup_fmap, Hk. }
  split.
  - rewrite H3, Hcv, Hnd, Hsc.
    apply elem_of_union_r, elem_of_list_to_set, elem_of_seq.
    rewrite length_fmap in Hlt. rewrite Hlen. lia.
  - unfold pos_of. rewrite H4, Hcv, Hnpos.
    etrans; [exact (f_equal (default origin) (Hp k _ Hk'))|]. cbn.
    by rewrite (proj1 (shifted_num offset dd)), (proj2 (shifted_num offset dd)).
Qed.

(** *** A paste of nothing *)

Lemma paste_redo__empty self w d :
  heap w !! data (fields self) = Some d →
  data_nodes d = [] → data_drawings d = [] →
  nodes (fields self) = [] → connections (fields self) = [] → drawings (fields self) = [] →
  ∃ w', redo_ (self, w) = (Ok tt, (self, w')) ∧
        graph_of w' = graph_of w ∧ heap w' = heap w ∧
        events w' = events w ++ [add_new_signal].
Proof.
  intros Hh Hn Hd Hfn Hfc Hfd.
  unfold redo_, methods, create_drawings. mstep.
  rewrite Hfn, Hfc, Hfd. cbn [is_empty andb].
  rewrite (deref_gets _ _ _ _ Hh). cbn [fst snd]. rewrite Hd. cbn [for_].
  mstep. rewrite (deref_gets _ _ _ _ Hh). cbn [fst snd]. rewrite Hn.
  unfold Flow.load_components. cbn [Flow.load_nodes]. mstep.
  rewrite load_connections_nil. cbn [fst snd]. unfold emit. mstep.
  unfold select_new_components_in_view, FlowView.clear_selection. mstep.
  cbn [fields set_components drawings nodes]. rewrite Hfd. cbn [for_]. mstep.
  eexists. split.
  - f_equal. f_equal. destruct self as [a t [dt ns cs ds]]. cbn in *. by subst.
  - done.
Qed.

Lemma paste_undo__empty self w :
  nodes (fields self) = [] → connections (fields self) = [] → drawings (fields self) = [] →
  undo_ (self, w) = (Ok tt, (self, w)).
Proof.
  intros Hfn Hfc Hfd. unfold undo_, methods. mstep. by rewrite Hfn, Hfc, Hfd.
Qed.

(** X15: a paste of data without node and drawing descriptors creates nothing, and
    so every [redo_] of it, not only the first, finds its instance lists
    empty and takes the creating branch again: each one signals
    [add_new_signal], none [add_existing_signal], and the graph stays as it
    is. *)
Theorem paste_empty_recreates self w d n :
  heap w !! data (fields self) = Some d →
  data_nodes d = [] → data_drawings d = [] →
  nodes (fields self) = [] → connections (fields self) = [] → drawings (fields self) = [] →
  let r := times n (redo_;; undo_) (self, w) in
  r.1 = Ok tt ∧ r.2.1 = self ∧ graph_of r.2.2 = graph_of w ∧
  events r.2.2 = events w ++ replicate n add_new_signal.
Proof.
  intros Hh Hn Hd Hfn Hfc Hfd. cbn zeta. revert w Hh.
  induction n as [|n IH]; intros w Hh.
  - cbn. by rewrite app_nil_r.
  - destruct (paste_redo__empty self w d) as (w1 & Hr & Hg & Hh1 & He); try done.
    assert (Hcyc : (redo_;; undo_) (self, w) = (Ok tt, (self, w1))).
    { rewrite (seq_ok _ _ _ _ Hr). by apply paste_undo__empty. }
    cbn [times]. rewrite (seq_ok _ _ _ _ Hcyc).
    destruct (IH w1) as (H1 & H2 & H3 & H4); [by rewrite Hh1|].
    split; [done|]. split; [done|]. split; [by rewrite H3|].
    rewrite H4, He. by rewrite <- app_assoc.
Qed.

End PasteMore.

Lemma paste_init_missing_key_witness :
  let d := {| data_nodes := [ {| nd_dict := at_pos 0 0; nd_inputs := 1; nd_outputs := 1 |};
                              {| nd_dict := {["pos y" := VNum 3]}; nd_inputs := 0;
                                 nd_outputs := 0 |} ];
              data_connections := []; data_drawings := [at_pos 5 5] |} in
  (PasteCommand.__init__ 7 (10, 10)%Z (with_heap (λ _, {[7 := d]}) empty_world)).1
  = Raise (KeyError "pos x").
Proof.
  exact (f_equal fst (paste_init_missing_key
    (with_heap (λ _, {[7 := {| data_nodes :=
        [ {| nd_dict := at_pos 0 0; nd_inputs := 1; nd_outputs := 1 |};
          {| nd_dict := {["pos y" := VNum 3]}; nd_inputs := 0; nd_outputs := 0 |} ];
        data_connections := []; data_drawings := [at_pos 5 5] |}]}) empty_world)
    7 _ (10, 10)%Z
    [ {| nd_dict := at_pos 0 0; nd_inputs := 1; nd_outputs := 1 |} ]
    {| nd_dict := {["pos y" := VNum 3]}; nd_inputs := 0; nd_outputs := 0 |} []
    eq_refl eq_refl eq_refl eq_refl)).
Defined.

Lemma paste_places_drawings_witness :
  let first := redo_ (pasted 7, (PasteCommand.__init__ 7 (10, 10)%Z clipboard_world).2) in
  first.1 = Ok tt ∧
  length (PasteCommand.drawings (fields first.2.1)) = 1.
Proof.
  pose proof (paste_places_drawings clipboard_world 7 sample_data (10, 10)%Z eq_refl eq_refl)
    as (H1 & H2 & _).
  exact (conj H1 H2).
Defined.

Lemma paste_empty_recreates_witness :
  let d := {| data_nodes := []; data_connections := []; data_drawings := [] |} in
  let w := with_heap (λ _, {[7 := d]}) empty_world in
  let r := times 2 (redo_;; undo_) (pasted 7, w) in
  r.1 = Ok tt ∧ events r.2.2 = [add_new_signal; add_new_signal].
Proof.
  pose proof (paste_empty_recreates (pasted 7)
    (with_heap (λ _, {[7 := {| data_nodes := []; data_connections := [];
                               data_drawings := [] |}]}) empty_world)
    {| data_nodes := []; data_connections := []; data_drawings := [] |} 2
    eq_refl eq_refl eq_refl eq_refl eq_refl eq_refl) as (H1 & _ & _ & H2).
  exact (conj H1 H2).
Defined.

(** ** More on the port items *)

Section PortConnections.
Implicit Types (w : World) (p : NodePort).

Lemma connected_inputs_NoDup (f : Flow) (o : NodeOutput) :
  NoDup (Flow.connected_inputs f o).
Proof.
  unfold Flow.connected_inputs.
  apply NoDup_fmap_2_strong.
  - intros [o1 i1] [o2 i2] H1 H2 Heq.
    apply list_elem_of_filter in H1 as [E1 _]. apply list_elem_of_filter in H2 as [E2 _].
    cbn in *. by subst.
  - apply NoDup_filter, NoDup_elements.
Qed.

(** X16: [connections(port)] and [is_connected(port)] agree: the list holds a
    connection exactly when the port counts as connected.  The list holds
    each connection once; for an output these are the flow's connections
    from it, for an input the one connection [connected_output] answers
    with.  On a port that is [None] both raise [AttributeError]. *)
Theorem connections_agree_with_is_connected w :
  (∀ p, ∃ l,
     item.connections (Some p) w = (Ok l, w) ∧
     is_connected (Some p) w = (Ok (bool_decide (l ≠ [])), w) ∧
     NoDup l ∧
     ∀ c, c ∈ l ↔
          match p with
          | POutput o => out_port c = o ∧ Flow.edge c ∈ connections (flow w)
          | PInput i =>
              inp_port c = i ∧ Flow.connected_output (flow w) i = Some (out_port c)
          end) ∧
  item.connections None w
    = (Raise (AttributeError "'NoneType' object has no attribute 'node'"), w) ∧
  is_connected None w
    = (Raise (AttributeError "'NoneType' object has no attribute 'node'"), w).
Proof.
  split; [|done]. intros [i|o].
  - unfold item.connections, is_connected. msimpl.
    destruct (Flow.connected_output (flow w) i) as [o|] eqn:Hco.
    + exists [Flow.connection_info (o, i)]. split; [done|]. split.
      { reflexivity. }
      split; [apply NoDup_singleton|].
      intros [o' i']. rewrite list_elem_of_singleton. cbn. split.
      * by intros [= -> ->].
      * intros [-> [= ->]]. done.
    + exists []. split; [done|]. split.
      { reflexivity. }
      split; [apply NoDup_nil_2|].
      intros c. split; [by intros H%elem_of_nil|]. by intros [_ H].
  - unfold item.connections, is_connected. msimpl.
    eexists. split; [reflexivity|]. split; [|split].
    + f_equal. f_equal. apply bool_decide_ext.
      destruct (Flow.connected_inputs (flow w) o); cbn; split; (done || lia).
    + apply NoDup_fmap_2; [|apply connected_inputs_NoDup].
      by intros i1 i2 [= ->].
    + intros [o' i']. rewrite list_elem_of_fmap. cbn. split.
      * intros (i & [= -> ->] & Hi). split; [done|]. by apply elem_of_connected_inputs.
      * intros [-> Hc]. exists i'. split; [done|]. by apply elem_of_connected_inputs.
Qed.

End PortConnections.

Section PinProtection.
Implicit Types (w : World) (p : NodePort) (pin : PortItemPin.t) (value : PinState).

Lemma is_connected_returns p w :
  ∃ c, is_connected (Some p) w = (Ok c, w).
Proof. destruct p; unfold is_connected, gets; by eexists. Qed.

Lemma PortItemPin_set_state_present pin w p value protect_connection c :
  PortItemPin.port pin w = (Ok (Some p), w) →
  is_connected (Some p) w = (Ok c, w) →
  PortItemPin.set_state value protect_connection (pin, w)
  = (Ok tt, (PortItemPin.set__state
               (if c && protect_connection then CONNECTED else value) pin, w)).
Proof.
  intros Hp Hc. unfold PortItemPin.set_state. mstep.
  rewrite Hp. cbn [fst snd]. rewrite Hc. cbn [fst snd].
  by destruct (c && protect_connection).
Qed.

(** X17: the pin of a connected port is protected: [set_state] with
    [protect_connection] (the default, which the [state] setter uses) leaves
    it [CONNECTED] whatever state is asked for; without the protection, or on
    a port that is not connected, the pin takes the state asked for.  Nothing
    but the pin's state changes: no update of the item is requested. *)
Theorem pin_state_protected pin w p value protect_connection :
  PortItemPin.port pin w = (Ok (Some p), w) →
  ∃ c, is_connected (Some p) w = (Ok c, w) ∧
    PortItemPin.set_state value protect_connection (pin, w)
    = (Ok tt, (PortItemPin.set__state
                 (if c && protect_connection then CONNECTED else value) pin, w)) ∧
    PortItemPin.state_setter value (pin, w)
    = (Ok tt, (PortItemPin.set__state (if c then CONNECTED else value) pin, w)) ∧
    PortItemPin.set_state value false (pin, w)
    = (Ok tt, (PortItemPin.set__state value pin, w)).
Proof.
  intros Hp. destruct (is_connected_returns p w) as [c Hc]. exists c.
  split; [done|]. split; [by apply (PortItemPin_set_state_present pin w p)|]. split.
  - unfold PortItemPin.state_setter.
    rewrite (PortItemPin_set_state_present pin w p value true c Hp Hc).
    by rewrite andb_true_r.
  - rewrite (PortItemPin_set_state_present pin w p value false c Hp Hc).
    by rewrite andb_false_r.
Qed.

End PinProtection.

Section PortItemState.
Implicit Types (w : World) (p : NodePort) (self : PortItem.t).

Lemma shares_port_pin_port self w :
  shares_port self → PortItemPin.port (PortItem.pin self) w = PortItem.port self w.
Proof.
  intros (Hn & Hi & Hx). unfold PortItemPin.port, PortItem.port. by rewrite Hn, Hi, Hx.
Qed.

Lemma PortItem_set_state self w p (s : PinState) c :
  shares_port self →
  PortItem.port self w = (Ok (Some p), w) →
  is_connected (Some p) w = (Ok c, w) →
  let s' := if c then CONNECTED else s in
  (PortItem.on_pin (PortItemPin.state_setter s);; PortItem.update) (self, w)
  = (Ok tt, (PortItem.set_pin (PortItemPin.set__state s' (PortItem.pin self)) self,
             with_event QGraphicsWidget_update (with_event (setup_PI_label p s') w))).
Proof.
  intros Hshare Hp Hc s'.
  assert (Hpin : PortItemPin.port (PortItem.pin self) w = (Ok (Some p), w))
    by (by rewrite shares_port_pin_port).
  unfold PortItem.on_pin, PortItemPin.state_setter. mstep.
  rewrite (PortItemPin_set_state_present _ w p s true c Hpin Hc). cbn [fst snd].
  rewrite andb_true_r. fold s'.
  unfold PortItem.update. mstep.
  assert (Hp' : PortItem.port
                  (PortItem.set_pin (PortItemPin.set__state s' (PortItem.pin self)) self) w
                = (Ok (Some p), w)) by exact Hp.
  rewrite Hp'. cbn [fst snd]. unfold emit. mstep. done.
Qed.

Lemma PortItem_port_connected_present self w p c :
  shares_port self →
  PortItem.port self w = (Ok (Some p), w) →
  is_connected (Some p) w = (Ok c, w) →
  PortItem.port_connected (self, w)
  = (Ok tt, (PortItem.set_pin (PortItemPin.set__state CONNECTED (PortItem.pin self)) self,
             with_event QGraphicsWidget_update
               (with_event (setup_PI_label p CONNECTED) w))).
Proof.
  intros Hshare Hp Hc. unfold PortItem.port_connected.
  rewrite (PortItem_set_state _ _ _ CONNECTED _ Hshare Hp Hc). cbn zeta.
  by destruct c.
Qed.

Lemma PortItem_port_disconnected_present self w p c :
  shares_port self →
  PortItem.port self w = (Ok (Some p), w) →
  is_connected (Some p) w = (Ok c, w) →
  PortItem.port_disconnected (self, w)
  = (Ok tt, (PortItem.set_pin
               (PortItemPin.set__state (state_after_disconnect c) (PortItem.pin self)) self,
             with_event QGraphicsWidget_update
               (with_event (setup_PI_label p (state_after_disconnect c)) w))).
Proof.
  intros Hshare Hp Hc. unfold PortItem.port_disconnected.
  by rewrite (PortItem_set_state _ _ _ DISCONNECTED _ Hshare Hp Hc).
Qed.

(** X18: [port_connected] leaves the pin [CONNECTED]; [port_disconnected] leaves
    it [DISCONNECTED] only when the flow holds no connection of the port any
    more, and [CONNECTED] as long as it holds one (the setter protects the
    state).  Both then set the label up for the state the pin has now, and
    update the item. *)
Theorem port_item_connection_state self w p :
  shares_port self →
  PortItem.port self w = (Ok (Some p), w) →
  ∃ c, is_connected (Some p) w = (Ok c, w) ∧
    PortItem.port_connected (self, w)
    = (Ok tt, (PortItem.set_pin (PortItemPin.set__state CONNECTED (PortItem.pin self)) self,
               with_event QGraphicsWidget_update
                 (with_event (setup_PI_label p CONNECTED) w))) ∧
    PortItem.port_disconnected (self, w)
    = (Ok tt, (PortItem.set_pin
                 (PortItemPin.set__state (state_after_disconnect c) (PortItem.pin self)) self,
               with_event QGraphicsWidget_update
                 (with_event (setup_PI_label p (state_after_disconnect c)) w))).
Proof.
  intros Hshare Hp. destruct (is_connected_returns p w) as [c Hc]. exists c.
  split; [done|]. split.
  - by apply (PortItem_port_connected_present self w p c).
  - by apply (PortItem_port_disconnected_present self w p c).
Qed.

Lemma index_of_Some port (l : list NodePort) i :
  PortItem.index_of port l = Some i → l !! i = Some port.
Proof.
  revert i. induction l as [|x l IH]; intros i; cbn; [done|].
  case_decide as Hx; [by intros [= <-]; subst|].
  destruct (PortItem.index_of port l) as [j|]; [|done]. cbn.
  intros [= <-]. cbn. by apply IH.
Qed.

Lemma index_of_None port (l : list NodePort) :
  PortItem.index_of port l = None ↔ port ∉ l.
Proof.
  induction l as [|x l IH]; cbn.
  - split; [intros _; apply not_elem_of_nil|done].
  - case_decide as Hx.
    + split; [done|]. intros H. exfalso. apply H. subst. apply elem_of_cons. by left.
    + rewrite not_elem_of_cons. destruct (PortItem.index_of port l) as [j|]; cbn.
      * split; [done|]. intros [_ H]. by apply IH in H.
      * split; [|done]. intros _. split; [done|]. by apply IH.
Qed.

(** X19: the item of a port finds its port again: built for a port that is in the
    list of its node, the item and its pin both answer [port] with that port
    as long as the flow is the one it was built on; built for a port that is
    not in the list, the constructor fails ([list.index] raises). *)
Theorem port_item_init_port (f : Flow) (node : Node) (port : NodePort) :
  (port ∈ port_list f node (is_NodeInput port) →
   ∃ self, PortItem.__init__ f node port = Some self ∧ shares_port self ∧
     ∀ w, flow w = f →
          PortItem.port self w = (Ok (Some port), w) ∧
          PortItemPin.port (PortItem.pin self) w = (Ok (Some port), w)) ∧
  (port ∉ port_list f node (is_NodeInput port) → PortItem.__init__ f node port = None).
Proof.
  split.
  - intros Hin. unfold PortItem.__init__. fold (is_NodeInput port).
    destruct (PortItem.index_of port (port_list f node (is_NodeInput port))) as [i|] eqn:Hi.
    + cbn. eexists. split; [reflexivity|]. split; [done|].
      intros w <-. apply index_of_Some in Hi as Hl.
      assert (Hlt : (length (port_list (flow w) node (is_NodeInput port)) <=? i) = false).
      { apply Nat.leb_gt. by apply lookup_lt_Some in Hl. }
      unfold PortItem.port, PortItemPin.port, gets. cbn. by rewrite Hlt, Hl.
    + by apply index_of_None in Hi.
  - intros Hnot. unfold PortItem.__init__. fold (is_NodeInput port).
    apply index_of_None in Hnot. by rewrite Hnot.
Qed.

End PortItemState.

Section InputWidget.
Import InputPortItem.
Implicit Types (w : World) (p : NodePort) (self : InputPortItem.t).

(** X20: an input's widget follows the calls, not the pin: [port_connected]
    disables it and [port_disconnected] enables it, also when the pin stays
    [CONNECTED] because the flow still holds a connection of the port.  And
    when the port is gone from its node, the widget is disabled or enabled
    all the same before the call raises. *)
Theorem input_widget_follows_calls self w :
  let toggled b := {| base := base self;
                      widget := (λ _, {| enabled := b |}) <$> widget self |} in
  (∀ p, shares_port (base self) →
        PortItem.port (base self) w = (Ok (Some p), w) →
        widget (port_connected (self, w)).2.1 = widget (toggled false) ∧
        widget (port_disconnected (self, w)).2.1 = widget (toggled true) ∧
        (port_connected (self, w)).1 = Ok tt ∧ (port_disconnected (self, w)).1 = Ok tt ∧
        (is_connected (Some p) w = (Ok true, w) →
         PortItemPin._state (PortItem.pin (base (port_disconnected (self, w)).2.1))
         = CONNECTED)) ∧
  (shares_port (base self) →
   length (port_list (flow w) (PortItem.node (base self)) (PortItem._is_input (base self)))
     ≤ PortItem._port_index (base self) →
   port_connected (self, w)
   = (Raise (AttributeError "'NoneType' object has no attribute 'node'"),
      (toggled false, w)) ∧
   port_disconnected (self, w)
   = (Raise (AttributeError "'NoneType' object has no attribute 'node'"),
      (toggled true, w))).
Proof.
  cbn zeta. split.
  - intros p Hshare Hp. destruct (is_connected_returns p w) as [c Hc].
    assert (Hcon : ∀ b, (widget_setEnabled b;; on_base PortItem.port_connected) (self, w)
       = (Ok tt, ({| base := PortItem.set_pin
                               (PortItemPin.set__state CONNECTED (PortItem.pin (base self)))
                               (base self);
                     widget := (λ _, {| enabled := b |}) <$> widget self |},
                  with_event QGraphicsWidget_update
                    (with_event (setup_PI_label p CONNECTED) w)))).
    { intros b. unfold widget_setEnabled, on_base. mstep.
      destruct (widget self) as [wd|] eqn:Hw; mstep; cbn [base widget];
        rewrite (PortItem_port_connected_present _ _ _ _ Hshare Hp Hc);
        cbn [fst snd]; by rewrite ?Hw. }
    assert (Hdis : ∀ b, (widget_setEnabled b;; on_base PortItem.port_disconnected) (self, w)
       = (Ok tt, ({| base := PortItem.set_pin
                               (PortItemPin.set__state (state_after_disconnect c)
                                  (PortItem.pin (base self)))
                               (base self);
                     widget := (λ _, {| enabled := b |}) <$> widget self |},
                  with_event QGraphicsWidget_update
                    (with_event (setup_PI_label p (state_after_disconnect c)) w)))).
    { intros b. unfold widget_setEnabled, on_base. mstep.
      destruct (widget self) as [wd|] eqn:Hw; mstep; cbn [base widget];
        rewrite (PortItem_port_disconnected_present _ _ _ _ Hshare Hp Hc);
        cbn [fst snd]; by rewrite ?Hw. }
    unfold port_connected, port_disconnected. rewrite Hcon, Hdis.
    cbn [fst snd base widget].
    split; [done|]. split; [done|]. split; [done|]. split; [done|].
    intros Hc'. rewrite Hc in Hc'. by injection Hc' as ->.
  - intros Hshare Hlen.
    assert (Hpin : length (port_list (flow w) (PortItemPin.node (PortItem.pin (base self)))
                             (PortItemPin._is_input (PortItem.pin (base self))))
                   ≤ PortItemPin.port_index (PortItem.pin (base self))).
    { destruct Hshare as (Hn & Hi & Hx). by rewrite Hn, Hi, Hx. }
    unfold port_connected, port_disconnected, widget_setEnabled, on_base,
      PortItem.port_connected, PortItem.port_disconnected, PortItem.on_pin,
      PortItemPin.state_setter.
    mstep.
    destruct (widget self) as [wd|] eqn:Hw; mstep; cbn [base widget];
      rewrite !(PortItemPin_set_state_missing _ _ _ _ Hpin); cbn; rewrite ?Hw;
      split; repeat f_equal; by destruct (base self).
Qed.

End InputWidget.

Lemma pin_state_protected_witness :
  PortItemPin.state_setter VALID (PortItem.pin port_item_B, abc_world)
  = (Ok tt, (PortItemPin.set__state CONNECTED (PortItem.pin port_item_B), abc_world)).
Proof.
  destruct (pin_state_protected (PortItem.pin port_item_B) abc_world (PInput (inp0 1))
              VALID true eq_refl) as (c & Hc & _ & Hs & _).
  assert (c = true) as -> by (vm_compute in Hc; by injection Hc).
  exact Hs.
Defined.

Lemma port_item_connection_state_witness :
  (PortItem.port_connected (port_item_B, abc_world)).1 = Ok tt ∧
  (PortItem.port_disconnected (port_item_B, abc_world)).1 = Ok tt.
Proof.
  destruct (port_item_connection_state port_item_B abc_world (PInput (inp0 1))
              (conj eq_refl (conj eq_refl eq_refl)) eq_refl) as (c & _ & H1 & H2).
  split; [exact (f_equal fst H1)|exact (f_equal fst H2)].
Defined.

Lemma port_item_init_port_witness :
  PortItem.__init__ abc_flow 1 (PInput (inp0 1)) = Some port_item_B ∧
  PortItem.port port_item_B abc_world = (Ok (Some (PInput (inp0 1))), abc_world).
Proof.
  assert (Hin : PInput (inp0 1) ∈ port_list abc_flow 1 (is_NodeInput (PInput (inp0 1))))
    by (apply (bool_decide_unpack _); vm_compute; exact I).
  destruct (proj1 (port_item_init_port abc_flow 1 (PInput (inp0 1))) Hin)
    as (self & Hinit & _ & Hport).
  assert (self = port_item_B) as -> by (vm_compute in Hinit; by injection Hinit).
  split; [exact Hinit|]. exact (proj1 (Hport abc_world eq_refl)).
Defined.

Lemma input_widget_follows_calls_witness :
  let self := {| InputPortItem.base := port_item_B;
                 InputPortItem.widget := Some {| InputPortItem.enabled := true |} |} in
  InputPortItem.widget (InputPortItem.port_connected (self, abc_world)).2.1
    = Some {| InputPortItem.enabled := false |} ∧
  (InputPortItem.port_connected (self, restructured_world)).1
    = Raise (AttributeError "'NoneType' object has no attribute 'node'").
Proof.
  pose (self := {| InputPortItem.base := port_item_B;
                   InputPortItem.widget := Some {| InputPortItem.enabled := true |} |}).
  assert (Hlen : length (port_list (flow restructured_world)
                           (PortItem.node (InputPortItem.base self))
                           (PortItem._is_input (InputPortItem.base self)))
                 ≤ PortItem._port_index (InputPortItem.base self)) by (vm_compute; lia).
  destruct (input_widget_follows_calls self abc_world) as [Ha _].
  destruct (input_widget_follows_calls self restructured_world) as [_ Hb].
  destruct (Ha (PInput (inp0 1)) (conj eq_refl (conj eq_refl eq_refl)) eq_refl)
    as (H1 & _).
  destruct (Hb (conj eq_refl (conj eq_refl eq_refl)) Hlen) as (H2 & _).
  split; [exact H1|exact (f_equal fst H2)].
Defined.

(** ** More on [RemoveComponentsCommand]: no node selected *)

Section RemoveNoNodes.
Import RemoveComponentsCommand.

Lemma scan_item_no_nodes (items : list Item) (s : Sets) :
  internal (foldl (scan_item []) s items) = internal s ∧
  ∀ c, c ∈ broken (foldl (scan_item []) s items) ↔ c ∈ broken s ∨ ConnectionItem c ∈ items.
Proof.
  revert s. induction items as [|i items IH]; intros s.
  - split; [done|]. intros c. split; [by left|]. intros [?|H]; [done|].
    by apply elem_of_nil in H.
  - cbn [foldl]. destruct (IH (scan_item [] s i)) as [Hi Hb]. split.
    + rewrite Hi. destruct i as [n|d|c']; try done.
    + intros c. rewrite Hb, elem_of_cons. destruct i as [n|d|c']; cbn.
      * split; [intros [?|?]; [by left|by right; right]|].
        intros [?|[?|?]]; [by left|done|by right].
      * split; [intros [?|?]; [by left|by right; right]|].
        intros [?|[?|?]]; [by left|done|by right].
      * rewrite decide_False by apply not_elem_of_nil. cbn.
        rewrite elem_of_union, elem_of_singleton. split.
        -- intros [[?| ->]|?]; [by left|by right; left|by right; right].
        -- intros [?|[[= ->]|?]]; [by left; left|by left; right|by right].
Qed.

(** X21: a command for a selection without node items records no internal
    connection, and as broken connections exactly the connections of the
    selected connection items, whatever the flow holds; with nothing
    selected both sets are empty. *)
Theorem remove_without_nodes w items silent :
  omap as_node items = [] →
  let cmd := fields (__init__ w items silent) in
  internal_connections cmd = ∅ ∧
  (∀ c, c ∈ broken_connections cmd ↔ ConnectionItem c ∈ items) ∧
  (items = [] → broken_connections cmd = ∅).
Proof.
  intros HN. cbn zeta. cbn [fields __init__ internal_connections broken_connections].
  rewrite HN. unfold scan. cbn [foldl].
  destruct (scan_item_no_nodes items {| broken := ∅; internal := ∅ |}) as [Hi Hb].
  split; [by rewrite Hi|]. split.
  - intros c. rewrite Hb. cbn. split; [intros [H|?]; [by apply not_elem_of_empty in H|done]|].
    by right.
  - by intros ->.
Qed.

End RemoveNoNodes.

Lemma remove_without_nodes_witness :
  let c := Flow.connection_info (out0 0, inp0 1) in
  let cmd := fields (RemoveComponentsCommand.__init__ abc_world [ConnectionItem c] false) in
  RemoveComponentsCommand.internal_connections cmd = ∅ ∧
  c ∈ RemoveComponentsCommand.broken_connections cmd.
Proof.
  pose proof (remove_without_nodes abc_world
                [ConnectionItem (Flow.connection_info (out0 0, inp0 1))] false eq_refl)
    as (H1 & H2 & _).
  split; [exact H1|]. apply H2. apply elem_of_cons. by left.
Defined.

(** ** Hovering a pin *)

Section Hover.
Import PinHover.
Context {V : Type}.
Variables (val_of : NodeOutput → option V) (type_ : NodePort → string)
  (create_tooltip : option V → string).
Implicit Types (self : PinHover.t) (w : World) (l : list ConnectionInfo).

Lemma highlight_lookup l b (m : gmap ConnectionInfo bool) c :
  highlight l b m !! c = if decide (c ∈ l) then Some b else m !! c.
Proof.
  unfold highlight. revert m. induction l as [|x l IH]; intros m; cbn.
  - by rewrite decide_False by apply not_elem_of_nil.
  - rewrite IH. destruct (decide (c ∈ l)) as [Hin|Hin].
    + by rewrite decide_True by (apply elem_of_cons; by right).
    + destruct (decide (c = x)) as [->|Hne].
      * rewrite lookup_insert_eq. by rewrite decide_True by (apply elem_of_cons; by left).
      * rewrite lookup_insert_ne by done.
        rewrite decide_False; [done|]. intros [?|?]%elem_of_cons; done.
Qed.

Lemma for_set_highlighted l b self w :
  (∀ c, c ∈ l → is_Some (connection_items self !! c)) →
  for_ l (λ c, set_highlighted c b) (self, w)
  = (Ok tt, (set_connection_items (highlight l b (connection_items self)) self, w)).
Proof.
  revert self. induction l as [|x l IH]; intros self Hl.
  - cbn. unfold mret, M_ret. by destruct self.
  - cbn [for_]. unfold mbind, M_bind. unfold set_highlighted at 1. cbn [fst snd].
    destruct (Hl x) as [bx Hx]; [apply elem_of_cons; by left|]. rewrite Hx.
    rewrite IH.
    + by destruct self.
    + intros c Hc. cbn. destruct (decide (c = x)) as [->|Hne].
      * rewrite lookup_insert_eq. by eexists.
      * rewrite lookup_insert_ne by done. apply Hl. apply elem_of_cons. by right.
Qed.

Lemma port_present self w p :
  PortItemPin.port (pin self) w = (Ok (Some p), w) →
  ∀ self', pin self' = pin self → port (self', w) = (Ok (Some p), (self', w)).
Proof.
  intros Hp self' Hpin. unfold port. mstep. rewrite Hpin, Hp. done.
Qed.

(** X22: hovering a pin whose port is there, when each connection of the port
    has its item: [hoverEnterEvent] highlights the items of exactly the
    connections of the port, marks the pin hovered, and for a data port sets
    the tool tip from the value at the port; [hoverLeaveEvent] takes the
    highlight off the same items and the mark off the pin.  The items of
    other connections keep their flag through both. *)
Theorem hover_highlights_connections self w p l :
  PortItemPin.port (pin self) w = (Ok (Some p), w) →
  item.connections (Some p) w = (Ok l, w) →
  (∀ c, c ∈ l → is_Some (connection_items self !! c)) →
  let entered := hoverEnterEvent val_of type_ create_tooltip (self, w) in
  let left := hoverLeaveEvent entered.2 in
  entered.1 = Ok tt ∧ entered.2.2 = w ∧
  hovered entered.2.1 = true ∧
  (∀ c, connection_items entered.2.1 !! c
        = if decide (c ∈ l) then Some true else connection_items self !! c) ∧
  (∃ v, item.val val_of (Some p) w = (Ok v, w) ∧
        toolTip entered.2.1
        = if decide (type_ p = "data") then create_tooltip v else toolTip self) ∧
  left.1 = Ok tt ∧ left.2.2 = w ∧
  hovered left.2.1 = false ∧
  (∀ c, connection_items left.2.1 !! c
        = if decide (c ∈ l) then Some false else connection_items self !! c) ∧
  QGraphicsWidget_hover left.2.1 = QGraphicsWidget_hover self ++ [true; false].
Proof.
  intros Hp Hl Hitems. cbn zeta.
  assert (Hv : ∃ v, item.val val_of (Some p) w = (Ok v, w)).
  { destruct p as [i|o]; unfold item.val; mstep; [|by eexists].
    destruct (Flow.connected_output (flow w) i); by eexists. }
  destruct Hv as [v Hv].
  set (tip := if decide (type_ p = "data") then create_tooltip v else toolTip self).
  set (self1 := set_toolTip tip self).
  set (self2 := base_handler true
                  (set_hovered true
                     (set_connection_items (highlight l true (connection_items self)) self1))).
  assert (Hpin1 : pin self1 = pin self) by done.
  assert (Henter : hoverEnterEvent val_of type_ create_tooltip (self, w) = (Ok tt, (self2, w))).
  { unfold hoverEnterEvent.
    unfold mbind at 1, M_bind at 1. rewrite (port_present self w p Hp self eq_refl).
    unfold mbind at 1, M_bind at 1. cbn [mret M_ret].
    unfold mbind at 1, M_bind at 1.
    assert (Htip : (if decide (type_ p = "data")
                    then p0 ← port; v0 ← on_world (item.val val_of p0);
                         on_self (modify (set_toolTip (create_tooltip v0)))
                    else mret tt) (self, w) = (Ok tt, (self1, w))).
    { subst self1 tip. destruct (decide (type_ p = "data")).
      - unfold mbind at 1, M_bind at 1. rewrite (port_present self w p Hp self eq_refl).
        unfold on_world at 1, mbind, M_bind. cbn [fst snd]. rewrite Hv. cbn [fst snd].
        unfold on_self, modify. done.
      - cbn. unfold mret, M_ret. by destruct self. }
    rewrite Htip.
    unfold mbind at 1, M_bind at 1. rewrite (port_present self w p Hp self1 Hpin1).
    unfold mbind at 1, M_bind at 1. unfold on_world at 1. cbn [fst snd]. rewrite Hl.
    cbn [fst snd].
    unfold mbind at 1, M_bind at 1. rewrite for_set_highlighted by done.
    unfold mbind, M_bind, on_self, modify. cbn [fst snd]. done. }
  rewrite Henter. cbn [fst snd].
  set (self3 := base_handler false
                  (set_hovered false
                     (set_connection_items (highlight l false (connection_items self2)) self2))).
  assert (Hleave : hoverLeaveEvent (self2, w) = (Ok tt, (self3, w))).
  { unfold hoverLeaveEvent.
    unfold mbind at 1, M_bind at 1. rewrite (port_present self w p Hp self2 eq_refl).
    unfold mbind at 1, M_bind at 1. unfold on_world at 1. cbn [fst snd]. rewrite Hl.
    cbn [fst snd].
    unfold mbind at 1, M_bind at 1. rewrite for_set_highlighted.
    - unfold mbind, M_bind, on_self, modify. cbn [fst snd]. done.
    - intros c Hc. cbn. rewrite highlight_lookup. rewrite decide_True by done. by eexists. }
  rewrite Hleave. cbn [fst snd].
  split; [done|]. split; [done|]. split; [done|]. split.
  { intros c. cbn. apply highlight_lookup. }
  split; [by exists v|]. split; [done|]. split; [done|]. split; [done|]. split.
  - intros c. cbn. rewrite !highlight_lookup. by destruct (decide (c ∈ l)).
  - cbn. by rewrite <- app_assoc.
Qed.

Lemma for_set_highlighted_missing (pre post : list ConnectionInfo) c b self w :
  (∀ c', c' ∈ pre → is_Some (connection_items self !! c')) →
  connection_items self !! c = None →
  for_ (pre ++ c :: post) (λ c, set_highlighted c b) (self, w)
  = (Raise (KeyError "ConnectionInfo"),
     (set_connection_items (highlight pre b (connection_items self)) self, w)).
Proof.
  revert self. induction pre as [|x pre IH]; intros self Hpre Hc.
  - cbn [app for_]. unfold mbind, M_bind. unfold set_highlighted. cbn [fst snd].
    rewrite Hc. by destruct self.
  - cbn [app for_]. unfold mbind, M_bind. unfold set_highlighted at 1. cbn [fst snd].
    destruct (Hpre x) as [bx Hx]; [apply elem_of_cons; by left|]. rewrite Hx.
    rewrite IH.
    + by destruct self.
    + intros c' Hc'. cbn. destruct (decide (c' = x)) as [->|Hne].
      * rewrite lookup_insert_eq. by eexists.
      * rewrite lookup_insert_ne by done. apply Hpre. apply elem_of_cons. by right.
    + cbn. rewrite lookup_insert_ne; [done|]. intros ->. by rewrite Hc in Hx.
Qed.

(** X23: what hovering does when something is missing.  On a pin whose port is
    gone from its node, [hoverEnterEvent] and [hoverLeaveEvent] raise
    [AttributeError] and change nothing.  When a connection of the port has
    no item, [hoverLeaveEvent] raises [KeyError] at that connection: the
    items of the connections before it have lost their highlight, and the
    pin is still marked as it was. *)
Theorem hover_missing self w :
  (PortItemPin.port (pin self) w = (Ok None, w) →
   hoverEnterEvent val_of type_ create_tooltip (self, w)
   = (Raise (AttributeError "'NoneType' object has no attribute 'type_'"), (self, w)) ∧
   hoverLeaveEvent (self, w)
   = (Raise (AttributeError "'NoneType' object has no attribute 'node'"), (self, w))) ∧
  (∀ p pre c post,
     PortItemPin.port (pin self) w = (Ok (Some p), w) →
     item.connections (Some p) w = (Ok (pre ++ c :: post), w) →
     (∀ c', c' ∈ pre → is_Some (connection_items self !! c')) →
     connection_items self !! c = None →
     hoverLeaveEvent (self, w)
     = (Raise (KeyError "ConnectionInfo"),
        (set_connection_items (highlight pre false (connection_items self)) self, w))).
Proof.
  split.
  - intros Hp.
    assert (Hport : port (self, w) = (Ok None, (self, w))).
    { unfold port. mstep. by rewrite Hp. }
    split.
    + unfold hoverEnterEvent. unfold mbind at 1, M_bind at 1. rewrite Hport.
      unfold mbind at 1, M_bind at 1. done.
    + unfold hoverLeaveEvent. unfold mbind at 1, M_bind at 1. rewrite Hport.
      unfold mbind at 1, M_bind at 1. done.
  - intros p pre c post Hp Hl Hpre Hc.
    unfold hoverLeaveEvent.
    unfold mbind at 1, M_bind at 1. rewrite (port_present self w p Hp self eq_refl).
    unfold mbind at 1, M_bind at 1. unfold on_world at 1. cbn [fst snd]. rewrite Hl.
    cbn [fst snd].
    unfold mbind at 1, M_bind at 1. by rewrite for_set_highlighted_missing.
Qed.

End Hover.

Lemma hover_highlights_connections_witness :
  let c := Flow.connection_info (out0 0, inp0 1) in
  let self := {| PinHover.pin := PortItem.pin port_item_B; PinHover.hovered := false;
                 PinHover.toolTip := EmptyString;
                 PinHover.connection_items := {[c := false]};
                 PinHover.QGraphicsWidget_hover := [] |} in
  let entered := PinHover.hoverEnterEvent (λ _, Some 7%Z) (λ _, "data")
                   (λ _, "seven") (self, abc_world) in
  entered.1 = Ok tt ∧ PinHover.hovered entered.2.1 = true ∧
  PinHover.connection_items entered.2.1 !! c = Some true.
Proof.
  pose (c := Flow.connection_info (out0 0, inp0 1)).
  pose (self := {| PinHover.pin := PortItem.pin port_item_B; PinHover.hovered := false;
                   PinHover.toolTip := EmptyString;
                   PinHover.connection_items := {[c := false]};
                   PinHover.QGraphicsWidget_hover := [] |}).
  assert (Hitems : ∀ c', c' ∈ [c] → is_Some (PinHover.connection_items self !! c')).
  { intros c' Hc'. apply list_elem_of_singleton in Hc' as ->. by eexists. }
  pose proof (hover_highlights_connections (λ _, Some 7%Z) (λ _, "data") (λ _, "seven")
                self abc_world (PInput (inp0 1)) [c] eq_refl eq_refl Hitems)
    as (H1 & _ & H2 & H3 & _).
  split; [exact H1|]. split; [exact H2|].
  refine (eq_trans (H3 c) _). reflexivity.
Defined.

Lemma hover_missing_witness :
  let self := {| PinHover.pin := PortItem.pin port_item_B; PinHover.hovered := false;
                 PinHover.toolTip := EmptyString; PinHover.connection_items := ∅;
                 PinHover.QGraphicsWidget_hover := [] |} in
  PinHover.hoverLeaveEvent (self, restructured_world)
  = (Raise (AttributeError "'NoneType' object has no attribute 'node'"),
     (self, restructured_world)) ∧
  PinHover.hoverLeaveEvent (self, abc_world)
  = (Raise (KeyError "ConnectionInfo"), (self, abc_world)).
Proof.
  pose (self := {| PinHover.pin := PortItem.pin port_item_B; PinHover.hovered := false;
                   PinHover.toolTip := EmptyString; PinHover.connection_items := ∅;
                   PinHover.QGraphicsWidget_hover := [] |}).
  destruct (hover_missing (λ _ : NodeOutput, Some 7%Z) (λ _, "data") (λ _, "seven")
              self restructured_world) as [Ha _].
  destruct (hover_missing (λ _ : NodeOutput, Some 7%Z) (λ _, "data") (λ _, "seven")
              self abc_world) as [_ Hb].
  split.
  - exact (proj2 (Ha eq_refl)).
  - assert (Hnil : ∀ c', c' ∈ [] → is_Some (PinHover.connection_items self !! c'))
      by (intros c' H; by apply elem_of_nil in H).
    exact (Hb (PInput (inp0 1)) [] (Flow.connection_info (out0 0, inp0 1)) []
             eq_refl eq_refl Hnil eq_refl).
Defined.
